(** * The media processing queue of services/media_processor.py

    A shallow embedding of the bounded job queue ([MediaProcessor]), of its
    single worker, and of the probes and transforms the worker runs, followed
    by the properties of the design that hold of the code and the ones that
    do not. *)

From Stdlib Require Import ZArith NArith Lia Floats Ascii String.
From stdpp Require Import base list strings gmap sorting.

Set Warnings "-inexact-float".

(** ** Python values shared by every component *)

Module Py.

(** A [bytes] value is a string of 8-bit characters; a decoded [str] is
    the list of its code points. *)
Definition bytes := string.
Definition str := list N.

(** Why a [MediaProcessingError] was raised (the text of its message,
    kept in parts). *)
Inductive failure :=
| UnknownJobType (kind : string)                 (* "Unknown job type: {kind}" *)
| ToolExited (returncode : Z) (diagnostic : str). (* "ffmpeg exited with ...: ..." *)

(** The exceptions the code can meet.  Every one of them derives from
    [Exception]; [asyncio.CancelledError], which does not, only ever enters
    the worker through [MediaProcessor.stop] and is modelled there. *)
Inductive exn :=
| MediaProcessingError (why : failure)
| ValueError
| UnicodeDecodeError
| OverflowError
| IndexError
| FileNotFoundError
| FileExistsError
| NotADirectoryError.

(** [isinstance(e, ValueError)]: [UnicodeDecodeError] is a subclass. *)
Definition is_ValueError (e : exn) : bool :=
  match e with
  | ValueError | UnicodeDecodeError => true
  | _ => false
  end.

(** A call either returns a value or raises. *)
Inductive result (A : Type) :=
| Ok (a : A)
| Raise (e : exn).
Arguments Ok {A} a.
Arguments Raise {A} e.

(** A [pathlib.Path] as its components, the last one first: the head is
    [Path.name], the tail is [Path.parent]. *)
Definition Path := list string.

(** *** [bytes.decode()]: strict UTF-8 *)

Definition continuation (b : N) : bool := (0x80 <=? b)%N && (b <=? 0xBF)%N.

(** The second byte of a three-byte form: no overlong form after [E0], no
    surrogate after [ED]. *)
Definition second_of_three (b0 b1 : N) : bool :=
  if (b0 =? 0xE0)%N then (0xA0 <=? b1)%N && (b1 <=? 0xBF)%N
  else if (b0 =? 0xED)%N then (0x80 <=? b1)%N && (b1 <=? 0x9F)%N
  else continuation b1.

(** The second byte of a four-byte form: no overlong form after [F0],
    nothing above U+10FFFF after [F4]. *)
Definition second_of_four (b0 b1 : N) : bool :=
  if (b0 =? 0xF0)%N then (0x90 <=? b1)%N && (b1 <=? 0xBF)%N
  else if (b0 =? 0xF4)%N then (0x80 <=? b1)%N && (b1 <=? 0x8F)%N
  else continuation b1.

Fixpoint utf8 (bs : list N) : option str :=
  match bs with
  | [] => Some []
  | b0 :: r0 =>
      if (b0 <? 0x80)%N then cons b0 <$> utf8 r0
      else if (0xC2 <=? b0)%N && (b0 <=? 0xDF)%N then
        match r0 with
        | b1 :: r1 =>
            if continuation b1
            then cons ((b0 - 0xC0) * 64 + (b1 - 0x80))%N <$> utf8 r1
            else None
        | _ => None
        end
      else if (0xE0 <=? b0)%N && (b0 <=? 0xEF)%N then
        match r0 with
        | b1 :: b2 :: r2 =>
            if second_of_three b0 b1 && continuation b2
            then cons ((b0 - 0xE0) * 4096 + (b1 - 0x80) * 64 + (b2 - 0x80))%N
                   <$> utf8 r2
            else None
        | _ => None
        end
      else if (0xF0 <=? b0)%N && (b0 <=? 0xF4)%N then
        match r0 with
        | b1 :: b2 :: b3 :: r3 =>
            if second_of_four b0 b1 && continuation b2 && continuation b3
            then cons ((b0 - 0xF0) * 262144 + (b1 - 0x80) * 4096
                       + (b2 - 0x80) * 64 + (b3 - 0x80))%N <$> utf8 r3
            else None
        | _ => None
        end
      else None
  end.

Fixpoint octets (b : bytes) : list N :=
  match b with
  | EmptyString => []
  | String a rest => N_of_ascii a :: octets rest
  end.

Definition decode (b : bytes) : result str :=
  match utf8 (octets b) with
  | Some text => Ok text
  | None => Raise UnicodeDecodeError
  end.

(** *** [str.strip()] *)

(** [str.isspace] on one code point. *)
Definition isspace (c : N) : bool :=
  ((0x09 <=? c) && (c <=? 0x0D) || (0x1C <=? c) && (c <=? 0x20)
   || (c =? 0x85) || (c =? 0xA0) || (c =? 0x1680)
   || (0x2000 <=? c) && (c <=? 0x200A)
   || (c =? 0x2028) || (c =? 0x2029) || (c =? 0x202F) || (c =? 0x205F)
   || (c =? 0x3000))%N.

Fixpoint lstrip (s : str) : str :=
  match s with
  | c :: rest => if isspace c then lstrip rest else s
  | [] => []
  end.

Definition strip (s : str) : str := reverse (lstrip (reverse (lstrip s))).

(** *** [float]: IEEE 754 binary64 *)

(** [float(z)] for an [int]: correctly rounded, [OverflowError] beyond
    the finite range. *)
Definition float_of_int (z : Z) : result float :=
  let x := SF2Prim (binary_normalize prec emax z 0 false) in
  if is_infinity x then Raise OverflowError else Ok x.

(** [int(x)] for a [float]: truncation towards zero. *)
Definition int_of_float (x : float) : result Z :=
  match Prim2SF x with
  | S754_zero _ => Ok 0%Z
  | S754_finite s m e =>
      Ok (cond_Zopp s (if (0 <=? e)%Z then Zpos m * 2 ^ e
                       else Zpos m / 2 ^ (- e)))%Z
  | S754_infinity _ => Raise OverflowError
  | S754_nan => Raise ValueError
  end.


(** [min(a, b)] and [max(a, b)] keep the first argument unless the second
    is strictly beyond it. *)
Definition fmin (a b : float) : float := if (b <? a)%float then b else a.
Definition fmax (a b : float) : float := if (a <? b)%float then b else a.

(** *** [random] *)

(** [random.uniform(a, b)] is [a + (b - a) * self.random()]; [r] is the
    value of [random()]. *)
Definition uniform (a b r : float) : float := (a + (b - a) * r)%float.


(** [random.choice(seq)] is [seq[self._randbelow(len(seq))]]; [i] is the
    value of [_randbelow]. *)
Definition choice {A} (seq : list A) (i : nat) : result A :=
  match seq !! i with
  | Some x => Ok x
  | None => Raise IndexError
  end.

(** *** Names *)

(** [str.lower()] on a name of ASCII characters: the letters [A] to [Z]
    are mapped, every other character is kept.  Beyond ASCII [str.lower()]
    follows the Unicode tables, which are not part of this model; what is
    proved of the value of a lower-cased suffix is proved for the names
    that are [plain]. *)
Definition lower_ascii (a : ascii) : ascii :=
  let n := N_of_ascii a in
  if (65 <=? n)%N && (n <=? 90)%N then ascii_of_N (n + 32) else a.

Fixpoint lower (s : string) : string :=
  match s with
  | EmptyString => EmptyString
  | String a rest => String (lower_ascii a) (lower rest)
  end.

(** [str.isascii()]: every character is below U+0080. *)
Fixpoint plain (s : string) : bool :=
  match s with
  | EmptyString => true
  | String a rest => (N_of_ascii a <? 128)%N && plain rest
  end.

(** [name.rfind('.')]: [i] is the index of the head of [s], [last] the
    latest hit so far. *)
Fixpoint rfind_dot (s : string) (i : nat) (last : option nat) : option nat :=
  match s with
  | EmptyString => last
  | String a rest =>
      rfind_dot rest (S i) (if Ascii.eqb a "." then Some i else last)
  end.

(** [PurePath.suffix]:
    [i = name.rfind('.')]; [name[i:]] if [0 < i < len(name) - 1], else ['']. *)
Definition suffix (p : Path) : string :=
  let name := default EmptyString (head p) in
  match rfind_dot name 0 None with
  | Some i =>
      if (0 <? i) && (i <? String.length name - 1)
      then String.substring i (String.length name - i) name
      else EmptyString
  | None => EmptyString
  end.

(** The segments of a string between the ["/"]. *)
Fixpoint split_slash (s : string) : list string :=
  match s with
  | EmptyString => [EmptyString]
  | String a rest =>
      if Ascii.eqb a "/" then EmptyString :: split_slash rest
      else match split_slash rest with
           | seg :: segs => String a seg :: segs
           | [] => [String a EmptyString]
           end
  end.

(** [path / name]: the segments of [name] that are neither empty nor
    ["."] come after those of [path]; a [name] that starts at the root
    replaces [path]. *)
Definition joinpath (path : Path) (name : string) : Path :=
  let parts :=
    filter (fun seg => seg <> EmptyString /\ seg <> ".") (split_slash name) in
  match name with
  | String "/" _ => reverse parts
  | _ => reverse parts ++ path
  end.

(** ['%032x' % n], the form of [UUID.hex]. *)
Definition hex_digit (n : N) : ascii :=
  if (n <? 10)%N then ascii_of_N (48 + n) else ascii_of_N (87 + n).

Fixpoint hex (digits : nat) (n : N) : string :=
  match digits with
  | O => EmptyString
  | S d => hex d (n / 16) +:+ String (hex_digit (n mod 16)) EmptyString
  end.

End Py.

(** ** The queue, the worker and the facade *)

Module Processor.
Import Py.

(** [MediaJob]; [future] is the identity of the job's [asyncio.Future] in
    the store of futures below. *)
Record MediaJob := mkJob {
  kind : string;
  source_path : Path;
  destination_dir : Path;
  future : nat
}.

(** An [asyncio.Future[Path]]: pending, or finished by [set_result] or by
    [set_exception]. *)
Inductive Future :=
| Pending
| Finished (r : result Path).

(** Where the coroutine [_worker] stands between two of its steps. *)
Inductive suspension :=
| LoopHead                      (* about to test [self._shutdown] *)
| InGet                         (* suspended in [queue.get()], queue empty *)
| InTransform (job : MediaJob). (* awaiting [process_photo]/[process_video] *)

(** An [asyncio.Task]: still running, or done (returned or cancelled). *)
Inductive Task :=
| Running (at_ : suspension)
| Done.

(** [MediaProcessor], with the state of its [asyncio.Queue] written out:
    the items, the producers suspended in [put] and the counter kept by
    [task_done].  [futures] is the store of the futures made by [_enqueue];
    a job names its own by index. *)
Record MediaProcessor := mkProcessor {
  maxsize : Z;
  queue : list MediaJob;
  putters : list MediaJob;
  unfinished_tasks : Z;
  _worker_task : option Task;
  _shutdown : bool;
  futures : list Future
}.

Definition set_queue (q : list MediaJob) (p : MediaProcessor) :=
  mkProcessor (maxsize p) q (putters p) (unfinished_tasks p)
              (_worker_task p) (_shutdown p) (futures p).
Definition set_putters (w : list MediaJob) (p : MediaProcessor) :=
  mkProcessor (maxsize p) (queue p) w (unfinished_tasks p)
              (_worker_task p) (_shutdown p) (futures p).
Definition set_unfinished (n : Z) (p : MediaProcessor) :=
  mkProcessor (maxsize p) (queue p) (putters p) n
              (_worker_task p) (_shutdown p) (futures p).
Definition set_worker (t : option Task) (p : MediaProcessor) :=
  mkProcessor (maxsize p) (queue p) (putters p) (unfinished_tasks p)
              t (_shutdown p) (futures p).
Definition set_shutdown (b : bool) (p : MediaProcessor) :=
  mkProcessor (maxsize p) (queue p) (putters p) (unfinished_tasks p)
              (_worker_task p) b (futures p).
Definition set_futures (fs : list Future) (p : MediaProcessor) :=
  mkProcessor (maxsize p) (queue p) (putters p) (unfinished_tasks p)
              (_worker_task p) (_shutdown p) fs.

(** [MediaProcessor.__init__]. *)
Definition init (queue_maxsize : Z) : MediaProcessor :=
  mkProcessor queue_maxsize [] [] 0 None false [].

(** *** [asyncio.Queue] *)

(** [Queue.full]: a [maxsize] of zero or less means no bound. *)
Definition full (p : MediaProcessor) : bool :=
  if (maxsize p <=? 0)%Z then false
  else (maxsize p <=? Z.of_nat (length (queue p)))%Z.

Definition put_nowait (job : MediaJob) (p : MediaProcessor) : MediaProcessor :=
  set_unfinished (unfinished_tasks p + 1) (set_queue (queue p ++ [job]) p).

Definition task_done (p : MediaProcessor) : MediaProcessor :=
  set_unfinished (unfinished_tasks p - 1) p.

(** *** [asyncio.Future] *)

Definition done (p : MediaProcessor) (fid : nat) : bool :=
  match futures p !! fid with
  | Some Pending => false
  | _ => true
  end.

(** What an observer sees the processor do. *)
Inductive action :=
| Enqueued (job : MediaJob)              (* [put] appended the job *)
| Dequeued (job : MediaJob)              (* the worker took the job *)
| Settled (fid : nat) (r : result Path). (* [set_result]/[set_exception] ran *)

(** The two guarded assignments of [_worker]:
    [if not job.future.done(): job.future.set_result(result)] and
    [if not job.future.done(): job.future.set_exception(exc)]. *)
Definition settle (job : MediaJob) (r : result Path) (p : MediaProcessor)
  : MediaProcessor * list action :=
  if done p (future job) then (p, [])
  else (set_futures (<[future job := Finished r]> (futures p)) p,
        [Settled (future job) r]).

(** *** [MediaProcessor.start] *)
Definition start (p : MediaProcessor) : MediaProcessor :=
  let p1 := if _shutdown p then set_shutdown false p else p in
  match _worker_task p1 with
  | None => set_worker (Some (Running LoopHead)) p1
  | Some _ => p1
  end.

(** *** [MediaProcessor.stop]

    The flag is set, the task is cancelled and awaited.  The cancellation
    reaches the worker at the [await] it is suspended in.  At
    [queue.get()] nothing encloses the [await]: the coroutine ends and the
    queue keeps its items.  Inside a transform the [await] is in the [try]:
    [except Exception] does not match a [CancelledError], so no future is
    touched, and [finally] calls [task_done].  Cancelling a task that is
    already done changes nothing. *)
Definition stop (p : MediaProcessor) : MediaProcessor :=
  let p1 := set_shutdown true p in
  match _worker_task p1 with
  | Some (Running (InTransform _)) => set_worker (Some Done) (task_done p1)
  | Some (Running _) => set_worker (Some Done) p1
  | Some Done => p1
  | None => p1
  end.

(** *** [MediaProcessor._enqueue]

    A fresh future and the job are made, then [await self.queue.put(job)]:
    into a full queue the caller is suspended among the putters, otherwise
    the job is appended at once.  The caller then waits on its future. *)
Definition _enqueue (k : string) (source destination_dir : Path)
           (p : MediaProcessor) : MediaProcessor * list action :=
  let job := mkJob k source destination_dir (length (futures p)) in
  let p1 := set_futures (futures p ++ [Pending]) p in
  if full p1 then (set_putters (putters p1 ++ [job]) p1, [])
  else (put_nowait job p1, [Enqueued job]).

Definition enqueue_photo := _enqueue "photo".
Definition enqueue_video := _enqueue "video".

(** A producer suspended in [put] runs again: it goes through only when
    the queue has room. *)
Definition putter_resume (i : nat) (p : MediaProcessor)
  : option (MediaProcessor * list action) :=
  match putters p !! i with
  | Some job =>
      if full p then None
      else Some (put_nowait job (set_putters (delete i (putters p)) p),
                 [Enqueued job])
  | None => None
  end.

(** *** [MediaProcessor._worker] *)

Definition known_kind (k : string) : bool :=
  String.eqb k "photo" || String.eqb k "video".

Definition unknown_job (k : string) : exn :=
  MediaProcessingError (UnknownJobType k).

(** The body of the loop from [queue.get()] returning [job] up to the
    first [await] of the transform.  A kind that is neither ["photo"] nor
    ["video"] raises inside the [try] with nothing awaited: the future is
    settled, [task_done] runs and the loop goes on. *)
Definition take (job : MediaJob) (p : MediaProcessor)
  : MediaProcessor * list action :=
  if known_kind (kind job)
  then (set_worker (Some (Running (InTransform job))) p, [Dequeued job])
  else let '(p1, acts) := settle job (Raise (unknown_job (kind job))) p in
       (set_worker (Some (Running LoopHead)) (task_done p1),
        Dequeued job :: acts).

(** The worker runs from the loop head, or wakes up in [queue.get()]. *)
Definition worker_step (p : MediaProcessor)
  : option (MediaProcessor * list action) :=
  match _worker_task p with
  | Some (Running LoopHead) =>
      if _shutdown p then Some (set_worker (Some Done) p, [])
      else match queue p with
           | [] => Some (set_worker (Some (Running InGet)) p, [])
           | job :: rest => Some (take job (set_queue rest p))
           end
  | Some (Running InGet) =>
      match queue p with
      | [] => None
      | job :: rest => Some (take job (set_queue rest p))
      end
  | _ => None
  end.

(** The awaited transform comes back with [out]: the future is settled
    under its guard, [finally] runs [task_done], and the loop goes round. *)
Definition worker_finish (out : result Path) (p : MediaProcessor)
  : option (MediaProcessor * list action) :=
  match _worker_task p with
  | Some (Running (InTransform job)) =>
      let '(p1, acts) := settle job out p in
      Some (set_worker (Some (Running LoopHead)) (task_done p1), acts)
  | _ => None
  end.

(** *** The processor as a transition system *)

Inductive event :=
| Start
| Stop
| Enqueue (k : string) (source destination_dir : Path)
| PutterResume (i : nat)
| WorkerStep
| WorkerFinish (out : result Path).

(** [None]: the event cannot happen in this state (the party is suspended
    or does not exist). *)
Definition step (p : MediaProcessor) (ev : event)
  : option (MediaProcessor * list action) :=
  match ev with
  | Start => Some (start p, [])
  | Stop => Some (stop p, [])
  | Enqueue k s d => Some (_enqueue k s d p)
  | PutterResume i => putter_resume i p
  | WorkerStep => worker_step p
  | WorkerFinish out => worker_finish out p
  end.

(** A run, with the actions it shows, oldest first. *)
Fixpoint run_from (p : MediaProcessor) (tr : list action) (evs : list event)
  : option (MediaProcessor * list action) :=
  match evs with
  | [] => Some (p, tr)
  | ev :: evs' =>
      match step p ev with
      | Some (p', acts) => run_from p' (tr ++ acts) evs'
      | None => None
      end
  end.

Definition run (p : MediaProcessor) (evs : list event) := run_from p [] evs.

(** The jobs a trace shows entering and leaving the queue, in order, and
    the futures it shows settled. *)
Definition enqueued (tr : list action) : list MediaJob :=
  omap (fun a => match a with Enqueued j => Some j | _ => None end) tr.
Definition dequeued (tr : list action) : list MediaJob :=
  omap (fun a => match a with Dequeued j => Some j | _ => None end) tr.
Definition settled (tr : list action) : list nat :=
  omap (fun a => match a with Settled fid _ => Some fid | _ => None end) tr.

(** The job the worker holds, if any. *)
Definition in_flight (p : MediaProcessor) : list MediaJob :=
  match _worker_task p with
  | Some (Running (InTransform job)) => [job]
  | _ => []
  end.

(** *** Notions the properties of the processor are stated with *)

(** The jobs whose future the processor still owes an answer: the one
    in flight, the queued ones, and those of the producers suspended in
    [put]. *)
Definition tracked (p : MediaProcessor) : list MediaJob :=
  in_flight p ++ queue p ++ putters p.

(** What holds of every state a run reaches, [tr] being the actions seen
    so far. *)
Record Inv (p : MediaProcessor) (tr : list action) : Prop := mkInv {
  inv_nodup : NoDup (future <$> tracked p);
  inv_pending : forall job, job ∈ tracked p -> futures p !! future job = Some Pending;
  inv_fifo : dequeued tr ++ queue p = enqueued tr;
  inv_once : NoDup (settled tr);
  inv_kept : forall fid r, Settled fid r ∈ tr -> futures p !! fid = Some (Finished r);
  inv_only : forall fid r, futures p !! fid = Some (Finished r) -> Settled fid r ∈ tr;
  inv_bound : (0 < maxsize p)%Z -> (Z.of_nat (length (queue p)) <= maxsize p)%Z;
  inv_live : forall s, _worker_task p = Some (Running s) -> _shutdown p = false
}.

Definition running (p : MediaProcessor) : Prop :=
  exists s, _worker_task p = Some (Running s).

(** The worker is running and holds no job. *)
Definition idle (p : MediaProcessor) : Prop :=
  _worker_task p = Some (Running LoopHead) \/ _worker_task p = Some (Running InGet).

(** The moves of the worker while it serves [jobs] one after the other,
    the transform of the i-th job coming back with the i-th of [outs]. *)
Fixpoint serve (jobs : list MediaJob) (outs : list (result Path)) : list event :=
  match jobs, outs with
  | job :: jobs', out :: outs' =>
      (if known_kind (kind job) then [WorkerStep; WorkerFinish out]
       else [WorkerStep]) ++ serve jobs' outs'
  | _, _ => []
  end.

(** The same from any state: the job in flight, if there is one, comes
    back first. *)
Definition resume (p : MediaProcessor) (outs : list (result Path)) : list event :=
  match in_flight p, outs with
  | _ :: _, out :: outs' => WorkerFinish out :: serve (queue p) outs'
  | _, _ => serve (queue p) outs
  end.

(** What the future of [job] is settled with when its transform comes
    back with [out]. *)
Definition verdict (job : MediaJob) (out : result Path) : result Path :=
  if known_kind (kind job) then out else Raise (unknown_job (kind job)).

(** The jobs of [jobs] stand in the order of their submission: [_enqueue]
    makes one future per call, so the index of a job's future is the number
    of submissions before its own. *)
Definition in_submission_order (jobs : list MediaJob) : Prop :=
  StronglySorted lt (future <$> jobs).

Definition is_putter_resume (ev : event) : bool :=
  match ev with PutterResume _ => true | _ => false end.

(** The shutdown rule of the design: stopping settles, with an error, the
    future of every job in flight or queued. *)
Definition stop_cancels_jobs (p : MediaProcessor) : Prop :=
  forall job, job ∈ in_flight p ++ queue p ->
    exists e, futures (stop p) !! future job = Some (Finished (Raise e)).

End Processor.

(** ** The probes and the transforms *)

Module Media.
Import Py.

(** *** The file system, as far as [Path.mkdir] goes *)

Inductive node := Dir | File.

Definition filesystem := gmap Path node.

(** What stands at a path; the root is a directory. *)
Definition stat (fs : filesystem) (p : Path) : option node :=
  match p with
  | [] => Some Dir
  | _ => fs !! p
  end.

Definition is_dir (fs : filesystem) (p : Path) : bool :=
  match stat fs p with
  | Some Dir => true
  | _ => false
  end.

(** [os.mkdir]. *)
Definition os_mkdir (p : Path) (fs : filesystem) : result filesystem :=
  match p with
  | [] => Raise FileExistsError
  | _ :: parent =>
      match stat fs p with
      | Some _ => Raise FileExistsError
      | None =>
          match stat fs parent with
          | None => Raise FileNotFoundError
          | Some File => Raise NotADirectoryError
          | Some Dir => Ok (<[p := Dir]> fs)
          end
      end
  end.

(** [Path.mkdir(parents=False, exist_ok=True)]: a missing parent is an
    error, a directory that is already there is not. *)
Definition mkdir_exist_ok (p : Path) (fs : filesystem) : result filesystem :=
  match os_mkdir p fs with
  | Ok fs' => Ok fs'
  | Raise FileNotFoundError => Raise FileNotFoundError
  | Raise e => if is_dir fs p then Ok fs else Raise e
  end.

(** [Path.mkdir(parents=True, exist_ok=True)]: on [FileNotFoundError] the
    parent is made first, in the same way, and the directory after it. *)
Fixpoint mkdir_parents (p : Path) (fs : filesystem) : result filesystem :=
  match os_mkdir p fs with
  | Ok fs' => Ok fs'
  | Raise FileNotFoundError =>
      match p with
      | [] => Raise FileNotFoundError
      | _ :: parent =>
          match mkdir_parents parent fs with
          | Ok fs1 => mkdir_exist_ok p fs1
          | Raise e => Raise e
          end
      end
  | Raise e => if is_dir fs p then Ok fs else Raise e
  end.

(** *** Commands *)

(** One entry of the filter chain given to [-vf]. *)
Inductive vfilter :=
| Rotate (degrees : float)   (* rotate={rotation}*PI/180:fillcolor=white@0 *)
| Crop                       (* crop=iw-2:ih-2 *)
| Noise (alls : float)       (* noise=alls={noise_level:.2f}:allf=t *)
| Setpts (factor : float)    (* setpts={1/speed_factor:.5f}*PTS *)
| Gamma (gamma : float).     (* eq=gamma={gamma_shift:.4f} *)

(** One argument of a command line, before it is rendered as text. *)
Inductive arg :=
| Lit (s : string)
| OfPath (p : Path)              (* str(path) *)
| OfInt (z : Z)                  (* str(target_bitrate) *)
| Filters (chain : list vfilter) (* ",".join(vf_filters) *)
| Atempo (factor : float).       (* atempo={speed_factor:.4f} *)

(** A process that ran to its end under [communicate()]. *)
Record Completed := mkCompleted {
  returncode : Z;
  stdout : bytes;
  stderr : bytes
}.

(** *** Effects *)

Inductive effect :=
| Mkdir (p : Path)
| Spawn (cmd : list arg).

Record World := mkWorld {
  fs : filesystem;
  log : list effect   (* oldest first *)
}.

(** A coroutine of the module: it reads and changes the world, and
    returns or raises. *)
Definition M (A : Type) := World -> result A * World.

Definition ret {A} (a : A) : M A := fun w => (Ok a, w).
Definition raise {A} (e : exn) : M A := fun w => (Raise e, w).
Definition bind {A B} (m : M A) (k : A -> M B) : M B :=
  fun w => match m w with
           | (Ok a, w') => k a w'
           | (Raise e, w') => (Raise e, w')
           end.
Definition lift {A} (r : result A) : M A := fun w => (r, w).

Notation "x <- m ;; k" := (bind m (fun x => k))
  (at level 100, m at next level, right associativity).

(** [path.mkdir(parents=True, exist_ok=True)]. *)
Definition mkdir (p : Path) : M unit :=
  fun w =>
    let w1 := mkWorld (fs w) (log w ++ [Mkdir p]) in
    match mkdir_parents p (fs w) with
    | Ok fs' => (Ok tt, mkWorld fs' (log w1))
    | Raise e => (Raise e, w1)
    end.

(** The random values one call of [process_photo] draws: the index picked
    by [random.choice], the value of [random()] behind [random.uniform],
    and the integer of [uuid.uuid4()]. *)
Record PhotoDraws := mkPhotoDraws {
  rotation_index : nat;
  noise_random : float;
  photo_uuid : N
}.

(** The same for [process_video]: three values of [random()], in the
    order of the three calls of [random.uniform], and the UUID. *)
Record VideoDraws := mkVideoDraws {
  bitrate_random : float;
  speed_random : float;
  gamma_random : float;
  video_uuid : N
}.

(** [max(int(bitrate * (1 + bitrate_delta)), 300_000)]: the [int] becomes
    a [float] for the product, the product is truncated. *)
Definition target_bitrate (bitrate : Z) (bitrate_delta : float) : result Z :=
  match float_of_int bitrate with
  | Ok x =>
      match int_of_float (x * (1 + bitrate_delta))%float with
      | Ok n => Ok (Z.max n 300000)
      | Raise e => Raise e
      end
  | Raise e => Raise e
  end.

Section Tools.

(** [asyncio.create_subprocess_exec] on [cmd] and [communicate()]:
    what the process started with [cmd] ends with, or the error of a
    process that could not be started. *)
Variable exec : list arg -> result Completed.

(** [int(text)] on a [str]; [None] stands for the [ValueError] raised on
    a text that is no integer literal. *)
Variable int_of_text : str -> option Z.

Definition spawn (cmd : list arg) : M Completed :=
  fun w => (exec cmd, mkWorld (fs w) (log w ++ [Spawn cmd])).

(** [_run_subprocess]; the diagnostic is
    [stderr.decode().strip() or stdout.decode().strip()]. *)
Definition _run_subprocess (cmd : list arg) : M unit :=
  process <- spawn cmd ;;
  if (returncode process =? 0)%Z then ret tt
  else
    err <- lift (decode (stderr process)) ;;
    match strip err with
    | [] =>
        out <- lift (decode (stdout process)) ;;
        raise (MediaProcessingError (ToolExited (returncode process) (strip out)))
    | diagnostic =>
        raise (MediaProcessingError (ToolExited (returncode process) diagnostic))
    end.

(** [_probe_bitrate]; [except ValueError] also catches the
    [UnicodeDecodeError] of [stdout.decode()]. *)
Definition _probe_bitrate (path : Path) : M Z :=
  process <- spawn [Lit "ffprobe"; Lit "-v"; Lit "error";
                    Lit "-select_streams"; Lit "v:0";
                    Lit "-show_entries"; Lit "stream=bit_rate";
                    Lit "-of"; Lit "default=noprint_wrappers=1:nokey=1";
                    OfPath path] ;;
  if (returncode process =? 0)%Z then
    match decode (stdout process) with
    | Ok text =>
        match int_of_text (strip text) with
        | Some n => ret n
        | None => ret 2000000%Z
        end
    | Raise e => if is_ValueError e then ret 2000000%Z else raise e
    end
  else ret 2000000%Z.

(** [_probe_has_audio]: [bool(stdout and stdout.decode().strip())]. *)
Definition _probe_has_audio (path : Path) : M bool :=
  process <- spawn [Lit "ffprobe"; Lit "-v"; Lit "error";
                    Lit "-select_streams"; Lit "a";
                    Lit "-show_entries"; Lit "stream=codec_type";
                    Lit "-of"; Lit "csv=p=0";
                    OfPath path] ;;
  match stdout process with
  | EmptyString => ret false
  | _ =>
      text <- lift (decode (stdout process)) ;;
      ret (match strip text with [] => false | _ => true end)
  end.

Definition rotations : list float := [-0.3; -0.2; 0.2; 0.3]%float.

(** [process_photo]. *)
Definition process_photo (d : PhotoDraws) (source_path destination_dir : Path)
  : M Path :=
  _ <- mkdir destination_dir ;;
  let suffix :=
    match lower (suffix source_path) with
    | EmptyString => ".jpg"
    | s => s
    end in
  let codec :=
    if String.eqb suffix ".png" then "png"
    else if String.eqb suffix ".jpeg" || String.eqb suffix ".jpg" then "mjpeg"
    else "mjpeg" in
  rotation <- lift (choice rotations (rotation_index d)) ;;
  let noise_level := uniform 1 2 (noise_random d) in
  let output_name := hex 32 (photo_uuid d) +:+ suffix in
  let output_path := joinpath destination_dir output_name in
  let vf_filters := [Rotate rotation; Crop; Noise noise_level] in
  let cmd := [Lit "ffmpeg"; Lit "-y"; Lit "-hide_banner";
              Lit "-loglevel"; Lit "error";
              Lit "-i"; OfPath source_path;
              Lit "-map_metadata"; Lit "-1";
              Lit "-vf"; Filters vf_filters;
              Lit "-c:v"; Lit codec;
              OfPath output_path] in
  _ <- _run_subprocess cmd ;;
  ret output_path.

(** [process_video]. *)
Definition process_video (d : VideoDraws) (source_path destination_dir : Path)
  : M Path :=
  _ <- mkdir destination_dir ;;
  let suffix :=
    match lower (suffix source_path) with
    | EmptyString => ".mp4"
    | s => s
    end in
  let suffix :=
    if String.eqb suffix ".mp4" || String.eqb suffix ".mov"
       || String.eqb suffix ".mkv"
    then suffix else ".mp4" in
  let output_name := hex 32 (video_uuid d) +:+ suffix in
  let output_path := joinpath destination_dir output_name in
  bitrate <- _probe_bitrate source_path ;;
  let bitrate_delta := uniform (-0.05) 0.05 (bitrate_random d) in
  target_bitrate <- lift (target_bitrate bitrate bitrate_delta) ;;
  let speed_delta := uniform (-0.02) 0.02 (speed_random d) in
  let speed_factor := fmax 0.98 (fmin 1.02 (1 + speed_delta)) in
  let gamma_shift := (1 + uniform (-0.01) 0.01 (gamma_random d))%float in
  has_audio <- _probe_has_audio source_path ;;
  let vf_filters := [Setpts (1 / speed_factor); Gamma gamma_shift] in
  let cmd := [Lit "ffmpeg"; Lit "-y"; Lit "-hide_banner";
              Lit "-loglevel"; Lit "error";
              Lit "-i"; OfPath source_path;
              Lit "-map_metadata"; Lit "-1";
              Lit "-vf"; Filters vf_filters;
              Lit "-c:v"; Lit "libx264";
              Lit "-preset"; Lit "medium";
              Lit "-b:v"; OfInt target_bitrate;
              Lit "-movflags"; Lit "+faststart"]
             ++ (if has_audio : bool
                 then [Lit "-c:a"; Lit "aac"; Lit "-b:a"; Lit "192k";
                       Lit "-af"; Atempo speed_factor]
                 else [Lit "-an"])
             ++ [OfPath output_path] in
  _ <- _run_subprocess cmd ;;
  ret output_path.

End Tools.

(** *** Notions the properties of the transforms are stated with *)

Definition is_spawn (e : effect) : Prop := exists cmd, e = Spawn cmd.

(** A coroutine that leaves the file system alone and only starts tools. *)
Definition tools_only {A} (m : M A) : Prop :=
  forall w, fs (snd (m w)) = fs w /\
    exists l, log (snd (m w)) = log w ++ l /\ Forall is_spawn l.

(** A tool that ends every command with the same [process]. *)
Definition ends_with (process : Completed) : list arg -> result Completed :=
  fun _ => Ok process.

Definition newline : string := String "010" EmptyString.

(** Decimal digits with an optional sign, the integer literals ffprobe
    prints: one instance of [int(text)] to run the model with. *)
Fixpoint digits_value (acc : Z) (s : str) : option Z :=
  match s with
  | [] => Some acc
  | c :: rest =>
      if (48 <=? c)%N && (c <=? 57)%N
      then digits_value (10 * acc + Z.of_N (c - 48)) rest
      else None
  end.

Definition int_decimal (s : str) : option Z :=
  match s with
  | [] => None
  | 45%N :: (_ :: _) as rest => Z.opp <$> digits_value 0 rest
  | 43%N :: (_ :: _) as rest => digits_value 0 rest
  | 45%N :: [] | 43%N :: [] => None
  | _ => digits_value 0 s
  end.

(** The command [process_photo] builds once [rotation] is drawn. *)
Definition photo_command (d : PhotoDraws) (source_path destination_dir : Path)
           (rotation : float) : list arg :=
  let suffix :=
    match lower (suffix source_path) with
    | EmptyString => ".jpg"
    | s => s
    end in
  [Lit "ffmpeg"; Lit "-y"; Lit "-hide_banner"; Lit "-loglevel"; Lit "error";
   Lit "-i"; OfPath source_path; Lit "-map_metadata"; Lit "-1"; Lit "-vf";
   Filters [Rotate rotation; Crop; Noise (uniform 1 2 (noise_random d))];
   Lit "-c:v";
   Lit (if String.eqb suffix ".png" then "png"
        else if String.eqb suffix ".jpeg" || String.eqb suffix ".jpg" then "mjpeg"
        else "mjpeg");
   OfPath (joinpath destination_dir (hex 32 (photo_uuid d) +:+ suffix))].

(** Every entry of the file system stands in a directory. *)
Definition wf_fs (fs : filesystem) : Prop :=
  forall name parent, stat fs (name :: parent) <> None -> is_dir fs parent = true.

(** A name without ["/"]: one component of a path. *)
Fixpoint slashless (s : string) : bool :=
  match s with
  | EmptyString => true
  | String a rest => negb (Ascii.eqb a "/") && slashless rest
  end.

(** What is asked of a transform, run from any file system with an empty
    log: [mkdir] comes first and only tools follow; when [mkdir] goes
    through the destination is a directory from then on, and when it raises
    nothing else happens; the file returned is a child of the destination. *)
Definition makes_destination (transform : Path -> Path -> M Path) : Prop :=
  forall src dst fs0,
    let r := transform src dst (mkWorld fs0 []) in
    (exists tools, log (snd r) = Mkdir dst :: tools /\ Forall is_spawn tools) /\
    match mkdir_parents dst fs0 with
    | Ok fs1 => fs (snd r) = fs1 /\ is_dir fs1 dst = true
    | Raise e => r = (Raise e, mkWorld fs0 [Mkdir dst])
    end /\
    (forall out, fst r = Ok out ->
       slashless (default EmptyString (head src)) = true ->
       exists name, out = name :: dst /\ slashless name = true).

End Media.

Import Py Processor Media.

(** ** Sample runs *)

Definition photo_in : Path := ["input_41.jpg"; "tmp"; "data"].
Definition video_in : Path := ["input_42.mp4"; "tmp"; "data"].
Definition processed : Path := ["processed"; "tmp"; "data"].

(** The worker holds one photo, a video waits in the queue. *)
Definition busy : list event :=
  [Start; Enqueue "photo" photo_in processed; WorkerStep;
   Enqueue "video" video_in processed].

(** The worker holds one photo, three jobs fill the queue, a fifth caller is
    suspended in [put]. *)
Definition crowded : list event :=
  busy ++ [Enqueue "photo" photo_in processed; Enqueue "video" video_in processed;
           Enqueue "photo" photo_in processed].

(** Three jobs fill the queue behind the one in flight and a fifth caller
    is suspended in [put]; the worker takes a job, a sixth caller finds room
    and goes through, and only then the suspended caller runs again. *)
Definition overtaking : list event :=
  crowded ++ [WorkerFinish (Ok processed); WorkerStep;
              Enqueue "video" video_in processed;
              WorkerFinish (Ok processed); WorkerStep; PutterResume 0;
              WorkerFinish (Ok processed); WorkerStep;
              WorkerFinish (Ok processed); WorkerStep].

(** ** More notions about the processor and the transforms *)

(** [Queue._unfinished_tasks] counts the jobs put and not yet marked done:
    those in the queue and the one the worker holds. *)
Definition counted (p : MediaProcessor) : Prop :=
  unfinished_tasks p = Z.of_nat (length (in_flight p) + length (queue p)).

Definition is_start (ev : event) : bool :=
  match ev with Start => true | _ => false end.
Definition is_stop (ev : event) : bool :=
  match ev with Stop => true | _ => false end.

(** Every pending future belongs to a job the processor still holds. *)
Definition no_orphan (p : MediaProcessor) : Prop :=
  forall fid, futures p !! fid = Some Pending ->
    exists job, job ∈ tracked p /\ future job = fid.

(** A name without ["."]. *)
Fixpoint dotless (s : string) : bool :=
  match s with
  | EmptyString => true
  | String a rest => negb (Ascii.eqb a ".") && dotless rest
  end.

(** What [PurePath.suffix] returns when it is not empty: a dot and a part
    without dots after it. *)
Definition is_suffix (s : string) : Prop :=
  exists t, s = String "." t /\ t <> EmptyString /\ dotless t = true.

(** The command of [_probe_bitrate] and that of [_probe_has_audio]. *)
Definition bitrate_probe (path : Path) : list arg :=
  [Lit "ffprobe"; Lit "-v"; Lit "error"; Lit "-select_streams"; Lit "v:0";
   Lit "-show_entries"; Lit "stream=bit_rate";
   Lit "-of"; Lit "default=noprint_wrappers=1:nokey=1"; OfPath path].
Definition audio_probe (path : Path) : list arg :=
  [Lit "ffprobe"; Lit "-v"; Lit "error"; Lit "-select_streams"; Lit "a";
   Lit "-show_entries"; Lit "stream=codec_type";
   Lit "-of"; Lit "csv=p=0"; OfPath path].

(** The suffix [process_photo] gives its output, and the one
    [process_video] gives its own. *)
Definition photo_suffix (source_path : Path) : string :=
  match lower (suffix source_path) with
  | EmptyString => ".jpg"
  | s => s
  end.
Definition video_suffix (source_path : Path) : string :=
  let s := match lower (suffix source_path) with
           | EmptyString => ".mp4"
           | s => s
           end in
  if String.eqb s ".mp4" || String.eqb s ".mov" || String.eqb s ".mkv"
  then s else ".mp4".

(** [max(0.98, min(1.02, 1 + speed_delta))]. *)
Definition speed_factor (d : VideoDraws) : float :=
  fmax 0.98 (fmin 1.02 (1 + uniform (-0.02) 0.02 (speed_random d))).

(** The command [process_video] builds once the bitrate is fixed and the
    audio probe has answered. *)
Definition video_command (d : VideoDraws) (source_path destination_dir : Path)
           (target_bitrate : Z) (has_audio : bool) : list arg :=
  [Lit "ffmpeg"; Lit "-y"; Lit "-hide_banner"; Lit "-loglevel"; Lit "error";
   Lit "-i"; OfPath source_path; Lit "-map_metadata"; Lit "-1"; Lit "-vf";
   Filters [Setpts (1 / speed_factor d);
            Gamma (1 + uniform (-0.01) 0.01 (gamma_random d))];
   Lit "-c:v"; Lit "libx264"; Lit "-preset"; Lit "medium";
   Lit "-b:v"; OfInt target_bitrate; Lit "-movflags"; Lit "+faststart"]
  ++ (if has_audio
      then [Lit "-c:a"; Lit "aac"; Lit "-b:a"; Lit "192k";
            Lit "-af"; Atempo (speed_factor d)]
      else [Lit "-an"])
  ++ [OfPath (joinpath destination_dir
                (hex 32 (video_uuid d) +:+ video_suffix source_path))].

(** The tool ran [cmd] to its end and exited with 0. *)
Definition succeeded (exec : list arg -> result Completed) (cmd : list arg) : Prop :=
  exists process, exec cmd = Ok process /\ returncode process = 0%Z.

(** A world to read off what a coroutine returns when that does not depend
    on the world. *)
Definition nowhere : World := mkWorld ∅ [].

(** Tools that all exit with 0: ffprobe prints a bitrate for the video
    stream and a line for the audio stream, ffmpeg prints nothing. *)
Definition tools_ok (cmd : list arg) : result Completed :=
  match cmd !! 0, cmd !! 4 with
  | Some (Lit "ffprobe"), Some (Lit "v:0") =>
      Ok (mkCompleted 0 ("1500000" +:+ newline) EmptyString)
  | Some (Lit "ffprobe"), _ => Ok (mkCompleted 0 ("audio" +:+ newline) EmptyString)
  | _, _ => Ok (mkCompleted 0 EmptyString EmptyString)
  end.



(** White space all through. *)
Definition blank (s : str) : Prop := Forall (fun c => isspace c = true) s.

(** [t] is [s] without the white space at its two ends. *)
Definition trimmed_of (t s : str) : Prop :=
  (exists pre post, s = pre ++ t ++ post /\ blank pre /\ blank post) /\
  (forall c, head t = Some c -> isspace c = false) /\
  (forall c, last t = Some c -> isspace c = false).

(** ** [handlers/files.py] *)
Module Files.

(** *** [_cleanup_paths] *)

#[global] Instance node_eq_dec : EqDecision node.
Proof. solve_decision. Defined.

(** [Path.unlink(missing_ok=True)]: a file goes, a path that is not there
    is left alone, and a directory cannot be unlinked; [None] stands for the
    [OSError] raised then. *)
Definition unlink (p : Path) (fs : filesystem) : option filesystem :=
  match stat fs p with
  | Some File => Some (delete p fs)
  | Some Dir => None
  | None => Some fs
  end.

(** [Path.exists()]. *)
Definition exists_ (fs : filesystem) (p : Path) : bool :=
  match stat fs p with
  | Some _ => true
  | None => false
  end.

(** One round of the loop of [_cleanup_paths]:
    [if path and path.exists(): try: path.unlink(missing_ok=True)
     except OSError: pass]. *)
Definition cleanup_path (fs : filesystem) (path : option Path) : filesystem :=
  match path with
  | Some p =>
      if exists_ fs p
      then match unlink p fs with
           | Some fs' => fs'
           | None => fs
           end
      else fs
  | None => fs
  end.

Definition _cleanup_paths (paths : list (option Path)) (fs : filesystem)
  : filesystem :=
  foldl cleanup_path fs paths.

(** *** The handlers *)

(** The texts a handler answers with. *)
Inductive reply :=
| TooLarge                           (* the video is over 50 MB *)
| NoCredits                          (* no free processing is left *)
| ProcessingFailed (why : failure).  (* f"Ошибка обработки: {exc}" *)

(** What a handler is seen to do, call by call. *)
Inductive did :=
| Answer (text : reply)                       (* message.answer *)
| CheckSub (user_id : Z)                      (* models.check_sub *)
| ClearState                                  (* state.clear *)
| Download (file_id : string) (destination : Path)
| EnqueueVideo (source destination : Path)    (* processor.enqueue_video *)
| EnqueuePhoto (source destination : Path)    (* processor.enqueue_photo *)
| ConsumeCredit (user_id : Z)                 (* models.consume_credit *)
| AnswerDocument (document : Path)
| AnswerPhoto (photo : Path)
| CleanupPaths (paths : list (option Path)).  (* _cleanup_paths *)

(** What a handler can raise: the exception its job's future was settled
    with, or an error of Telegram or of the database, known by its name. *)
Inductive error :=
| JobError (e : exn)
| LibraryError (name : string).

Inductive outcome (A : Type) :=
| Returned (a : A)
| Raised (e : error).
Arguments Returned {A} a.
Arguments Raised {A} e.

(** [SubscriptionStatus], as far as the handler reads it. *)
Record SubscriptionStatus := mkStatus {
  plan_type : option string;
  is_active : bool
}.

(** What the calls a handler awaits come back with.  For a call into
    Telegram or the database [None] is a call that returned and [Some name]
    one that raised; [enqueue_result] is what [enqueue_video] or [enqueue_photo]
    returns or raises, the outcome of the job. *)
Record Awaited := mkAwaited {
  answered : reply -> option string;
  subscription : string + SubscriptionStatus;
  state_cleared : option string;
  downloaded : option string;
  enqueue_result : result Path;
  credit_consumed : option string;
  sent : option string
}.

(** One awaited call, and what follows when it returns. *)
Definition await {A} (call : did) (back : option string)
           (next : list did * outcome A) : list did * outcome A :=
  match back with
  | None => (call :: fst next, snd next)
  | Some name => ([call], Raised (LibraryError name))
  end.

(** [is_video and size and size > 50 * 1024 * 1024]; a missing size is
    [None]. *)
Definition over_limit (is_video : bool) (size : option Z) : bool :=
  is_video &&
  match size with
  | Some n => negb (n =? 0)%Z && (50 * 1024 * 1024 <? n)%Z
  | None => false
  end.

(** [not user_status.plan_type or user_status.plan_type == "trial"]. *)
Definition on_credits (user_status : SubscriptionStatus) : bool :=
  match plan_type user_status with
  | None => true
  | Some plan => String.eqb plan EmptyString || String.eqb plan "trial"
  end.

Section Handlers.

(** [settings.temp_dir]. *)
Variable temp_dir : Path.

Definition PROCESSED_DIR : Path := joinpath temp_dir "processed".

(** [settings.temp_dir / f"input_{uuid.uuid4().hex}{extension}"]. *)
Definition input_path (uuid : N) (extension : string) : Path :=
  joinpath temp_dir ("input_" +:+ hex 32 uuid +:+ extension).

Definition enqueue_call (is_video : bool) (source : Path) : did :=
  if is_video then EnqueueVideo source PROCESSED_DIR
  else EnqueuePhoto source PROCESSED_DIR.
Definition answer_call (is_video : bool) (output : Path) : did :=
  if is_video then AnswerDocument output else AnswerPhoto output.

(** The body of the [try] of [_process_file]: what was done, how it ended,
    and [output_path] as the [finally] finds it. *)
Definition process_body (w : Awaited) (user_id : Z) (file_id : string)
           (is_video : bool) (user_status : SubscriptionStatus) (input_path : Path)
  : list did * outcome unit * option Path :=
  match downloaded w with
  | Some name =>
      ([Download file_id input_path], Raised (LibraryError name), None)
  | None =>
      match enqueue_result w with
      | Raise e =>
          ([Download file_id input_path; enqueue_call is_video input_path],
           Raised (JobError e), None)
      | Ok output_path =>
          let send := await (answer_call is_video output_path) (sent w)
                            ([], Returned tt) in
          let rest :=
            if on_credits user_status
            then await (ConsumeCredit user_id) (credit_consumed w) send
            else send in
          (Download file_id input_path :: enqueue_call is_video input_path
             :: fst rest, snd rest, Some output_path)
      end
  end.

(** [_process_file]; [uuid] is the integer of [uuid.uuid4()].  After the
    [try], [except MediaProcessingError] answers with the text of the
    error, and [finally] removes the input and the output. *)
Definition _process_file (w : Awaited) (user_id : Z) (file_id : string)
           (extension : string) (is_video : bool) (size : option Z) (uuid : N)
  : list did * outcome unit :=
  if over_limit is_video size
  then await (Answer TooLarge) (answered w TooLarge) ([], Returned tt)
  else
    match subscription w with
    | inl name => ([CheckSub user_id], Raised (LibraryError name))
    | inr user_status =>
        if negb (is_active user_status)
        then
          let told := await (Answer NoCredits) (answered w NoCredits)
                            (await ClearState (state_cleared w) ([], Returned tt)) in
          (CheckSub user_id :: fst told, snd told)
        else
          let input_path := input_path uuid extension in
          let '(done, ended, output_path) :=
            process_body w user_id file_id is_video user_status input_path in
          let '(done, ended) :=
            match ended with
            | Raised (JobError (MediaProcessingError why)) =>
                let handled := await (Answer (ProcessingFailed why))
                                     (answered w (ProcessingFailed why))
                                     ([], Returned tt) in
                (done ++ fst handled, snd handled)
            | _ => (done, ended)
            end in
          (CheckSub user_id :: done ++ [CleanupPaths [Some input_path; output_path]],
           ended)
    end.

(** The calls that fetch, process, charge for or remove a file. *)
Definition works_on_file (call : did) : bool :=
  match call with
  | Answer _ | CheckSub _ | ClearState => false
  | _ => true
  end.

(** [Path(text)]: the components of [text]. *)
Definition path_of (text : string) : Path := joinpath [] text.

(** The extension and the kind [handle_document] works out:
    [Path(document.file_name or "").suffix.lower()],
    [document.mime_type.startswith("video/") if document.mime_type else False],
    [extension or (".mp4" if is_video else ".jpg")]. *)
Definition document_kind (file_name mime_type : option string) : string * bool :=
  let extension := lower (suffix (path_of (default EmptyString file_name))) in
  let is_video :=
    match mime_type with
    | Some (String _ _ as mime) => String.prefix "video/" mime
    | _ => false
    end in
  (match extension with
   | EmptyString => if is_video then ".mp4" else ".jpg"
   | _ => extension
   end, is_video).

(** [handle_photo], on the largest size [message.photo[-1]];
    [handle_document] and [handle_video]. *)
Definition handle_photo (w : Awaited) (user_id : Z) (file_id : string)
           (file_size : option Z) (uuid : N) : list did * outcome unit :=
  _process_file w user_id file_id ".jpg" false file_size uuid.

Definition handle_document (w : Awaited) (user_id : Z) (file_id : string)
           (file_name mime_type : option string) (file_size : option Z) (uuid : N)
  : list did * outcome unit :=
  let '(extension, is_video) := document_kind file_name mime_type in
  _process_file w user_id file_id extension is_video file_size uuid.

Definition handle_video (w : Awaited) (user_id : Z) (file_id : string)
           (file_size : option Z) (uuid : N) : list did * outcome unit :=
  _process_file w user_id file_id ".mp4" true file_size uuid.

End Handlers.

(** The upload has passed the two gates of [_process_file]. *)
Definition admitted (w : Awaited) (is_video : bool) (size : option Z)
           (user_status : SubscriptionStatus) : Prop :=
  over_limit is_video size = false /\
  subscription w = inr user_status /\ is_active user_status = true.

(** The extensions the three handlers call [_process_file] with; that of
    [handle_document] for a file name of ASCII characters. *)
Definition handler_extension (extension : string) (is_video : bool) : Prop :=
  (extension = ".jpg" /\ is_video = false) \/
  (extension = ".mp4" /\ is_video = true) \/
  exists file_name mime_type,
    plain (default EmptyString file_name) = true /\
    document_kind file_name mime_type = (extension, is_video).

End Files.

(** ** [config.py] *)
Module Config.

(** [Settings]. *)
Record Settings := mkSettings {
  bot_token : str;
  cryptomus_merchant : str;
  cryptomus_api_key : str;
  cryptomus_callback_secret : str;
  payment_webhook_host : str;
  payment_webhook_port : Z;
  base_url : str;
  banner_url : str;
  log_level : str;
  sqlite_path : Path;
  queue_maxsize : Z;
  temp_dir : Path
}.

(** [os.environ]. *)
Definition environ := gmap string str.

(** [os.getenv(key, default)]. *)
Definition getenv (env : environ) (key : string) (fallback : str) : str :=
  default fallback (env !! key).

(** The text of an ASCII literal. *)
Definition literal (s : string) : str := octets s.

(** [Path.parent]; the root is its own parent. *)
Definition parent (p : Path) : Path := tail p.

Section Load.

(** [int(text)] on a [str]; [None] stands for the [ValueError] raised on
    a text that is no integer literal. *)
Variable int_of_text : str -> option Z.

(** [Path(text).resolve()]: the absolute path, which depends on the
    working directory and on the links of the file system. *)
Variable resolve : str -> Path.

Definition int (text : str) : M Z :=
  match int_of_text text with
  | Some n => ret n
  | None => raise ValueError
  end.

(** [_ensure_directory]. *)
Definition _ensure_directory (path : Path) : M Path :=
  _ <- mkdir path ;; ret path.

(** [load_settings]: the two directories are made first; the arguments of
    [Settings(...)] are evaluated in the order they are written, so the
    port is read before the size of the queue. *)
Definition load_settings (env : environ) : M Settings :=
  let sqlite_path :=
    resolve (getenv env "SQLITE_PATH" (literal "./data/helvetia_meta.db")) in
  _ <- _ensure_directory (parent sqlite_path) ;;
  let temp_dir := resolve (getenv env "TEMP_DIR" (literal "./data/tmp")) in
  _ <- mkdir temp_dir ;;
  port <- int (getenv env "PAYMENT_WEBHOOK_PORT" (literal "8080")) ;;
  maxsize <- int (getenv env "QUEUE_MAXSIZE" (literal "3")) ;;
  ret (mkSettings
         (strip (getenv env "BOT_TOKEN" []))
         (strip (getenv env "CRYPTOMUS_MERCHANT" []))
         (strip (getenv env "CRYPTOMUS_API_KEY" []))
         (strip (getenv env "CRYPTOMUS_CALLBACK_SECRET" []))
         (getenv env "PAYMENT_WEBHOOK_HOST" (literal "0.0.0.0"))
         port
         (strip (getenv env "BASE_URL" []))
         (strip (getenv env "BANNER_URL" []))
         (getenv env "LOG_LEVEL" (literal "INFO"))
         sqlite_path
         maxsize
         temp_dir).

End Load.

(** A working directory for the examples: [./data/tmp] resolves under
    [/srv], anything else to the database file there. *)
Definition resolve_in_srv (text : str) : Path :=
  if decide (text = literal "./data/tmp") then ["tmp"; "data"; "srv"]
  else ["helvetia_meta.db"; "data"; "srv"].

(** An environment whose [QUEUE_MAXSIZE] is no number. *)
Definition env_bad : environ := {[ "QUEUE_MAXSIZE" := literal "three" ]}.

End Config.

(** ** The public interface of the processor *)

(** The events of the public interface: [enqueue_photo] and
    [enqueue_video] are the only callers of [_enqueue]. *)
Definition public (ev : event) : bool :=
  match ev with
  | Enqueue k _ _ => String.eqb k "photo" || String.eqb k "video"
  | _ => true
  end.

Definition all_known (jobs : list MediaJob) : Prop :=
  Forall (fun job => known_kind (kind job) = true) jobs.

(** ** Order ids ([handlers/menu.py], [main.py]) *)

Module Payments.

Definition dash : N := 45.

(** [str(n)] for an [int]: the decimal numerals, after a dash below zero. *)
Fixpoint numerals (d : Decimal.uint) : str :=
  match d with
  | Decimal.Nil => []
  | Decimal.D0 r => 48%N :: numerals r
  | Decimal.D1 r => 49%N :: numerals r
  | Decimal.D2 r => 50%N :: numerals r
  | Decimal.D3 r => 51%N :: numerals r
  | Decimal.D4 r => 52%N :: numerals r
  | Decimal.D5 r => 53%N :: numerals r
  | Decimal.D6 r => 54%N :: numerals r
  | Decimal.D7 r => 55%N :: numerals r
  | Decimal.D8 r => 56%N :: numerals r
  | Decimal.D9 r => 57%N :: numerals r
  end.

Definition str_of_int (n : Z) : str :=
  match Z.to_int n with
  | Decimal.Pos d => numerals d
  | Decimal.Neg d => dash :: numerals d
  end.

(** [s.split(sep)] for a separator of one character: never empty, one
    more segment than there are separators. *)
Fixpoint split (sep : N) (s : str) : list str :=
  match s with
  | [] => [[]]
  | c :: rest =>
      if (c =? sep)%N then [] :: split sep rest
      else match split sep rest with
           | segment :: segments => (c :: segment) :: segments
           | [] => [[c]]
           end
  end.

(** [menu._initiate_invoice], the order id:
    [f"{plan}-{callback.from_user.id}-{int(datetime.now().timestamp())}"]. *)
Definition order_id (plan : string) (user_id timestamp : Z) : str :=
  Config.literal plan ++ dash :: str_of_int user_id ++ dash :: str_of_int timestamp.

(** The plans [buy_pro_month] and [buy_pro_lifetime] pass to
    [_initiate_invoice]. *)
Definition plans : list string := ["pro_month"; "pro_lifetime"].

Section Webhook.

(** [int(text)], as in [Config]. *)
Variable int_of_text : str -> option Z.

(** [main.handle_payment_webhook] from [segments = order_id.split("-")] to
    [user_id = int(segments[1])], on an [order_id] that is a [str]:
    [Ok None] is the answer "ignored", [Ok (Some (plan, user_id))] goes on
    to [models.add_payment]. *)
Definition webhook_order (order_id : str) : result (option (str * Z)) :=
  let segments := split dash order_id in
  if (length segments <? 3)%nat then Ok None
  else
    match segments !! 0%nat, segments !! 1%nat with
    | Some plan, Some text =>
        match int_of_text text with
        | Some user_id => Ok (Some (plan, user_id))
        | None => Raise ValueError
        end
    | _, _ => Raise IndexError
    end.

End Webhook.


End Payments.

(** * Properties *)

Section Runs.
Implicit Types (p : MediaProcessor) (tr acts : list action) (evs : list event).

Lemma run_from_trace p tr evs :
  run_from p tr evs =
  match run p evs with Some (p', tr') => Some (p', tr ++ tr') | None => None end.
Proof.
  unfold run. revert p tr. induction evs as [|ev evs IH]; intros p tr; simpl.
  - by rewrite app_nil_r.
  - destruct (step p ev) as [[p' acts]|]; [|done].
    rewrite (IH p' (tr ++ acts)), (IH p' acts).
    destruct (run_from p' [] evs) as [[p'' tr'']|]; [|done].
    by rewrite app_assoc.
Qed.

Lemma run_app p evs1 evs2 :
  run p (evs1 ++ evs2) =
  match run p evs1 with
  | Some (p', tr') => run_from p' tr' evs2
  | None => None
  end.
Proof.
  unfold run. generalize (@nil action) as tr. revert p.
  induction evs1 as [|ev evs1 IH]; intros p tr; simpl; [done|].
  destruct (step p ev) as [[p' acts]|]; [|done]. apply IH.
Qed.

Lemma run_snoc p evs ev p' tr' :
  run p (evs ++ [ev]) = Some (p', tr') ->
  exists p0 tr0 acts,
    run p evs = Some (p0, tr0) /\ step p0 ev = Some (p', acts) /\ tr' = tr0 ++ acts.
Proof.
  rewrite run_app. destruct (run p evs) as [[p0 tr0]|]; [|done].
  simpl. destruct (step p0 ev) as [[p1 acts]|] eqn:Hs; [|done].
  intros [= <- <-]. by exists p0, tr0, acts.
Qed.
End Runs.

Section Invariant.
Implicit Types (p : MediaProcessor) (tr acts : list action) (job : MediaJob).

Lemma enqueued_app tr acts : enqueued (tr ++ acts) = enqueued tr ++ enqueued acts.
Proof. apply omap_app. Qed.
Lemma dequeued_app tr acts : dequeued (tr ++ acts) = dequeued tr ++ dequeued acts.
Proof. apply omap_app. Qed.
Lemma settled_app tr acts : settled (tr ++ acts) = settled tr ++ settled acts.
Proof. apply omap_app. Qed.

Lemma elem_of_settled fid tr : fid ∈ settled tr <-> exists r, Settled fid r ∈ tr.
Proof.
  unfold settled. rewrite list_elem_of_omap. split.
  - intros ([| |f r] & Hin & Heq); try done. injection Heq as ->. eauto.
  - intros [r Hin]. by exists (Settled fid r).
Qed.

Lemma settle_pending job r p :
  futures p !! future job = Some Pending ->
  settle job r p =
  (set_futures (<[future job := Finished r]> (futures p)) p, [Settled (future job) r]).
Proof. intros H. unfold settle, done. by rewrite H. Qed.

Lemma inv_init cap : Inv (init cap) [].
Proof.
  split; simpl; try done.
  - constructor.
  - intros job H. by apply elem_of_nil in H.
  - constructor.
  - intros fid r H. by apply elem_of_nil in H.
  - lia.
Qed.
End Invariant.

Section Preservation.
Implicit Types (p : MediaProcessor) (tr acts : list action) (job : MediaJob).

Lemma NoDup_submseteq_mono {A} (l1 l2 : list A) : l1 ⊆+ l2 -> NoDup l2 -> NoDup l1.
Proof.
  intros [k Hk]%submseteq_Permutation Hnd. rewrite Hk in Hnd.
  by apply NoDup_app in Hnd as [? _].
Qed.

Lemma inv_tracked_lt p tr job :
  Inv p tr -> job ∈ tracked p -> future job < length (futures p).
Proof. intros HI Hin. eapply lookup_lt_Some, inv_pending; eauto. Qed.

Lemma full_false_bound p :
  full p = false -> (0 < maxsize p)%Z ->
  (Z.of_nat (length (queue p)) + 1 <= maxsize p)%Z.
Proof.
  unfold full.
  destruct (Z.leb_spec (maxsize p) 0); [lia|].
  destruct (Z.leb_spec (maxsize p) (Z.of_nat (length (queue p)))); [done|lia].
Qed.

(** A step that settles nothing: jobs are kept or dropped, and move
    between the parties. *)
Lemma inv_frame p p' tr acts :
  Inv p tr ->
  futures p' = futures p -> maxsize p' = maxsize p ->
  tracked p' ⊆+ tracked p ->
  settled acts = [] ->
  dequeued acts ++ queue p' = queue p ++ enqueued acts ->
  (length (queue p') <= length (queue p) \/
   full p = false /\ length (queue p') = S (length (queue p))) ->
  (forall s, _worker_task p' = Some (Running s) -> _shutdown p' = false) ->
  Inv p' (tr ++ acts).
Proof.
  intros [H1 H2 H3 H4 H5 H7 H6 H8] Hf Hm Hsub Hset Hq Hlen Hlive. split.
  - eapply NoDup_submseteq_mono; [|apply H1]. by apply fmap_submseteq.
  - intros job Hin. rewrite Hf. apply H2. eapply elem_of_submseteq; eauto.
  - by rewrite dequeued_app, enqueued_app, <-app_assoc, Hq, app_assoc, H3.
  - by rewrite settled_app, Hset, app_nil_r.
  - intros fid r Hin. rewrite Hf. apply H5.
    apply elem_of_app in Hin as [?|Hin]; [done|].
    assert (fid ∈ settled acts) as Hin' by (apply elem_of_settled; eauto).
    rewrite Hset in Hin'. by apply elem_of_nil in Hin'.
  - intros fid r. rewrite Hf. intros Hl. apply elem_of_app. left. by apply H7.
  - rewrite Hm. intros Hpos. destruct Hlen as [Hle|[Hfull Hle]].
    + specialize (H6 Hpos). lia.
    + pose proof (full_false_bound p Hfull Hpos) as Hb. lia.
  - done.
Qed.

Ltac fields p := destruct p as [m q w u [[[| |job]|]|] [] fs].

Lemma inv_start p tr : Inv p tr -> Inv (start p) tr.
Proof.
  intros HI. rewrite <-(app_nil_r tr).
  pose proof (inv_live _ _ HI) as Hl.
  apply (inv_frame p); auto; try (by fields p).
  all: try (by rewrite app_nil_r; fields p).
  all: try (left; by fields p).
  all: try (fields p; simpl in *; by eauto).
Qed.

Lemma inv_stop p tr : Inv p tr -> Inv (stop p) tr.
Proof.
  intros HI. rewrite <-(app_nil_r tr).
  apply (inv_frame p); auto; try (by fields p).
  all: try (by rewrite app_nil_r; fields p).
  all: try (left; by fields p).
  all: try (fields p; try done; unfold tracked; simpl; by apply submseteq_cons).
Qed.

(** A job enters the tracked jobs with a fresh pending future. *)
Lemma inv_grow p p' tr acts job :
  Inv p tr ->
  future job = length (futures p) ->
  futures p' = futures p ++ [Pending] ->
  maxsize p' = maxsize p ->
  tracked p' ≡ₚ job :: tracked p ->
  _worker_task p' = _worker_task p -> _shutdown p' = _shutdown p ->
  (queue p' = queue p /\ acts = [] \/
   queue p' = queue p ++ [job] /\ acts = [Enqueued job] /\ full p = false) ->
  Inv p' (tr ++ acts).
Proof.
  intros HI Hfid Hf Hm Hperm Hw Hsd Hq.
  pose proof HI as [H1 H2 H3 H4 H5 H7 H6 H8]. split.
  - rewrite Hperm, fmap_cons. apply NoDup_cons. split; [|done].
    intros (job' & Heq & Hin)%list_elem_of_fmap.
    apply (inv_tracked_lt _ _ _ HI) in Hin. lia.
  - intros job' Hin. rewrite Hperm in Hin. rewrite Hf.
    apply elem_of_cons in Hin as [->|Hin].
    + rewrite Hfid. by rewrite lookup_app_r, Nat.sub_diag.
    + rewrite lookup_app_l; [by apply H2|]. by eapply inv_tracked_lt.
  - rewrite dequeued_app, enqueued_app.
    destruct Hq as [[-> ->]|(-> & -> & _)]; simpl.
    + by rewrite !app_nil_r.
    + by rewrite app_nil_r, app_assoc, H3.
  - rewrite settled_app.
    destruct Hq as [[_ ->]|(_ & -> & _)]; simpl; by rewrite app_nil_r.
  - intros fid r Hin. rewrite Hf.
    assert (Settled fid r ∈ tr) as Hin'.
    { apply elem_of_app in Hin as [?|Hin]; [done|].
      destruct Hq as [[_ ->]|(_ & -> & _)].
      - by apply elem_of_nil in Hin.
      - by apply list_elem_of_singleton in Hin. }
    rewrite lookup_app_l; [by apply H5|]. eapply lookup_lt_Some. by apply H5.
  - intros fid r. rewrite Hf. intros Hl. apply elem_of_app. left. apply H7.
    destruct (decide (fid < length (futures p))) as [Hlt|Hge].
    + by rewrite lookup_app_l in Hl.
    + rewrite lookup_app_r in Hl by lia.
      destruct (fid - length (futures p)) as [|n]; [done|].
      simpl in Hl. by rewrite lookup_nil in Hl.
  - rewrite Hm. intros Hpos. destruct Hq as [[-> _]|(-> & _ & Hfull)]; [by apply H6|].
    pose proof (full_false_bound p Hfull Hpos) as Hb.
    rewrite length_app. simpl. lia.
  - rewrite Hw, Hsd. apply H8.
Qed.

Lemma inv_enqueue p tr k s d p' acts :
  Inv p tr -> _enqueue k s d p = (p', acts) -> Inv p' (tr ++ acts).
Proof.
  intros HI. unfold _enqueue.
  set (job := mkJob k s d (length (futures p))).
  set (p1 := set_futures (futures p ++ [Pending]) p).
  assert (full p1 = full p) as Hfull by done.
  rewrite Hfull. destruct (full p) eqn:Hf; intros [= <- <-].
  - apply (inv_grow p _ tr [] job); auto.
    unfold tracked; simpl.
    by rewrite !app_assoc, <-Permutation_cons_append.
  - apply (inv_grow p _ tr [Enqueued job] job); auto.
    unfold tracked; simpl.
    rewrite <-(app_assoc (queue p) [job]). simpl.
    change (in_flight (put_nowait job p1)) with (in_flight p).
    rewrite (app_assoc (in_flight p) (queue p) (putters p)).
    rewrite (app_assoc (in_flight p) (queue p) (job :: putters p)).
    symmetry. apply Permutation_middle.
Qed.

Lemma inv_putter_resume p tr i p' acts :
  Inv p tr -> putter_resume i p = Some (p', acts) -> Inv p' (tr ++ acts).
Proof.
  intros HI. unfold putter_resume.
  destruct (putters p !! i) as [job|] eqn:Hi; [|done].
  destruct (full p) eqn:Hfull; [done|]. intros [= <- <-].
  apply (inv_frame p); auto; simpl.
  - unfold tracked; simpl.
    change (in_flight (put_nowait job _)) with (in_flight p).
    apply submseteq_skips_l. rewrite <-app_assoc. apply submseteq_skips_l.
    simpl. rewrite (delete_Permutation (putters p) i job Hi) at 2. done.
  - right. split; [done|]. rewrite length_app. simpl. lia.
  - apply (inv_live _ _ HI).
Qed.

(** A step that settles the pending future of one tracked job and lets
    the job go. *)
Lemma inv_settle p p' tr pre job r :
  Inv p tr ->
  futures p' = <[future job := Finished r]> (futures p) ->
  maxsize p' = maxsize p ->
  job :: tracked p' ⊆+ tracked p ->
  settled pre = [] ->
  dequeued pre ++ queue p' = queue p ++ enqueued pre ->
  length (queue p') <= length (queue p) ->
  (forall s, _worker_task p' = Some (Running s) -> _shutdown p' = false) ->
  Inv p' (tr ++ pre ++ [Settled (future job) r]).
Proof.
  intros HI Hf Hm Hsub Hset Hq Hlen Hlive.
  pose proof HI as [H1 H2 H3 H4 H5 H7 H6 H8].
  assert (job ∈ tracked p) as Hjob.
  { eapply elem_of_submseteq; [|done]. apply list_elem_of_here. }
  assert (NoDup (future <$> job :: tracked p')) as Hnd.
  { eapply NoDup_submseteq_mono; [|apply H1]. by apply fmap_submseteq. }
  rewrite fmap_cons in Hnd. apply NoDup_cons in Hnd as [Hfresh Hnd].
  split.
  - done.
  - intros job' Hin. rewrite Hf.
    rewrite list_lookup_insert_ne.
    + apply H2. eapply elem_of_submseteq; [|done]. by apply list_elem_of_further.
    + intros Heq. apply Hfresh. rewrite Heq. by apply list_elem_of_fmap_2.
  - rewrite !dequeued_app, !enqueued_app, <-!app_assoc. simpl.
    rewrite !app_nil_r, Hq. by rewrite app_assoc, H3.
  - rewrite !settled_app, Hset. simpl. apply NoDup_app. split; [done|].
    split; [|apply NoDup_singleton].
    intros fid [r' Hin]%elem_of_settled ->%list_elem_of_singleton.
    apply H5 in Hin. by rewrite (H2 job Hjob) in Hin.
  - intros fid r' Hin. rewrite Hf.
    apply elem_of_app in Hin as [Hin|Hin].
    + rewrite list_lookup_insert_ne; [by apply H5|].
      intros <-. apply H5 in Hin. by rewrite (H2 job Hjob) in Hin.
    + apply elem_of_app in Hin as [Hin|Hin].
      * assert (fid ∈ settled pre) as Hin' by (apply elem_of_settled; eauto).
        rewrite Hset in Hin'. by apply elem_of_nil in Hin'.
      * apply list_elem_of_singleton in Hin as [= -> ->].
        apply list_lookup_insert_eq. by eapply inv_tracked_lt.
  - intros fid r'. rewrite Hf. intros Hl.
    destruct (decide (fid = future job)) as [->|Hne].
    + rewrite list_lookup_insert_eq in Hl by (by eapply inv_tracked_lt).
      injection Hl as <-. rewrite !elem_of_app. right. right.
      apply list_elem_of_here.
    + rewrite list_lookup_insert_ne in Hl by done.
      apply elem_of_app. left. by apply H7.
  - rewrite Hm. intros Hpos. specialize (H6 Hpos). lia.
  - done.
Qed.

(** The worker takes the head of the queue. *)
Lemma inv_take p tr job rest p' acts :
  Inv p tr -> queue p = job :: rest -> in_flight p = [] ->
  _shutdown p = false ->
  take job (set_queue rest p) = (p', acts) ->
  Inv p' (tr ++ acts).
Proof.
  intros HI Hq Hfl Hsd. unfold take.
  assert (job ∈ tracked p) as Hjob.
  { unfold tracked. rewrite Hq, Hfl. apply list_elem_of_here. }
  destruct (known_kind (kind job)).
  - intros [= <- <-]. apply (inv_frame p); auto; simpl.
    + unfold tracked; simpl. by rewrite Hq, Hfl.
    + by rewrite Hq, app_nil_r.
    + left. rewrite Hq. simpl. lia.
  - rewrite settle_pending by (by apply (inv_pending _ _ HI)).
    intros [= <- <-].
    apply (inv_settle p _ tr [Dequeued job] job); auto; simpl.
    + unfold tracked; simpl. by rewrite Hq, Hfl.
    + by rewrite Hq, app_nil_r.
    + rewrite Hq. simpl. lia.
Qed.

Lemma inv_worker_step p tr p' acts :
  Inv p tr -> worker_step p = Some (p', acts) -> Inv p' (tr ++ acts).
Proof.
  intros HI. unfold worker_step.
  pose proof (inv_live _ _ HI) as Hlive.
  destruct (_worker_task p) as [[[| |job]|]|] eqn:Hw; try done.
  - rewrite (Hlive _ eq_refl).
    destruct (queue p) as [|job rest] eqn:Hq.
    { intros [= <- <-]. apply (inv_frame p); auto; simpl.
      - unfold tracked, in_flight; simpl. by rewrite Hw.
      - by rewrite Hq.
      - intros _ _. by apply (Hlive LoopHead). }
    intros [= Ht]. eapply inv_take; eauto. unfold in_flight. by rewrite Hw.
  - destruct (queue p) as [|job rest] eqn:Hq; [done|].
    intros [= Ht]. eapply inv_take; eauto. unfold in_flight. by rewrite Hw.
Qed.

Lemma inv_worker_finish p tr out p' acts :
  Inv p tr -> worker_finish out p = Some (p', acts) -> Inv p' (tr ++ acts).
Proof.
  intros HI. unfold worker_finish.
  pose proof (inv_live _ _ HI) as Hlive.
  destruct (_worker_task p) as [[[| |job]|]|] eqn:Hw; try done.
  assert (job ∈ tracked p) as Hjob.
  { unfold tracked, in_flight. rewrite Hw. apply list_elem_of_here. }
  rewrite settle_pending by (by apply (inv_pending _ _ HI)).
  intros [= <- <-].
  apply (inv_settle p _ tr [] job); auto; simpl.
  - unfold tracked, in_flight; simpl. by rewrite Hw.
  - by rewrite app_nil_r.
  - intros _ _. by apply (Hlive (InTransform job)).
Qed.

Lemma inv_step p tr ev p' acts :
  Inv p tr -> step p ev = Some (p', acts) -> Inv p' (tr ++ acts).
Proof.
  intros HI. destruct ev as [| |k s d|i| |out]; simpl.
  - intros [= <- <-]. rewrite app_nil_r. by apply inv_start.
  - intros [= <- <-]. rewrite app_nil_r. by apply inv_stop.
  - intros [= H]. by eapply inv_enqueue.
  - by apply inv_putter_resume.
  - by apply inv_worker_step.
  - by apply inv_worker_finish.
Qed.

Lemma inv_run_from p tr evs p' tr' :
  Inv p tr -> run_from p tr evs = Some (p', tr') -> Inv p' tr'.
Proof.
  revert p tr. induction evs as [|ev evs IH]; intros p tr HI; simpl.
  - by intros [= <- <-].
  - destruct (step p ev) as [[p1 acts]|] eqn:Hs; [|done].
    apply IH. by eapply inv_step.
Qed.

Lemma inv_run cap evs p tr : run (init cap) evs = Some (p, tr) -> Inv p tr.
Proof. apply inv_run_from, inv_init. Qed.
End Preservation.

Section Facts.
Implicit Types (p : MediaProcessor) (tr acts : list action) (job : MediaJob).

Lemma run_from_extends p tr evs p' tr' :
  run_from p tr evs = Some (p', tr') -> tr `prefix_of` tr'.
Proof.
  rewrite run_from_trace. destruct (run p evs) as [[p1 tr1]|]; [|done].
  intros [= <- <-]. by apply prefix_app_r.
Qed.

Lemma in_flight_known_step p ev p' acts :
  (forall job, job ∈ in_flight p -> known_kind (kind job) = true) ->
  step p ev = Some (p', acts) ->
  forall job, job ∈ in_flight p' -> known_kind (kind job) = true.
Proof.
  intros Hk Hs job. revert Hs.
  assert (forall j rest, job ∈ in_flight (fst (take j (set_queue rest p))) ->
            known_kind (kind job) = true) as Htake.
  { intros j rest. unfold take. destruct (known_kind (kind j)) eqn:Hj.
    - simpl. unfold in_flight; simpl. by intros ->%list_elem_of_singleton.
    - destruct (settle _ _ _) as [p1 a1]. unfold in_flight; simpl.
      by intros ?%elem_of_nil. }
  destruct ev as [| |k s d|i| |out]; simpl.
  - intros [= <- <-]. intros Hin. apply Hk.
    by destruct p as [m q w u [[[| |j]|]|] [] fs].
  - intros [= <- <-]. intros Hin.
    destruct p as [m q w u [[[| |j]|]|] sd fs]; by apply elem_of_nil in Hin.
  - unfold _enqueue. destruct (full _); intros [= <- <-]; apply Hk.
  - unfold putter_resume. destruct (putters p !! i); [|done].
    destruct (full p); [done|]. intros [= <- <-]. apply Hk.
  - unfold worker_step.
    destruct (_worker_task p) as [[[| |j]|]|] eqn:Hw; try done.
    + destruct (_shutdown p); [intros [= <- <-]; by intros ?%elem_of_nil|].
      destruct (queue p) as [|j rest]; [intros [= <- <-]; by intros ?%elem_of_nil|].
      intros [= Ht]. specialize (Htake j rest). by rewrite Ht in Htake.
    + destruct (queue p) as [|j rest]; [done|].
      intros [= Ht]. specialize (Htake j rest). by rewrite Ht in Htake.
  - unfold worker_finish.
    destruct (_worker_task p) as [[[| |j]|]|] eqn:Hw; try done.
    destruct (settle _ _ _) as [p1 a1]. intros [= <- <-].
    unfold in_flight; simpl. by intros ?%elem_of_nil.
Qed.

Lemma in_flight_known cap evs p tr job :
  run (init cap) evs = Some (p, tr) -> job ∈ in_flight p ->
  known_kind (kind job) = true.
Proof.
  revert p tr job. induction evs as [|ev evs IH] using rev_ind; intros p tr job.
  - intros [= <- <-]. by intros ?%elem_of_nil.
  - intros (p0 & tr0 & acts & Hrun & Hstep & ->)%run_snoc.
    eapply in_flight_known_step; eauto.
Qed.

Lemma maxsize_step p ev p' acts : step p ev = Some (p', acts) -> maxsize p' = maxsize p.
Proof.
  destruct ev as [| |k s d|i| |out]; simpl.
  - intros [= <- <-]. by destruct p as [m q w u [[[| |j]|]|] [] fs].
  - intros [= <- <-]. by destruct p as [m q w u [[[| |j]|]|] sd fs].
  - unfold _enqueue. by destruct (full _); intros [= <- <-].
  - unfold putter_resume. destruct (putters p !! i); [|done].
    destruct (full p); [done|]. by intros [= <- <-].
  - unfold worker_step, take, settle.
    destruct (_worker_task p) as [[[| |j]|]|]; try done;
      repeat case_match; intros; by simplify_eq.
  - unfold worker_finish, settle.
    destruct (_worker_task p) as [[[| |j]|]|]; try done;
      repeat case_match; intros; by simplify_eq.
Qed.

Lemma maxsize_run_from p tr evs p' tr' :
  run_from p tr evs = Some (p', tr') -> maxsize p' = maxsize p.
Proof.
  revert p tr. induction evs as [|ev evs IH]; intros p tr; simpl.
  - by intros [= <- <-].
  - destruct (step p ev) as [[p1 acts]|] eqn:Hs; [|done].
    intros Hr. rewrite (IH _ _ Hr). by eapply maxsize_step.
Qed.
End Facts.

Section Halted.
Implicit Types (p : MediaProcessor) (tr acts : list action) (job : MediaJob).

(** Once the worker task is done nothing starts it again: no job leaves
    the queue and no future is settled, whatever happens next. *)
Lemma halted_step p ev p' acts :
  _worker_task p = Some Done -> step p ev = Some (p', acts) ->
  _worker_task p' = Some Done /\
  futures p `prefix_of` futures p' /\
  queue p `prefix_of` queue p' /\
  dequeued acts = [] /\ settled acts = [].
Proof.
  intros Hw. destruct ev as [| |k s d|i| |out]; simpl.
  - intros [= <- <-]. destruct p as [m q w u t [] fs]; simpl in *; by subst.
  - intros [= <- <-]. destruct p as [m q w u t sd fs]; simpl in *; by subst.
  - unfold _enqueue. destruct (full _); intros [= <- <-]; simpl;
      repeat split; try done; by apply prefix_app_r.
  - unfold putter_resume. destruct (putters p !! i); [|done].
    destruct (full p); [done|]. intros [= <- <-]; simpl.
    repeat split; try done. by apply prefix_app_r.
  - unfold worker_step. by rewrite Hw.
  - unfold worker_finish. by rewrite Hw.
Qed.

Lemma halted_run_from p tr evs p' tr' :
  _worker_task p = Some Done -> run_from p tr evs = Some (p', tr') ->
  _worker_task p' = Some Done /\
  futures p `prefix_of` futures p' /\
  queue p `prefix_of` queue p' /\
  dequeued tr' = dequeued tr /\ settled tr' = settled tr.
Proof.
  revert p tr. induction evs as [|ev evs IH]; intros p tr Hw; simpl.
  - by intros [= <- <-].
  - destruct (step p ev) as [[p1 acts]|] eqn:Hs; [|done].
    destruct (halted_step _ _ _ _ Hw Hs) as (Hw1 & Hf & Hq & Hd & Hst).
    intros Hr. destruct (IH _ _ Hw1 Hr) as (? & Hf' & Hq' & Hd' & Hst').
    repeat split; try done.
    + by etrans.
    + by etrans.
    + by rewrite Hd', dequeued_app, Hd, app_nil_r.
    + by rewrite Hst', settled_app, Hst, app_nil_r.
Qed.

(** With the worker done and the queue full, a producer suspended in
    [put] stays suspended. *)
Lemma stuck_step p ev p' acts :
  _worker_task p = Some Done -> full p = true -> step p ev = Some (p', acts) ->
  _worker_task p' = Some Done /\ full p' = true /\
  queue p' = queue p /\ putters p `prefix_of` putters p'.
Proof.
  intros Hw Hfull. destruct ev as [| |k s d|i| |out]; simpl.
  - intros [= <- <-]. destruct p as [m q w u t [] fs]; simpl in *; by subst.
  - intros [= <- <-]. destruct p as [m q w u t sd fs]; simpl in *; by subst.
  - unfold _enqueue.
    change (full (set_futures (futures p ++ [Pending]) p)) with (full p).
    rewrite Hfull. intros [= <- <-]; simpl.
    repeat split; try done. by apply prefix_app_r.
  - unfold putter_resume. destruct (putters p !! i); [|done]. by rewrite Hfull.
  - unfold worker_step. by rewrite Hw.
  - unfold worker_finish. by rewrite Hw.
Qed.

Lemma stuck_run_from p tr evs p' tr' :
  _worker_task p = Some Done -> full p = true ->
  run_from p tr evs = Some (p', tr') ->
  queue p' = queue p /\ putters p `prefix_of` putters p'.
Proof.
  revert p tr. induction evs as [|ev evs IH]; intros p tr Hw Hfull; simpl.
  - by intros [= <- <-].
  - destruct (step p ev) as [[p1 acts]|] eqn:Hs; [|done].
    destruct (stuck_step _ _ _ _ Hw Hfull Hs) as (Hw1 & Hf1 & Hq & Hp).
    intros Hr. destruct (IH _ _ Hw1 Hf1 Hr) as [Hq' Hp'].
    split; [congruence|by etrans].
Qed.
End Halted.

Section Submission.
Implicit Types (p : MediaProcessor) (tr acts : list action) (job : MediaJob).

Lemma settle_futures_length job r p :
  length (futures (fst (settle job r p))) = length (futures p).
Proof.
  unfold settle. destruct (done p (future job)); [done|].
  simpl. apply length_insert.
Qed.

Lemma settle_enqueued job r p : enqueued (snd (settle job r p)) = [].
Proof. unfold settle. by destruct (done p (future job)). Qed.

Lemma take_direct job p :
  length (futures (fst (take job p))) = length (futures p) /\
  enqueued (snd (take job p)) = [].
Proof.
  unfold take. destruct (known_kind _); [done|].
  pose proof (settle_futures_length job (Raise (unknown_job (kind job))) p) as Hl.
  pose proof (settle_enqueued job (Raise (unknown_job (kind job))) p) as He.
  by destruct (settle _ _ p) as [p1 acts].
Qed.

(** A step that is no resumption of a suspended producer shows at most one
    job entering the queue, the one just submitted. *)
Lemma step_direct p ev p' acts :
  is_putter_resume ev = false -> step p ev = Some (p', acts) ->
  (length (futures p) <= length (futures p'))%nat /\
  Forall (fun job => length (futures p) <= future job < length (futures p'))%nat
         (enqueued acts).
Proof.
  destruct ev as [| |k s d|i| |out]; simpl; try done; intros _.
  - intros [= <- <-]. split; [|by constructor].
    destruct p as [m q w u [t|] [|] fs]; simpl; lia.
  - intros [= <- <-]. split; [|by constructor].
    destruct p as [m q w u [[[| |j]|]|] sd fs]; simpl; lia.
  - unfold _enqueue.
    change (full (set_futures (futures p ++ [Pending]) p)) with (full p).
    destruct (full p); intros [= <- <-]; simpl; rewrite length_app; simpl.
    + split; [lia|by constructor].
    + split; [lia|]. repeat constructor; simpl; lia.
  - unfold worker_step.
    assert (forall j rest, take j (set_queue rest p) = (p', acts) ->
              (length (futures p) <= length (futures p'))%nat /\
              Forall (fun job => length (futures p) <= future job
                                 < length (futures p'))%nat (enqueued acts)) as Htake.
    { intros j rest Ht. destruct (take_direct j (set_queue rest p)) as [Hl He].
      rewrite Ht in Hl, He. simpl in Hl, He. rewrite He, Hl.
      split; [lia|by constructor]. }
    destruct (_worker_task p) as [[[| |j]|]|]; try done.
    + destruct (_shutdown p); [intros [= <- <-]; split; [simpl; lia|by constructor]|].
      destruct (queue p) as [|j rest]; [intros [= <- <-]; split; [simpl; lia|by constructor]|].
      intros [= Ht]. by eapply Htake.
    + destruct (queue p) as [|j rest]; [done|]. intros [= Ht]. by eapply Htake.
  - unfold worker_finish. destruct (_worker_task p) as [[[| |j]|]|]; try done.
    pose proof (settle_futures_length j out p) as Hl.
    pose proof (settle_enqueued j out p) as He.
    destruct (settle j out p) as [p1 acts1]. simpl in Hl, He.
    intros [= <- <-]. simpl. rewrite He, Hl. split; [lia|by constructor].
Qed.

Lemma direct_run_from p tr evs p' tr' :
  Forall (fun ev => is_putter_resume ev = false) evs ->
  run_from p tr evs = Some (p', tr') ->
  in_submission_order (enqueued tr) ->
  Forall (fun job => future job < length (futures p))%nat (enqueued tr) ->
  in_submission_order (enqueued tr').
Proof.
  intros Hevs. revert p tr. induction Hevs as [|ev evs Hev _ IH]; intros p tr; simpl.
  - by intros [= <- <-].
  - destruct (step p ev) as [[p1 acts]|] eqn:Hs; [|done].
    intros Hr Hsorted Hold.
    destruct (step_direct _ _ _ _ Hev Hs) as [Hlen Hnew].
    apply (IH _ _ Hr); rewrite enqueued_app.
    + unfold in_submission_order. rewrite fmap_app. apply StronglySorted_app_2.
      * intros a b [ja [-> Ha]]%list_elem_of_fmap [jb [-> Hb]]%list_elem_of_fmap.
        rewrite Forall_forall in Hold, Hnew.
        specialize (Hold _ Ha). specialize (Hnew _ Hb). lia.
      * done.
      * destruct (enqueued acts) as [|j1 [|j2 rest]] eqn:He.
        -- constructor.
        -- repeat constructor.
        -- exfalso. clear - Hs He.
           destruct ev as [| |k s d|i| |out]; simpl in Hs.
           ++ by injection Hs as <- <-.
           ++ by injection Hs as <- <-.
           ++ unfold _enqueue in Hs.
              destruct (full _); by injection Hs as <- <-.
           ++ unfold putter_resume in Hs. destruct (putters p !! i); [|done].
              destruct (full p); [done|]. by injection Hs as <- <-.
           ++ unfold worker_step in Hs.
              assert (forall j0 q0, enqueued (snd (take j0 (set_queue q0 p))) = [])
                as Ht by (intros; apply take_direct).
              destruct (_worker_task p) as [[[| |j]|]|]; try done.
              ** destruct (_shutdown p); [by injection Hs as <- <-|].
                 destruct (queue p) as [|j0 q0]; [by injection Hs as <- <-|].
                 injection Hs as Hs. specialize (Ht j0 q0). rewrite Hs in Ht.
                 simpl in Ht. congruence.
              ** destruct (queue p) as [|j0 q0]; [done|].
                 injection Hs as Hs. specialize (Ht j0 q0). rewrite Hs in Ht.
                 simpl in Ht. congruence.
           ++ unfold worker_finish in Hs.
              destruct (_worker_task p) as [[[| |j]|]|]; try done.
              pose proof (settle_enqueued j out p) as He'.
              destruct (settle j out p) as [p2 acts2]. injection Hs as <- <-.
              simpl in He'. congruence.
    + apply Forall_app. split.
      * eapply Forall_impl; [exact Hold|]. simpl. intros; lia.
      * eapply Forall_impl; [exact Hnew|]. simpl. intros; lia.
Qed.

Lemma direct_run cap evs p tr :
  Forall (fun ev => is_putter_resume ev = false) evs ->
  run (init cap) evs = Some (p, tr) ->
  in_submission_order (enqueued tr).
Proof.
  intros Hevs Hr. eapply direct_run_from; [exact Hevs|exact Hr|constructor|constructor].
Qed.
End Submission.

Section Worker.
Implicit Types (p : MediaProcessor) (tr acts : list action) (job : MediaJob).

(** C4, as the code has it.  In every state a run of the processor reaches,
    the jobs the worker has taken so far, followed by the jobs still in the
    queue, are the jobs that entered the queue, in the order they entered
    it.  So the n-th job the worker takes is the n-th job that entered the
    queue, a job is taken only after every job that entered before it, and
    every job that entered is either taken or still queued.  As long as no
    producer suspended in [put] has resumed, that order is the order of
    submission. *)
Theorem worker_takes_jobs_in_queue_order cap evs p tr :
  run (init cap) evs = Some (p, tr) ->
  dequeued tr ++ queue p = enqueued tr /\
  (forall n job, dequeued tr !! n = Some job -> enqueued tr !! n = Some job) /\
  (forall i j a b, i < j ->
     enqueued tr !! i = Some a -> dequeued tr !! j = Some b ->
     dequeued tr !! i = Some a) /\
  (forall job, job ∈ enqueued tr -> job ∈ dequeued tr \/ job ∈ queue p) /\
  (Forall (fun ev => is_putter_resume ev = false) evs ->
     in_submission_order (enqueued tr) /\ in_submission_order (dequeued tr)).
Proof.
  intros Hrun. pose proof (inv_run _ _ _ _ Hrun) as HI.
  pose proof (inv_fifo _ _ HI) as Hfifo.
  assert (forall n job, dequeued tr !! n = Some job -> enqueued tr !! n = Some job) as Hpre.
  { intros n job Hn. rewrite <-Hfifo. by apply lookup_app_l_Some. }
  split; [done|]. split; [done|]. split.
  - intros i j a b Hij Ha Hb.
    assert (i < length (dequeued tr)) as Hlt.
    { apply lookup_lt_Some in Hb. lia. }
    apply lookup_lt_is_Some in Hlt as [a' Ha'].
    pose proof (Hpre _ _ Ha'). congruence.
  - split; [intros job Hin; rewrite <-Hfifo in Hin; by apply elem_of_app in Hin|].
    intros Hevs. pose proof (direct_run _ _ _ _ Hevs Hrun) as Hsub.
    split; [done|]. unfold in_submission_order in *.
    rewrite <-Hfifo, fmap_app in Hsub. by eapply StronglySorted_app_1_l.
Qed.

Lemma worker_takes_jobs_in_queue_order_witness :
  exists p tr, run (init 3) crowded = Some (p, tr) /\
    dequeued tr ++ queue p = enqueued tr.
Proof.
  eexists _, _. split; [vm_compute; reflexivity|].
  edestruct (worker_takes_jobs_in_queue_order 3 crowded) as [H _];
    [vm_compute; reflexivity|exact H].
Defined.

(** C4 as stated fails: a caller suspended on the full queue is overtaken by
    a later caller that finds room, whose job the worker takes first. *)
Lemma later_submit_overtakes :
  exists p tr, run (init 3) overtaking = Some (p, tr) /\
    future <$> dequeued tr = [0; 1; 2; 3; 5]%nat /\
    future <$> queue p = [4]%nat /\
    ~ in_submission_order (enqueued tr).
Proof.
  eexists _, _. do 3 (split; [vm_compute; reflexivity|]).
  intros H.
  assert (future <$> enqueued
            (match run (init 3) overtaking with Some (_, tr) => tr | None => [] end)
          = [0; 1; 2; 3; 5] ++ [4])%nat as He by (vm_compute; reflexivity).
  vm_compute in H. vm_compute in He.
  unfold in_submission_order in H.
  cut (5 < 4)%nat; [lia|].
  eapply (StronglySorted_app_1_elem_of lt [0; 1; 2; 3; 5]%nat [4]%nat).
  - exact H.
  - set_solver.
  - set_solver.
Qed.

(** C1, as the code has it.  [stop()] sets the shutdown flag and ends the
    worker task, after which the worker takes no job and settles no
    future.  It changes neither the queue, nor the suspended producers, nor
    any future: the future of every job in flight, queued or waiting to be
    queued is still pending when [stop()] returns. *)
Theorem stop_settles_no_future cap evs p tr :
  run (init cap) evs = Some (p, tr) ->
  step p Stop = Some (stop p, []) /\
  _shutdown (stop p) = true /\
  worker_step (stop p) = None /\
  (forall out, worker_finish out (stop p) = None) /\
  futures (stop p) = futures p /\
  queue (stop p) = queue p /\
  putters (stop p) = putters p /\
  (forall job, job ∈ in_flight p ++ queue p ++ putters p ->
     futures (stop p) !! future job = Some Pending).
Proof.
  intros Hrun. pose proof (inv_run _ _ _ _ Hrun) as HI.
  assert (futures (stop p) = futures p) as Hf
      by (by destruct p as [m q w u [[[| |j]|]|] sd fs]).
  repeat split.
  - by destruct p as [m q w u [[[| |j]|]|] sd fs].
  - by destruct p as [m q w u [[[| |j]|]|] sd fs].
  - intros out. by destruct p as [m q w u [[[| |j]|]|] sd fs].
  - done.
  - by destruct p as [m q w u [[[| |j]|]|] sd fs].
  - by destruct p as [m q w u [[[| |j]|]|] sd fs].
  - intros job Hin. rewrite Hf. by apply (inv_pending _ _ HI).
Qed.

Lemma stop_settles_no_future_witness :
  exists p tr, run (init 3) busy = Some (p, tr) /\
    futures (stop p) = futures p /\ queue (stop p) = queue p.
Proof.
  eexists _, _. split; [vm_compute; reflexivity|].
  edestruct (stop_settles_no_future 3 busy) as (_ & _ & _ & _ & Hf & Hq & _);
    [vm_compute; reflexivity|exact (conj Hf Hq)].
Defined.

(** C1 as stated fails: with one job in flight and one queued, [stop()]
    leaves both futures pending. *)
Lemma stop_cancels_jobs_fails :
  exists p tr, run (init 3) busy = Some (p, tr) /\
    length (in_flight p) = 1 /\ length (queue p) = 1 /\
    futures (stop p) = [Pending; Pending] /\
    ~ stop_cancels_jobs p.
Proof.
  eexists _, _. split; [vm_compute; reflexivity|].
  do 3 (split; [vm_compute; reflexivity|]).
  intros H. destruct (H (mkJob "photo" photo_in processed 0)) as [e He].
  - apply list_elem_of_here.
  - discriminate He.
Qed.

(** C2, as the code has it.  In every state a run reaches no future has
    been settled twice: a future is finished exactly when the trace shows
    the one [Settled] action that gave it its value, no later step changes
    it, and the future of the job in flight is settled, with the outcome of
    its transform, when the transform comes back. *)
Theorem future_settled_at_most_once cap evs p tr :
  run (init cap) evs = Some (p, tr) ->
  NoDup (settled tr) /\
  (forall fid r, futures p !! fid = Some (Finished r) <-> Settled fid r ∈ tr) /\
  (forall ev p' acts fid r, step p ev = Some (p', acts) ->
     futures p !! fid = Some (Finished r) -> futures p' !! fid = Some (Finished r)) /\
  (forall job out, job ∈ in_flight p ->
     exists p', step p (WorkerFinish out) = Some (p', [Settled (future job) out]) /\
       futures p' !! future job = Some (Finished out)).
Proof.
  intros Hrun. pose proof (inv_run _ _ _ _ Hrun) as HI.
  split; [apply (inv_once _ _ HI)|]. split; [|split].
  - intros fid r. split; [apply (inv_only _ _ HI)|apply (inv_kept _ _ HI)].
  - intros ev p' acts fid r Hs Hl.
    pose proof (inv_step _ _ _ _ _ HI Hs) as HI'.
    apply (inv_kept _ _ HI'). apply elem_of_app. left. by apply (inv_only _ _ HI).
  - intros job out Hin.
    assert (futures p !! future job = Some Pending) as Hp.
    { apply (inv_pending _ _ HI). unfold tracked. apply elem_of_app. by left. }
    unfold in_flight in Hin. simpl. unfold worker_finish.
    destruct (_worker_task p) as [[[| |j]|]|]; try by apply elem_of_nil in Hin.
    apply list_elem_of_singleton in Hin as ->.
    rewrite (settle_pending _ _ _ Hp). eexists. split; [done|]. simpl.
    apply list_lookup_insert_eq. by eapply lookup_lt_Some.
Qed.

Lemma future_settled_at_most_once_witness :
  exists p tr, run (init 3) (crowded ++ [WorkerFinish (Ok processed); Stop]) = Some (p, tr) /\
    NoDup (settled tr).
Proof.
  eexists _, _. split; [vm_compute; reflexivity|].
  edestruct (future_settled_at_most_once 3
               (crowded ++ [WorkerFinish (Ok processed); Stop])) as [H _];
    [vm_compute; reflexivity|exact H].
Defined.

(** C2 as stated fails: the futures of the job in flight and of the job
    queued when [stop()] runs stay pending whatever happens afterwards. *)
Lemma future_left_pending_forever :
  exists p tr, run (init 3) (busy ++ [Stop]) = Some (p, tr) /\
    _worker_task p = Some Done /\ futures p = [Pending; Pending] /\
    forall evs p' tr', run p evs = Some (p', tr') ->
      futures p' !! 0 = Some Pending /\ futures p' !! 1 = Some Pending /\
      settled tr' = [].
Proof.
  eexists _, _. do 3 (split; [vm_compute; reflexivity|]).
  intros evs p' tr' Hr.
  apply halted_run_from in Hr as (_ & Hf & _ & _ & Hs); [|vm_compute; reflexivity].
  split; [|split]; [| |done]; (eapply prefix_lookup_Some; [|exact Hf]; reflexivity).
Qed.

(** C3, the code at the failing input.  After [start()], [stop()] and
    [start()] again the worker task is still the cancelled one, the flag
    being cleared all the same: a job submitted then enters the queue and
    stays at its head, its future pending, whatever happens next. *)
Theorem restart_finds_worker_done :
  let job := mkJob "photo" photo_in processed 0 in
  exists p, run (init 3) [Start; Stop; Start; Enqueue "photo" photo_in processed]
            = Some (p, [Enqueued job]) /\
    _worker_task p = Some Done /\ _shutdown p = false /\ queue p = [job] /\
    worker_step p = None /\
    forall evs p' tr', run p evs = Some (p', tr') ->
      queue p' !! 0 = Some job /\ futures p' !! 0 = Some Pending /\ dequeued tr' = [].
Proof.
  eexists. do 5 (split; [vm_compute; reflexivity|]).
  intros evs p' tr' Hr.
  apply halted_run_from in Hr as (_ & Hf & Hq & Hd & _); [|vm_compute; reflexivity].
  split; [|split]; [| |done].
  - eapply prefix_lookup_Some; [|exact Hq]; reflexivity.
  - eapply prefix_lookup_Some; [|exact Hf]; reflexivity.
Qed.
End Worker.

Section Capacity.
Implicit Types (p : MediaProcessor) (tr acts : list action) (job : MediaJob).

Lemma take_queue job p : queue (fst (take job p)) = queue p.
Proof.
  unfold take, settle. destruct (known_kind _); [done|].
  by destruct (done p (future job)).
Qed.

Lemma take_maxsize job p : maxsize (fst (take job p)) = maxsize p.
Proof.
  unfold take, settle. destruct (known_kind _); [done|].
  by destruct (done p (future job)).
Qed.

Lemma full_true_bound p :
  full p = true ->
  (0 < maxsize p)%Z /\ (maxsize p <= Z.of_nat (length (queue p)))%Z.
Proof.
  unfold full. destruct (Z.leb_spec (maxsize p) 0); [done|].
  destruct (Z.leb_spec (maxsize p) (Z.of_nat (length (queue p)))); [lia|done].
Qed.

Lemma full_false_iff p :
  (0 < maxsize p)%Z -> (Z.of_nat (length (queue p)) < maxsize p)%Z ->
  full p = false.
Proof.
  intros H1 H2. unfold full. destruct (Z.leb_spec (maxsize p) 0); [done|].
  destruct (Z.leb_spec (maxsize p) (Z.of_nat (length (queue p)))); [lia|done].
Qed.

(** C5, as the code has it.  With a positive [maxsize] the queue never
    holds more than [maxsize] jobs; a caller that submits to a full queue is
    suspended, its job kept aside and the queue unchanged; when the worker
    takes a job from a full queue the queue has room again, and with room
    in the queue a suspended producer gets its job appended. *)
Theorem queue_stays_within_capacity cap evs p tr :
  (0 < cap)%Z -> run (init cap) evs = Some (p, tr) ->
  (Z.of_nat (length (queue p)) <= cap)%Z /\
  (forall k s d, full p = true ->
     exists p', _enqueue k s d p = (p', []) /\ queue p' = queue p /\
       putters p' = putters p ++ [mkJob k s d (length (futures p))]) /\
  (forall p' acts, full p = true -> worker_step p = Some (p', acts) ->
     full p' = false) /\
  (forall i job, putters p !! i = Some job -> full p = false ->
     exists p', step p (PutterResume i) = Some (p', [Enqueued job]) /\
       queue p' = queue p ++ [job]).
Proof.
  intros Hcap Hrun. pose proof (inv_run _ _ _ _ Hrun) as HI.
  pose proof (maxsize_run_from _ _ _ _ _ Hrun) as Hm. simpl in Hm.
  pose proof (inv_bound _ _ HI) as Hb. rewrite Hm in Hb. specialize (Hb Hcap).
  split; [done|]. split; [|split].
  - intros k s d Hfull. unfold _enqueue.
    change (full (set_futures (futures p ++ [Pending]) p)) with (full p).
    rewrite Hfull. by eexists.
  - intros p' acts Hfull. unfold worker_step.
    pose proof (inv_live _ _ HI) as Hlive.
    apply full_true_bound in Hfull as [_ Hlen]. rewrite Hm in Hlen.
    assert (forall j rest, queue p = j :: rest ->
              full (fst (take j (set_queue rest p))) = false) as Htake.
    { intros j rest Hq. apply full_false_iff; rewrite ?take_queue, take_maxsize;
        simpl; rewrite Hm; [done|].
      rewrite Hq in Hb. simpl in Hb. lia. }
    destruct (_worker_task p) as [[[| |j]|]|]; try done.
    + rewrite (Hlive _ eq_refl).
      destruct (queue p) as [|j rest] eqn:Hq; [simpl in Hlen; lia|].
      intros [= Ht]. specialize (Htake j rest eq_refl). by rewrite Ht in Htake.
    + destruct (queue p) as [|j rest] eqn:Hq; [done|].
      intros [= Ht]. specialize (Htake j rest eq_refl). by rewrite Ht in Htake.
  - intros i job Hi Hfull. simpl. unfold putter_resume. rewrite Hi, Hfull.
    by eexists.
Qed.

Lemma queue_stays_within_capacity_witness :
  exists p tr, (0 < 3)%Z /\ run (init 3) crowded = Some (p, tr) /\
    (Z.of_nat (length (queue p)) <= 3)%Z.
Proof.
  eexists _, _. split; [lia|]. split; [vm_compute; reflexivity|].
  edestruct (queue_stays_within_capacity 3 crowded) as [H _];
    [lia|vm_compute; reflexivity|exact H].
Defined.

(** C5 as stated fails: a [maxsize] of 0 is no bound, and after [stop()]
    a producer suspended in [put] stays suspended whatever happens. *)
Lemma capacity_bound_fails :
  (exists p tr, run (init 0) [Enqueue "photo" photo_in processed] = Some (p, tr) /\
     maxsize p = 0%Z /\ length (queue p) = 1) /\
  (exists p tr job,
     run (init 3) (crowded ++ [Stop]) = Some (p, tr) /\
     length (queue p) = 3 /\ putters p = [job] /\ _shutdown p = true /\
     forall evs p' tr', run p evs = Some (p', tr') ->
       putters p' !! 0 = Some job /\ job ∉ queue p').
Proof.
  split.
  - eexists _, _. by repeat (split; [vm_compute; reflexivity|]).
  - eexists _, _, _. do 4 (split; [vm_compute; reflexivity|]).
    intros evs p' tr' Hr.
    apply stuck_run_from in Hr as [Hq Hp]; [|vm_compute; reflexivity..].
    split.
    + eapply prefix_lookup_Some; [|exact Hp]. reflexivity.
    + rewrite Hq. simpl. rewrite !not_elem_of_cons. repeat split; try done.
      apply not_elem_of_nil.
Qed.
End Capacity.

Section Serving.
Implicit Types (p : MediaProcessor) (tr acts : list action) (job : MediaJob).

Lemma run_from_app p tr evs1 evs2 :
  run_from p tr (evs1 ++ evs2) =
  match run_from p tr evs1 with
  | Some (p', tr') => run_from p' tr' evs2
  | None => None
  end.
Proof.
  revert p tr. induction evs1 as [|ev evs1 IH]; intros p tr; simpl; [done|].
  destruct (step p ev) as [[p' acts]|]; [|done]. apply IH.
Qed.

Lemma idle_in_flight p : idle p -> in_flight p = [].
Proof. unfold in_flight. by intros [-> | ->]. Qed.

Lemma idle_worker_step p tr job rest :
  Inv p tr -> idle p -> queue p = job :: rest ->
  worker_step p = Some (take job (set_queue rest p)).
Proof.
  intros HI Hidle Hq. unfold worker_step.
  pose proof (inv_live _ _ HI) as Hlive.
  destruct Hidle as [Hw|Hw]; rewrite Hw in *.
  - by rewrite (Hlive _ eq_refl), Hq.
  - by rewrite Hq.
Qed.

(** One turn of the loop: the head of the queue is taken and its future
    settled, with the outcome of its transform or, for a kind without a
    transform, with the error raised on the spot. *)
Lemma serve_one p tr job rest out :
  Inv p tr -> idle p -> queue p = job :: rest ->
  exists p2 tr2,
    run_from p tr (if known_kind (kind job) then [WorkerStep; WorkerFinish out]
                   else [WorkerStep]) = Some (p2, tr2) /\
    queue p2 = rest /\ idle p2 /\
    Settled (future job) (verdict job out) ∈ tr2.
Proof.
  intros HI Hidle Hq.
  assert (futures p !! future job = Some Pending) as Hp.
  { apply (inv_pending _ _ HI). unfold tracked.
    rewrite (idle_in_flight _ Hidle), Hq. apply list_elem_of_here. }
  unfold verdict. destruct (known_kind (kind job)) eqn:Hk; simpl.
  - rewrite (idle_worker_step _ _ _ _ HI Hidle Hq). unfold take. rewrite Hk.
    unfold worker_finish. simpl.
    rewrite settle_pending by done. simpl.
    eexists _, _. split; [done|]. simpl. split; [done|]. split; [by left|].
    rewrite !elem_of_app. right. apply list_elem_of_here.
  - rewrite (idle_worker_step _ _ _ _ HI Hidle Hq). unfold take. rewrite Hk.
    rewrite settle_pending by done.
    eexists _, _. split; [done|]. simpl. split; [done|]. split; [by left|].
    rewrite !elem_of_app. right. apply list_elem_of_further, list_elem_of_here.
Qed.

Lemma serve_run jobs : forall outs p tr,
  Inv p tr -> idle p -> queue p = jobs -> length outs = length jobs ->
  exists p' tr',
    run_from p tr (serve jobs outs) = Some (p', tr') /\
    idle p' /\ queue p' = [] /\
    forall i job out, jobs !! i = Some job -> outs !! i = Some out ->
      Settled (future job) (verdict job out) ∈ tr'.
Proof.
  induction jobs as [|job rest IH]; intros outs p tr HI Hidle Hq Hlen.
  - exists p, tr. simpl. do 3 (split; [done|]). intros i job out Hi.
    by rewrite lookup_nil in Hi.
  - destruct outs as [|out outs']; [done|]. simpl in Hlen. simpl.
    destruct (serve_one p tr job rest out HI Hidle Hq) as (p2 & tr2 & Hr2 & Hq2 & Hi2 & Hs2).
    pose proof (inv_run_from _ _ _ _ _ HI Hr2) as HI2.
    destruct (IH outs' p2 tr2 HI2 Hi2 Hq2 ltac:(lia)) as (p' & tr' & Hr & Hi' & Hq' & Hall).
    exists p', tr'. rewrite run_from_app, Hr2. do 3 (split; [done|]).
    intros [|i] j o Hj Ho; simpl in *.
    + injection Hj as <-. injection Ho as <-.
      eapply elem_of_prefix; [exact Hs2|]. by eapply run_from_extends.
    + by eapply Hall.
Qed.

(** C6.  From any state a run reaches in which the worker is running:
    whatever the transforms of the job in flight and of the queued jobs
    come back with, results or errors, the worker serves them all and is
    still running at the end with an empty queue, and the future of each of
    these jobs holds the outcome of its own transform, or the error of an
    unknown kind for a job that has no transform. *)
Theorem failed_job_leaves_worker_running cap evs p tr outs :
  run (init cap) evs = Some (p, tr) ->
  running p ->
  length outs = length (in_flight p ++ queue p) ->
  exists p' tr',
    run p (resume p outs) = Some (p', tr') /\
    running p' /\ in_flight p' = [] /\ queue p' = [] /\
    forall i job out,
      (in_flight p ++ queue p) !! i = Some job -> outs !! i = Some out ->
      futures p' !! future job = Some (Finished (verdict job out)).
Proof.
  intros Hrun [s Hw] Hlen. pose proof (inv_run _ _ _ _ Hrun) as HI.
  assert (exists p' tr',
    run_from p tr (resume p outs) = Some (p', tr') /\
    idle p' /\ queue p' = [] /\
    forall i job out,
      (in_flight p ++ queue p) !! i = Some job -> outs !! i = Some out ->
      Settled (future job) (verdict job out) ∈ tr') as (p' & tr' & Hr & Hi & Hq & Hall).
  { destruct s as [| |job0].
    - assert (idle p) as Hidle by (by left).
      unfold resume. rewrite (idle_in_flight _ Hidle) in *. simpl in *.
      by apply serve_run.
    - assert (idle p) as Hidle by (by right).
      unfold resume. rewrite (idle_in_flight _ Hidle) in *. simpl in *.
      by apply serve_run.
    - assert (in_flight p = [job0]) as Hfl by (unfold in_flight; by rewrite Hw).
      assert (known_kind (kind job0) = true) as Hk.
      { eapply in_flight_known; [exact Hrun|]. rewrite Hfl. apply list_elem_of_here. }
      unfold resume. rewrite Hfl in *. simpl in Hlen.
      destruct outs as [|out0 outs']; [done|]. simpl in Hlen. simpl.
      assert (futures p !! future job0 = Some Pending) as Hp.
      { apply (inv_pending _ _ HI). unfold tracked. rewrite Hfl. apply list_elem_of_here. }
      unfold worker_finish. rewrite Hw, (settle_pending _ _ _ Hp).
      set (p1 := set_worker _ _). set (tr1 := tr ++ _).
      assert (Inv p1 tr1) as HI1.
      { eapply (inv_step p tr (WorkerFinish out0)); [done|]. simpl.
        unfold worker_finish. by rewrite Hw, (settle_pending _ _ _ Hp). }
      destruct (serve_run (queue p) outs' p1 tr1 HI1) as (p' & tr' & Hr & Hi & Hq & Hall);
        [by left|done|lia|].
      exists p', tr'. do 3 (split; [done|]).
      intros [|i] j o Hj Ho; simpl in *.
      + injection Hj as <-. injection Ho as <-. unfold verdict. rewrite Hk.
        eapply elem_of_prefix; [|by eapply run_from_extends].
        unfold tr1. apply elem_of_app. right. apply list_elem_of_here.
      + by eapply Hall. }
  pose proof (inv_run_from _ _ _ _ _ HI Hr) as HI'.
  rewrite run_from_trace in Hr.
  destruct (run p (resume p outs)) as [[p1 tr1]|]; [|done].
  injection Hr as -> <-. exists p', tr1. split; [done|].
  split; [destruct Hi as [Hi|Hi]; by eexists|].
  split; [by apply idle_in_flight|]. split; [done|].
  intros i job out Hj Ho. apply (inv_kept _ _ HI'). by eapply Hall.
Qed.

Lemma failed_job_leaves_worker_running_witness :
  let outs := [Raise (MediaProcessingError (ToolExited 1 []));
               Ok ("out.mp4" :: processed)] in
  exists p tr, run (init 3) busy = Some (p, tr) /\ running p /\
    length outs = length (in_flight p ++ queue p) /\
    exists p' tr', run p (resume p outs) = Some (p', tr') /\
      running p' /\ futures p' = [Finished (Raise (MediaProcessingError (ToolExited 1 [])));
                                  Finished (Ok ("out.mp4" :: processed))].
Proof.
  intros outs. eexists _, _. split; [vm_compute; reflexivity|].
  split; [by eexists|]. split; [vm_compute; reflexivity|].
  edestruct (failed_job_leaves_worker_running 3 busy) with (outs := outs)
    as (p' & tr' & Hr & Hrun & _); [vm_compute; reflexivity|by eexists|vm_compute; reflexivity|].
  exists p', tr'. split; [exact Hr|]. split; [exact Hrun|].
  vm_compute in Hr. by injection Hr as <- <-.
Defined.
End Serving.

Section SpecFloatFacts.
Local Open Scope Z_scope.










End SpecFloatFacts.

Section Add.
Local Open Scope Z_scope.





End Add.

Section Uniform.
Local Open Scope Z_scope.




End Uniform.

Section Probes.
Variable int_of_text : str -> option Z.


End Probes.

Example probe_bitrate_reads :
  fst (_probe_bitrate (ends_with (mkCompleted 0 ("1500000" +:+ newline) EmptyString)) int_decimal
         ["a.mp4"] (mkWorld ∅ [])) = Ok 1500000%Z.
Proof. vm_compute. reflexivity. Qed.

Example probe_bitrate_not_available :
  fst (_probe_bitrate (ends_with (mkCompleted 0 ("N/A" +:+ newline) EmptyString)) int_decimal
         ["a.mkv"] (mkWorld ∅ [])) = Ok 2000000%Z.
Proof. vm_compute. reflexivity. Qed.

Example probe_bitrate_checks_returncode :
  fst (_probe_bitrate (ends_with (mkCompleted 1 ("1500000" +:+ newline) EmptyString)) int_decimal
         ["a.mp4"] (mkWorld ∅ [])) = Ok 2000000%Z.
Proof. vm_compute. reflexivity. Qed.

(** C7, the code at the failing input.  A probe process that exits with code
    1 after printing a line makes [_probe_has_audio] answer [True]; output
    that is not UTF-8 makes it raise; and its answer never depends on the
    exit code. *)
Theorem probe_has_audio_ignores_returncode :
  fst (_probe_has_audio (ends_with (mkCompleted 1 ("audio" +:+ newline) EmptyString)) ["a.mp4"]
         (mkWorld ∅ [])) = Ok true /\
  fst (_probe_has_audio (ends_with (mkCompleted 0 (String "255" EmptyString) EmptyString)) ["a.mp4"]
         (mkWorld ∅ [])) = Raise UnicodeDecodeError /\
  forall rc rc' out err path w,
    fst (_probe_has_audio (ends_with (mkCompleted rc out err)) path w)
    = fst (_probe_has_audio (ends_with (mkCompleted rc' out err)) path w).
Proof.
  split; [vm_compute; reflexivity|]. split; [vm_compute; reflexivity|].
  intros rc rc' out err path w. unfold _probe_has_audio, bind, spawn, ends_with. simpl.
  by destruct out.
Qed.

Section Bitrate.

Lemma is_finite_spec x :
  is_finite x = true ->
  (exists s, Prim2SF x = S754_zero s) \/ (exists s m e, Prim2SF x = S754_finite s m e).
Proof.
  unfold is_finite, is_nan, is_infinity.
  rewrite !FloatAxioms.eqb_spec, abs_spec.
  change (Prim2SF infinity) with (S754_infinity false).
  destruct (Prim2SF x) as [s|s| |s m e].
  - intros _. left. by eexists.
  - by destruct s.
  - done.
  - intros _. right. by eexists _, _, _.
Qed.

Lemma int_of_float_finite x : is_finite x = true -> exists n, int_of_float x = Ok n.
Proof.
  intros [[s H]|(s & m & e & H)]%is_finite_spec; unfold int_of_float; rewrite H; eauto.
Qed.

Lemma int_of_float_raises x e :
  int_of_float x = Raise e -> e = OverflowError \/ e = ValueError.
Proof.
  unfold int_of_float. destruct (Prim2SF x); intros [= <-]; auto.
Qed.

Lemma target_bitrate_floor bitrate delta :
  match target_bitrate bitrate delta with
  | Ok t => (300000 <= t)%Z
  | Raise e => e = OverflowError \/ e = ValueError
  end /\
  (forall x, float_of_int bitrate = Ok x ->
     is_finite (x * (1 + delta)) = true ->
     exists t, target_bitrate bitrate delta = Ok t /\ (300000 <= t)%Z).
Proof.
  unfold target_bitrate. split.
  - destruct (float_of_int bitrate) as [x|e] eqn:Hx.
    + destruct (int_of_float _) as [n|e] eqn:Hn; [lia|]. by eapply int_of_float_raises.
    + unfold float_of_int in Hx. destruct (is_infinity _); [|done].
      injection Hx as <-. by left.
  - intros x -> [n ->]%int_of_float_finite. eexists. split; [done|lia].
Qed.

End Bitrate.

Section Rotation.


End Rotation.

Section Effects.
Variable exec : list arg -> result Completed.
Variable int_of_text : str -> option Z.

Lemma tools_only_ret {A} (a : A) : tools_only (ret a).
Proof. intros w. split; [done|]. exists []. by rewrite app_nil_r. Qed.

Lemma tools_only_raise {A} e : tools_only (@raise A e).
Proof. intros w. split; [done|]. exists []. by rewrite app_nil_r. Qed.

Lemma tools_only_lift {A} (r : result A) : tools_only (lift r).
Proof. intros w. split; [done|]. exists []. by rewrite app_nil_r. Qed.

Lemma tools_only_spawn cmd : tools_only (spawn exec cmd).
Proof.
  intros w. split; [done|]. exists [Spawn cmd]. split; [done|].
  repeat constructor. by exists cmd.
Qed.

Lemma tools_only_bind {A B} (m : M A) (k : A -> M B) :
  tools_only m -> (forall a, tools_only (k a)) -> tools_only (bind m k).
Proof.
  intros Hm Hk w. unfold bind. destruct (Hm w) as (Hfs & l & Hlog & Hl).
  destruct (m w) as [[a|e] w1]; simpl in *.
  - destruct (Hk a w1) as (Hfs' & l' & Hlog' & Hl'). split; [congruence|].
    exists (l ++ l'). split; [by rewrite Hlog', Hlog, app_assoc|by apply Forall_app].
  - split; [done|]. by exists l.
Qed.

Lemma tools_only_run_subprocess cmd : tools_only (_run_subprocess exec cmd).
Proof.
  unfold _run_subprocess. apply tools_only_bind; [apply tools_only_spawn|].
  intros process. destruct (_ =? _)%Z; [apply tools_only_ret|].
  apply tools_only_bind; [apply tools_only_lift|]. intros err.
  destruct (strip err); [|apply tools_only_raise].
  apply tools_only_bind; [apply tools_only_lift|]. intros out. apply tools_only_raise.
Qed.

Lemma tools_only_probe_bitrate path : tools_only (_probe_bitrate exec int_of_text path).
Proof.
  unfold _probe_bitrate. apply tools_only_bind; [apply tools_only_spawn|].
  intros process. destruct (_ =? _)%Z; [|apply tools_only_ret].
  destruct (decode _) as [text|e].
  - destruct (int_of_text _); apply tools_only_ret.
  - destruct (is_ValueError e); [apply tools_only_ret|apply tools_only_raise].
Qed.

Lemma tools_only_probe_has_audio path : tools_only (_probe_has_audio exec path).
Proof.
  unfold _probe_has_audio. apply tools_only_bind; [apply tools_only_spawn|].
  intros process. destruct (stdout process); [apply tools_only_ret|].
  apply tools_only_bind; [apply tools_only_lift|]. intros text. apply tools_only_ret.
Qed.


Lemma bind_ok {A B} (m : M A) (k : A -> M B) w a w1 :
  m w = (Ok a, w1) -> bind m k w = k a w1.
Proof. unfold bind. by intros ->. Qed.

Lemma bind_raise {A B} (m : M A) (k : A -> M B) w e w1 :
  m w = (Raise e, w1) -> bind m k w = (Raise e, w1).
Proof. unfold bind. by intros ->. Qed.


Lemma bind_ret_value {A B} (m : M A) (b : B) w out :
  fst (bind m (fun _ => ret b) w) = Ok out -> out = b.
Proof. unfold bind, ret. destruct (m w) as [[a|e] w1]; simpl; congruence. Qed.

Lemma mkdir_ok p w fs1 :
  mkdir_parents p (fs w) = Ok fs1 ->
  mkdir p w = (Ok tt, mkWorld fs1 (log w ++ [Mkdir p])).
Proof. unfold mkdir. by intros ->. Qed.

Lemma mkdir_raise p w e :
  mkdir_parents p (fs w) = Raise e ->
  mkdir p w = (Raise e, mkWorld (fs w) (log w ++ [Mkdir p])).
Proof. unfold mkdir. by intros ->. Qed.


Lemma process_photo_log_failed d src dst fs0 e :
  mkdir_parents dst fs0 = Raise e ->
  process_photo exec d src dst (mkWorld fs0 [])
  = (Raise e, mkWorld fs0 [Mkdir dst]).
Proof.
  intros Hmk. unfold process_photo.
  by rewrite (bind_raise _ _ _ _ _ (mkdir_raise dst (mkWorld fs0 []) e Hmk)).
Qed.

End Effects.

Section FileSystem.
Implicit Types (fs : filesystem) (p : Path).

Lemma stat_insert_eq fs p : p <> [] -> stat (<[p := Dir]> fs) p = Some Dir.
Proof. destruct p; [done|]. intros _. simpl. apply lookup_insert_eq. Qed.

Lemma stat_insert_ne fs p q : p <> q -> stat (<[p := Dir]> fs) q = stat fs q.
Proof. intros Hne. destruct q; [done|]. simpl. by apply lookup_insert_ne. Qed.

Lemma os_mkdir_ok p fs fs1 :
  os_mkdir p fs = Ok fs1 ->
  exists name parent, p = name :: parent /\ stat fs p = None /\
    stat fs parent = Some Dir /\ fs1 = <[p := Dir]> fs.
Proof.
  unfold os_mkdir. destruct p as [|name parent]; [done|].
  destruct (stat fs (name :: parent)) eqn:Hp; [done|].
  destruct (stat fs parent) as [[]|] eqn:Hpar; [|done|done].
  intros [= <-]. by exists name, parent.
Qed.

Lemma mkdir_parents_unfold p fs :
  mkdir_parents p fs =
  match os_mkdir p fs with
  | Ok fs' => Ok fs'
  | Raise FileNotFoundError =>
      match p with
      | [] => Raise FileNotFoundError
      | _ :: parent =>
          match mkdir_parents parent fs with
          | Ok fs1 => mkdir_exist_ok p fs1
          | Raise e => Raise e
          end
      end
  | Raise e => if is_dir fs p then Ok fs else Raise e
  end.
Proof. by destruct p. Qed.

(** A directory that is already there is not an error. *)
Lemma mkdir_parents_existing p fs : is_dir fs p = true -> mkdir_parents p fs = Ok fs.
Proof.
  intros Hd. rewrite mkdir_parents_unfold. unfold os_mkdir.
  destruct p as [|name parent]; [by rewrite Hd|].
  unfold is_dir in Hd. destruct (stat fs (name :: parent)) as [[]|] eqn:Hp; try done.
  unfold is_dir. by rewrite Hp.
Qed.

Lemma mkdir_exist_ok_dir p fs fs1 :
  mkdir_exist_ok p fs = Ok fs1 -> is_dir fs1 p = true.
Proof.
  unfold mkdir_exist_ok. destruct (os_mkdir p fs) as [fs'|e] eqn:Hos.
  - intros [= <-]. apply os_mkdir_ok in Hos as (name & parent & -> & _ & _ & ->).
    unfold is_dir. by rewrite stat_insert_eq.
  - destruct e; try done; destruct (is_dir fs p) eqn:Hd; try done; by intros [= <-].
Qed.

Lemma mkdir_parents_dir p fs fs1 :
  mkdir_parents p fs = Ok fs1 -> is_dir fs1 p = true.
Proof.
  rewrite mkdir_parents_unfold. destruct (os_mkdir p fs) as [fs'|e] eqn:Hos.
  - intros [= <-]. apply os_mkdir_ok in Hos as (name & parent & -> & _ & _ & ->).
    unfold is_dir. by rewrite stat_insert_eq.
  - destruct e; try (destruct (is_dir fs p) eqn:Hd; [by intros [= <-]|done]).
    destruct p as [|name parent]; [done|].
    destruct (mkdir_parents parent fs) as [fs2|e]; [|done].
    apply mkdir_exist_ok_dir.
Qed.

(** Making a directory leaves every other entry as it was. *)
Lemma mkdir_exist_ok_frame p fs fs1 q :
  mkdir_exist_ok p fs = Ok fs1 -> stat fs1 q = stat fs q \/ stat fs1 q = Some Dir.
Proof.
  unfold mkdir_exist_ok. destruct (os_mkdir p fs) as [fs'|e] eqn:Hos.
  - intros [= <-]. apply os_mkdir_ok in Hos as (name & parent & -> & _ & _ & ->).
    destruct (decide (name :: parent = q)) as [<-|Hne].
    + right. by apply stat_insert_eq.
    + left. by apply stat_insert_ne.
  - destruct e; try done; destruct (is_dir fs p); try done; intros [= <-]; by left.
Qed.

Lemma mkdir_parents_frame p : forall fs fs1 q,
  mkdir_parents p fs = Ok fs1 -> stat fs1 q = stat fs q \/ stat fs1 q = Some Dir.
Proof.
  induction p as [|name parent IH]; intros fs fs1 q; rewrite mkdir_parents_unfold.
  - simpl. by intros [= <-]; left.
  - destruct (os_mkdir (name :: parent) fs) as [fs'|e] eqn:Hos.
    + intros [= <-]. apply os_mkdir_ok in Hos as (n & par & _ & _ & _ & ->).
      destruct (decide (name :: parent = q)) as [<-|Hne].
      * right. by apply stat_insert_eq.
      * left. by apply stat_insert_ne.
    + destruct e; try (destruct (is_dir fs (name :: parent)); [by intros [= <-]; left|done]).
      destruct (mkdir_parents parent fs) as [fs2|e] eqn:Hrec; [|done].
      intros Hlast.
      destruct (mkdir_exist_ok_frame _ _ _ q Hlast) as [H1|H1]; [|by right].
      destruct (IH _ _ q Hrec) as [H2|H2]; [left|right]; congruence.
Qed.

Lemma wf_insert fs name parent :
  wf_fs fs -> stat fs parent = Some Dir -> wf_fs (<[name :: parent := Dir]> fs).
Proof.
  intros Hwf Hpar n q Hnq. unfold is_dir.
  destruct (decide (name :: parent = q)) as [<-|Hq].
  { by rewrite stat_insert_eq. }
  rewrite stat_insert_ne by done.
  destruct (decide (name :: parent = n :: q)) as [[= <- <-]|Hne].
  { by rewrite Hpar. }
  rewrite stat_insert_ne in Hnq by done. apply Hwf in Hnq. exact Hnq.
Qed.

Lemma mkdir_exist_ok_wf p fs fs1 :
  wf_fs fs -> mkdir_exist_ok p fs = Ok fs1 -> wf_fs fs1.
Proof.
  intros Hwf. unfold mkdir_exist_ok. destruct (os_mkdir p fs) as [fs'|e] eqn:Hos.
  - intros [= <-]. apply os_mkdir_ok in Hos as (name & parent & -> & _ & Hpar & ->).
    by apply wf_insert.
  - destruct e; try done; destruct (is_dir fs p); try done; by intros [= <-].
Qed.

Lemma mkdir_parents_wf p : forall fs fs1,
  wf_fs fs -> mkdir_parents p fs = Ok fs1 -> wf_fs fs1.
Proof.
  induction p as [|name parent IH]; intros fs fs1 Hwf; rewrite mkdir_parents_unfold.
  - simpl. by intros [= <-].
  - destruct (os_mkdir (name :: parent) fs) as [fs'|e] eqn:Hos.
    + intros [= <-]. apply os_mkdir_ok in Hos as (n & par & [= <- <-] & _ & Hpar & ->).
      by apply wf_insert.
    + destruct e; try (destruct (is_dir fs (name :: parent)); [by intros [= <-]|done]).
      destruct (mkdir_parents parent fs) as [fs2|e] eqn:Hrec; [|done].
      apply mkdir_exist_ok_wf. by eapply IH.
Qed.

Lemma suffix_cons_cases {A} (anc : list A) x l :
  anc `suffix_of` x :: l -> anc = x :: l \/ anc `suffix_of` l.
Proof.
  destruct anc; [right; apply suffix_nil|apply suffix_cons_inv].
Qed.

Lemma wf_ancestors fs p :
  wf_fs fs -> is_dir fs p = true ->
  forall anc, anc `suffix_of` p -> is_dir fs anc = true.
Proof.
  intros Hwf. induction p as [|name parent IH]; intros Hd anc Hanc.
  - apply suffix_nil_inv in Hanc as ->. done.
  - apply suffix_cons_cases in Hanc as [->|Hanc]; [done|].
    apply IH; [|done]. apply (Hwf name). unfold is_dir in Hd.
    by destruct (stat fs (name :: parent)).
Qed.

(** Missing parents are made; only a file in the way stops it. *)
Lemma mkdir_parents_succeeds p : forall fs,
  (forall anc, anc `suffix_of` p -> stat fs anc <> Some File) ->
  exists fs1, mkdir_parents p fs = Ok fs1.
Proof.
  induction p as [|name parent IH]; intros fs Hfree; rewrite mkdir_parents_unfold.
  - simpl. by eexists.
  - assert (stat fs (name :: parent) <> Some File) as Hp by (by apply Hfree).
    assert (forall anc, anc `suffix_of` parent -> stat fs anc <> Some File) as Hfree'.
    { intros anc Hanc. apply Hfree. by apply suffix_cons_r. }
    unfold os_mkdir at 1. unfold is_dir.
    destruct (stat fs (name :: parent)) as [[]|] eqn:Hs; [by eexists|done|].
    destruct (stat fs parent) as [[]|] eqn:Hpar.
    + by eexists.
    + exfalso. by apply (Hfree' parent).
    + destruct (IH fs Hfree') as [fs2 Hrec]. rewrite Hrec.
      pose proof (mkdir_parents_dir _ _ _ Hrec) as Hd2.
      unfold mkdir_exist_ok, os_mkdir, is_dir in *.
      destruct (mkdir_parents_frame _ _ _ (name :: parent) Hrec) as [H|H]; rewrite H.
      * rewrite Hs. destruct (stat fs2 parent) as [[]|]; try done. by eexists.
      * by eexists.
Qed.
End FileSystem.

Section Names.

Lemma slashless_app a b : slashless (a +:+ b) = slashless a && slashless b.
Proof. induction a as [|c a IH]; simpl; [done|]. by rewrite IH, andb_assoc. Qed.

Lemma slashless_substring s : forall n m,
  slashless s = true -> slashless (String.substring n m s) = true.
Proof.
  induction s as [|c s IH]; intros n m; simpl.
  - by destruct n, m.
  - intros [Hc Hs]%andb_prop. destruct n as [|n].
    + destruct m as [|m]; [done|]. simpl. by rewrite Hc, IH.
    + by apply IH.
Qed.

Lemma lower_ascii_slash a :
  Ascii.eqb a "/" = false -> Ascii.eqb (lower_ascii a) "/" = false.
Proof.
  destruct a as [[] [] [] [] [] [] [] []]; intros H; try discriminate H;
    vm_compute; reflexivity.
Qed.

Lemma slashless_lower s : slashless s = true -> slashless (lower s) = true.
Proof.
  induction s as [|c s IH]; simpl; [done|].
  intros [Hc Hs]%andb_prop. apply negb_true_iff in Hc.
  by rewrite (lower_ascii_slash _ Hc), IH.
Qed.

Lemma slashless_suffix p :
  slashless (default EmptyString (head p)) = true -> slashless (suffix p) = true.
Proof.
  intros H. unfold suffix. destruct (rfind_dot _ _ _); [|done].
  destruct (_ && _); [|done]. by apply slashless_substring.
Qed.

Lemma hex_digit_slash x : (x < 16)%N -> Ascii.eqb (hex_digit x) "/" = false.
Proof.
  intros Hx.
  assert (forallb (fun n => negb (Ascii.eqb (hex_digit (N.of_nat n)) "/")) (seq 0 16) = true)
    as Hall by (vm_compute; reflexivity).
  rewrite forallb_forall in Hall.
  specialize (Hall (N.to_nat x)). rewrite N2Nat.id in Hall.
  apply negb_true_iff, Hall, in_seq. lia.
Qed.

Lemma slashless_hex n : forall u, slashless (hex n u) = true.
Proof.
  induction n as [|n IH]; intros u; simpl; [done|].
  rewrite slashless_app, IH. simpl.
  rewrite hex_digit_slash; [done|]. apply N.mod_lt. done.
Qed.

Lemma length_app_string a b :
  String.length (a +:+ b) = (String.length a + String.length b)%nat.
Proof. induction a as [|c a IH]; simpl; [done|]. by rewrite IH. Qed.

Lemma length_hex n : forall u, String.length (hex n u) = n.
Proof.
  induction n as [|n IH]; intros u; simpl; [done|].
  rewrite length_app_string, IH. simpl. lia.
Qed.

Lemma split_slash_slashless s : slashless s = true -> split_slash s = [s].
Proof.
  induction s as [|c s IH]; simpl; [done|].
  intros [Hc Hs]%andb_prop. apply negb_true_iff in Hc. by rewrite Hc, IH.
Qed.

Lemma joinpath_name p name :
  slashless name = true -> (2 <= String.length name)%nat ->
  joinpath p name = name :: p.
Proof.
  intros Hs Hlen. unfold joinpath. rewrite (split_slash_slashless _ Hs).
  assert (name <> EmptyString /\ name <> ".") as Hne.
  { split; intros ->; simpl in Hlen; lia. }
  rewrite filter_cons_True by done. rewrite filter_nil.
  destruct name as [|c rest]; [done|]. simpl in Hs.
  apply andb_prop in Hs as [Hc _]. apply negb_true_iff in Hc.
  destruct c as [[] [] [] [] [] [] [] []]; try discriminate Hc; reflexivity.
Qed.

(** The name of the file a transform writes. *)
Lemma output_name_inside dst u sfx :
  slashless sfx = true ->
  joinpath dst (hex 32 u +:+ sfx) = (hex 32 u +:+ sfx) :: dst /\
  slashless (hex 32 u +:+ sfx) = true.
Proof.
  intros Hs.
  assert (slashless (hex 32 u +:+ sfx) = true) as Hn
    by (by rewrite slashless_app, slashless_hex, Hs).
  split; [|done]. apply joinpath_name; [done|].
  rewrite length_app_string, length_hex. lia.
Qed.

End Names.

Section Destination.
Variable exec : list arg -> result Completed.
Variable int_of_text : str -> option Z.

Lemma after_mkdir {A} dst (rest : M A) fs0 :
  tools_only rest ->
  let r := bind (mkdir dst) (fun _ => rest) (mkWorld fs0 []) in
  (exists tools, log (snd r) = Mkdir dst :: tools /\ Forall is_spawn tools) /\
  match mkdir_parents dst fs0 with
  | Ok fs1 => fs (snd r) = fs1 /\ is_dir fs1 dst = true /\
              r = rest (mkWorld fs1 [Mkdir dst])
  | Raise e => r = (Raise e, mkWorld fs0 [Mkdir dst])
  end.
Proof.
  intros Hrest r. subst r.
  destruct (mkdir_parents dst fs0) as [fs1|e] eqn:Hmk.
  - rewrite (bind_ok _ _ _ _ _ (mkdir_ok dst (mkWorld fs0 []) fs1 Hmk)).
    destruct (Hrest (mkWorld fs1 ([] ++ [Mkdir dst]))) as (Hfs & l & Hlog & Hl).
    split; [by exists l|]. split; [done|]. split; [|done].
    by eapply mkdir_parents_dir.
  - rewrite (bind_raise _ _ _ _ _ (mkdir_raise dst (mkWorld fs0 []) e Hmk)).
    split; [|done]. exists []. by split.
Qed.

Lemma bind_value {A B} (m : M A) (k : A -> M B) w out :
  fst (bind m k w) = Ok out -> exists a w1, fst (k a w1) = Ok out.
Proof.
  unfold bind. destruct (m w) as [[a|e] w1]; [|done]. by exists a, w1.
Qed.

Lemma photo_suffix_slashless src :
  slashless (default EmptyString (head src)) = true ->
  slashless (match lower (suffix src) with
             | EmptyString => ".jpg"
             | s => s
             end) = true.
Proof.
  intros H. pose proof (slashless_lower _ (slashless_suffix _ H)) as Hs.
  by destruct (lower (suffix src)).
Qed.

Lemma video_suffix_slashless (s : string) :
  slashless (if String.eqb s ".mp4" || String.eqb s ".mov" || String.eqb s ".mkv"
             then s else ".mp4") = true.
Proof.
  destruct (String.eqb s ".mp4") eqn:H1; [by apply String.eqb_eq in H1 as ->|].
  destruct (String.eqb s ".mov") eqn:H2; [by apply String.eqb_eq in H2 as ->|].
  destruct (String.eqb s ".mkv") eqn:H3; [by apply String.eqb_eq in H3 as ->|].
  done.
Qed.

Lemma process_photo_makes_destination d :
  makes_destination (process_photo exec d).
Proof.
  intros src dst fs0. unfold process_photo.
  match goal with |- context [bind (mkdir dst) (fun _ => ?rest)] =>
    assert (tools_only rest) as Hrest end.
  { cbv zeta. apply tools_only_bind; [apply tools_only_lift|]. intros rotation.
    apply tools_only_bind; [apply tools_only_run_subprocess|]. intros _.
    apply tools_only_ret. }
  destruct (after_mkdir dst _ fs0 Hrest) as [Hlog Hmk].
  cbv zeta in Hlog, Hmk. cbv zeta. split; [exact Hlog|]. split.
  - destruct (mkdir_parents dst fs0) as [fs1|e]; [|exact Hmk].
    destruct Hmk as (H1 & H2 & _). by split.
  - intros out Hout Hsrc.
    destruct (mkdir_parents dst fs0) as [fs1|e]; [|by rewrite Hmk in Hout].
    destruct Hmk as (_ & _ & Hr). rewrite Hr in Hout.
    apply bind_value in Hout as (rotation & w1 & Hout).
    apply bind_ret_value in Hout as ->.
    destruct (output_name_inside dst (photo_uuid d) _ (photo_suffix_slashless src Hsrc))
      as [Hj Hn].
    eexists. split; [exact Hj|exact Hn].
Qed.

Lemma process_video_makes_destination d :
  makes_destination (process_video exec int_of_text d).
Proof.
  intros src dst fs0. unfold process_video.
  match goal with |- context [bind (mkdir dst) (fun _ => ?rest)] =>
    assert (tools_only rest) as Hrest end.
  { cbv zeta. apply tools_only_bind; [apply tools_only_probe_bitrate|]. intros bitrate.
    apply tools_only_bind; [apply tools_only_lift|]. intros target.
    apply tools_only_bind; [apply tools_only_probe_has_audio|]. intros has_audio.
    apply tools_only_bind; [apply tools_only_run_subprocess|]. intros _.
    apply tools_only_ret. }
  destruct (after_mkdir dst _ fs0 Hrest) as [Hlog Hmk].
  cbv zeta in Hlog, Hmk. cbv zeta. split; [exact Hlog|]. split.
  - destruct (mkdir_parents dst fs0) as [fs1|e]; [|exact Hmk].
    destruct Hmk as (H1 & H2 & _). by split.
  - intros out Hout Hsrc.
    destruct (mkdir_parents dst fs0) as [fs1|e]; [|by rewrite Hmk in Hout].
    destruct Hmk as (_ & _ & Hr). rewrite Hr in Hout.
    apply bind_value in Hout as (bitrate & w1 & Hout).
    apply bind_value in Hout as (target & w2 & Hout).
    apply bind_value in Hout as (has_audio & w3 & Hout).
    apply bind_ret_value in Hout as ->.
    destruct (output_name_inside dst (video_uuid d) _
                (video_suffix_slashless
                   (match lower (suffix src) with
                    | EmptyString => ".mp4"
                    | s => s
                    end))) as [Hj Hn].
    eexists. split; [exact Hj|exact Hn].
Qed.

(** C10.  [process_photo] and [process_video] make the destination
    directory first and start tools only after it; an existing destination
    directory is no error; missing parents are made, so that unless a file
    stands in the way the directory and its parents are there afterwards;
    and the path returned is a name inside the destination directory. *)
Theorem destination_made_before_tools dp dv :
  makes_destination (process_photo exec dp) /\
  makes_destination (process_video exec int_of_text dv) /\
  (forall dst fs0, is_dir fs0 dst = true -> mkdir_parents dst fs0 = Ok fs0) /\
  (forall dst fs0,
     (forall anc, anc `suffix_of` dst -> stat fs0 anc <> Some File) ->
     exists fs1, mkdir_parents dst fs0 = Ok fs1 /\ is_dir fs1 dst = true /\
       (wf_fs fs0 -> forall anc, anc `suffix_of` dst -> is_dir fs1 anc = true)).
Proof.
  split; [apply process_photo_makes_destination|].
  split; [apply process_video_makes_destination|].
  split; [intros dst fs0; apply mkdir_parents_existing|].
  intros dst fs0 Hfree. destruct (mkdir_parents_succeeds dst fs0 Hfree) as [fs1 Hmk].
  exists fs1. split; [done|]. split; [by eapply mkdir_parents_dir|].
  intros Hwf. apply wf_ancestors; [by eapply mkdir_parents_wf|by eapply mkdir_parents_dir].
Qed.
End Destination.

Section Transforms.


Lemma destination_made_before_tools_witness :
  exists fs1, mkdir_parents processed ∅ = Ok fs1 /\
    is_dir fs1 processed = true /\
    is_dir fs1 ["tmp"; "data"] = true /\ is_dir fs1 ["data"] = true.
Proof.
  destruct (destination_made_before_tools
              (ends_with (mkCompleted 0 EmptyString EmptyString)) int_decimal
              (mkPhotoDraws 2 0.25 0x1234) (mkVideoDraws 0.5 0.5 0.5 0x5678))
    as (_ & _ & _ & Hmk).
  destruct (Hmk processed ∅) as (fs1 & H1 & H2 & Hanc).
  { intros anc _. by destruct anc. }
  exists fs1. split; [done|]. split; [done|].
  assert (wf_fs ∅) as Hwf.
  { intros name parent H. exfalso. apply H.
    apply (lookup_empty (M := gmap Path) (A := node)). }
  split; apply (Hanc Hwf).
  - by exists ["processed"].
  - by exists ["processed"; "tmp"].
Defined.
End Transforms.

Section Reachable.
Implicit Types (p : MediaProcessor) (tr acts : list action) (job : MediaJob).

(** A property kept by every step that the events of a run can take holds
    at its end. *)
Lemma run_from_keeps (P : MediaProcessor -> list action -> Prop) (ok : event -> bool) :
  (forall p tr ev p' acts,
     ok ev = true -> P p tr -> step p ev = Some (p', acts) -> P p' (tr ++ acts)) ->
  forall evs p tr p' tr',
    Forall (fun ev => ok ev = true) evs ->
    P p tr -> run_from p tr evs = Some (p', tr') -> P p' tr'.
Proof.
  intros Hstep evs. induction evs as [|ev evs IH]; intros p tr p' tr' Hok HP; simpl.
  - by intros [= <- <-].
  - apply Forall_cons in Hok as [Hev Hok].
    destruct (step p ev) as [[p1 acts]|] eqn:Hs; [|done].
    apply IH; [done|]. by eapply Hstep.
Qed.

Lemma settle_frame job r p :
  let p1 := fst (settle job r p) in
  queue p1 = queue p /\ putters p1 = putters p /\
  unfinished_tasks p1 = unfinished_tasks p /\
  _worker_task p1 = _worker_task p /\ _shutdown p1 = _shutdown p /\
  maxsize p1 = maxsize p.
Proof. unfold settle. by destruct (done p (future job)). Qed.

Lemma counted_step p ev p' acts :
  counted p -> step p ev = Some (p', acts) -> counted p'.
Proof.
  unfold counted. intros Hc.
  destruct ev as [| |k s d|i| |out]; simpl.
  - intros [= <- <-].
    destruct p as [m q w u [[[| |j]|]|] [|] fs]; unfold in_flight in *; simpl in *; lia.
  - intros [= <- <-].
    destruct p as [m q w u [[[| |j]|]|] sd fs]; unfold in_flight in *; simpl in *; lia.
  - unfold _enqueue.
    change (full (set_futures (futures p ++ [Pending]) p)) with (full p).
    destruct (full p); intros [= <- <-]; unfold in_flight in *; simpl in *;
      rewrite ?length_app; simpl; lia.
  - unfold putter_resume. destruct (putters p !! i) as [job|]; [|done].
    destruct (full p); [done|]. intros [= <- <-].
    unfold in_flight in *; simpl in *. rewrite length_app. simpl. lia.
  - unfold worker_step.
    assert (forall j rest, queue p = j :: rest -> in_flight p = [] ->
              take j (set_queue rest p) = (p', acts) ->
              unfinished_tasks p'
              = Z.of_nat (length (in_flight p') + length (queue p'))) as Htake.
    { intros j rest Hq Hfl. rewrite Hq, Hfl in Hc. simpl in Hc.
      unfold take. destruct (known_kind (kind j)).
      - intros [= <- <-]. unfold in_flight. simpl. lia.
      - pose proof (settle_frame j (Raise (unknown_job (kind j))) (set_queue rest p))
          as (Hq1 & _ & Hu1 & _).
        destruct (settle _ _ _) as [p1 acts1]. simpl in *.
        intros [= <- <-]. unfold in_flight. simpl. rewrite Hu1, Hq1. lia. }
    destruct (_worker_task p) as [[[| |j]|]|] eqn:Hw; try done.
    + destruct (_shutdown p).
      { intros [= <- <-]. unfold in_flight in *. rewrite Hw in Hc. simpl in *. lia. }
      destruct (queue p) as [|j rest] eqn:Hq.
      { intros [= <- <-]. unfold in_flight in *. rewrite Hw in Hc. simpl in *.
        rewrite Hq. simpl. lia. }
      intros [= Ht]. eapply Htake; [done| |done]. unfold in_flight. by rewrite Hw.
    + destruct (queue p) as [|j rest] eqn:Hq; [done|].
      intros [= Ht]. eapply Htake; [done| |done]. unfold in_flight. by rewrite Hw.
  - unfold worker_finish.
    destruct (_worker_task p) as [[[| |j]|]|] eqn:Hw; try done.
    pose proof (settle_frame j out p) as (Hq1 & _ & Hu1 & _).
    destruct (settle j out p) as [p1 acts1]. simpl in *.
    intros [= <- <-]. unfold in_flight in *. rewrite Hw in Hc. simpl in *.
    rewrite Hu1, Hq1. lia.
Qed.

(** X1.  The counter behind [task_done()] and [join()]: in every state a run
    reaches it is the number of jobs queued or in flight, so it is never
    negative ([task_done()] is never called once too often) and it is zero
    exactly when the worker holds no job and the queue is empty. *)
Theorem unfinished_tasks_counts_jobs cap evs p tr :
  run (init cap) evs = Some (p, tr) ->
  unfinished_tasks p = Z.of_nat (length (in_flight p ++ queue p)) /\
  (0 <= unfinished_tasks p)%Z /\
  (unfinished_tasks p = 0%Z <-> in_flight p = [] /\ queue p = []).
Proof.
  intros Hrun.
  assert (counted p) as Hc.
  { apply (run_from_keeps (fun p _ => counted p) (fun _ => true)
             (fun p0 tr0 ev p1 acts _ => counted_step p0 ev p1 acts)
             evs (init cap) [] p tr); [by apply Forall_true|reflexivity|exact Hrun]. }
  unfold counted in Hc. rewrite length_app. split; [done|]. split; [lia|].
  split.
  - intros H0. rewrite H0 in Hc.
    destruct (in_flight p), (queue p); simpl in Hc; try lia. done.
  - intros [Hfl Hq]. by rewrite Hc, Hfl, Hq.
Qed.

Lemma unfinished_tasks_counts_jobs_witness :
  exists p tr, run (init 3) crowded = Some (p, tr) /\ unfinished_tasks p = 4%Z.
Proof.
  eexists _, _. split; [vm_compute; reflexivity|].
  edestruct (unfinished_tasks_counts_jobs 3 crowded) as [H _];
    [vm_compute; reflexivity|]. rewrite H. vm_compute. reflexivity.
Defined.
End Reachable.

Section BeforeStart.
Implicit Types (p : MediaProcessor) (tr acts : list action) (job : MediaJob).

Lemma unstarted_step p ev p' acts :
  is_start ev = false -> _worker_task p = None -> step p ev = Some (p', acts) ->
  _worker_task p' = None /\ dequeued acts = [] /\ settled acts = [] /\
  (Forall (fun f => f = Pending) (futures p) ->
   Forall (fun f => f = Pending) (futures p')).
Proof.
  intros Hev Hw. destruct ev as [| |k s d|i| |out]; simpl; try done.
  - intros [= <- <-]. unfold stop. simpl. by rewrite Hw.
  - unfold _enqueue. destruct (full _); intros [= <- <-]; simpl;
      (do 3 (split; [done|])); intros Hf; apply Forall_app; split; try done;
      by repeat constructor.
  - unfold putter_resume. destruct (putters p !! i); [|done].
    destruct (full p); [done|]. by intros [= <- <-].
  - unfold worker_step. by rewrite Hw.
  - unfold worker_finish. by rewrite Hw.
Qed.

(** X2.  Before [start()] nothing is served: however many jobs are submitted and
    whatever else happens, no worker exists, no job leaves the queue and
    every future is pending; the jobs that entered the queue are all still
    there, in order, and [start()] then launches the worker on that very
    queue with the shutdown flag cleared. *)
Theorem nothing_served_before_start cap evs p tr :
  Forall (fun ev => is_start ev = false) evs ->
  run (init cap) evs = Some (p, tr) ->
  _worker_task p = None /\ dequeued tr = [] /\ settled tr = [] /\
  Forall (fun f => f = Pending) (futures p) /\
  queue p = enqueued tr /\
  _worker_task (start p) = Some (Running LoopHead) /\
  _shutdown (start p) = false /\ queue (start p) = queue p /\
  futures (start p) = futures p.
Proof.
  intros Hevs Hrun.
  assert (_worker_task p = None /\ dequeued tr = [] /\ settled tr = [] /\
          Forall (fun f => f = Pending) (futures p)) as (Hw & Hd & Hs & Hf).
  { apply (run_from_keeps
             (fun p tr => _worker_task p = None /\ dequeued tr = [] /\
                          settled tr = [] /\ Forall (fun f => f = Pending) (futures p))
             (fun ev => negb (is_start ev))) with (evs := evs) (p := init cap) (tr := []).
    - intros p0 tr0 ev p1 acts Hev (Hw0 & Hd0 & Hs0 & Hf0) Hstep.
      apply negb_true_iff in Hev.
      destruct (unstarted_step _ _ _ _ Hev Hw0 Hstep) as (Hw1 & Hd1 & Hs1 & Hf1).
      rewrite dequeued_app, settled_app, Hd0, Hd1, Hs0, Hs1. auto.
    - eapply Forall_impl; [exact Hevs|]. simpl. by intros ev ->.
    - repeat split; constructor.
    - exact Hrun. }
  do 4 (split; [done|]).
  pose proof (inv_fifo _ _ (inv_run _ _ _ _ Hrun)) as Hfifo.
  rewrite Hd in Hfifo. simpl in Hfifo. split; [done|].
  unfold start. destruct p as [m q w u t [|] fs]; simpl in *; by subst.
Qed.

Lemma nothing_served_before_start_witness :
  exists p tr,
    run (init 3) [Enqueue "photo" photo_in processed; Stop;
                  Enqueue "video" video_in processed] = Some (p, tr) /\
    length (queue p) = 2 /\ settled tr = [] /\
    _worker_task (start p) = Some (Running LoopHead).
Proof.
  eexists _, _. do 2 (split; [vm_compute; reflexivity|]).
  edestruct (nothing_served_before_start 3
               [Enqueue "photo" photo_in processed; Stop;
                Enqueue "video" video_in processed])
    as (_ & _ & Hs & _ & _ & Hw & _);
    [repeat constructor|vm_compute; reflexivity|exact (conj Hs Hw)].
Defined.
End BeforeStart.

Section NoOrphan.
Implicit Types (p : MediaProcessor) (tr acts : list action) (job : MediaJob).

Lemma no_orphan_frame p p' :
  no_orphan p -> futures p' = futures p ->
  (forall job, job ∈ tracked p -> job ∈ tracked p') -> no_orphan p'.
Proof.
  intros Hno Hf Hsub fid Hfid. rewrite Hf in Hfid.
  destruct (Hno _ Hfid) as (job & Hin & Hjob). exists job. auto.
Qed.

Lemma no_orphan_grow p p' job :
  no_orphan p -> futures p' = futures p ++ [Pending] ->
  future job = length (futures p) -> job ∈ tracked p' ->
  (forall job', job' ∈ tracked p -> job' ∈ tracked p') -> no_orphan p'.
Proof.
  intros Hno Hf Hjob Hin Hsub fid Hfid. rewrite Hf in Hfid.
  apply lookup_app_Some in Hfid as [Hold|[Hlen Hnew]].
  - destruct (Hno _ Hold) as (job' & Hin' & Hjob'). exists job'. auto.
  - exists job. split; [done|].
    apply lookup_lt_Some in Hnew. simpl in Hnew. lia.
Qed.

Lemma no_orphan_settle p p' job r :
  no_orphan p -> futures p !! future job = Some Pending ->
  futures p' = <[future job := Finished r]> (futures p) ->
  (forall job', job' ∈ tracked p -> future job' <> future job -> job' ∈ tracked p') ->
  no_orphan p'.
Proof.
  intros Hno Hp Hf Hsub fid Hfid. rewrite Hf in Hfid.
  destruct (decide (fid = future job)) as [->|Hne].
  - rewrite list_lookup_insert_eq in Hfid; [done|]. by eapply lookup_lt_Some.
  - rewrite list_lookup_insert_ne in Hfid by done.
    destruct (Hno _ Hfid) as (job' & Hin' & Hjob'). exists job'.
    split; [|done]. apply Hsub; [done|]. by rewrite Hjob'.
Qed.

Lemma no_orphan_step p tr ev p' acts :
  is_stop ev = false -> Inv p tr -> no_orphan p -> step p ev = Some (p', acts) ->
  no_orphan p'.
Proof.
  intros Hev HI Hno. destruct ev as [| |k s d|i| |out]; simpl; try done.
  - intros [= <- <-]. apply (no_orphan_frame p); [done| |].
    + by destruct p as [m q w u [t|] [|] fs].
    + by destruct p as [m q w u [[[| |j]|]|] [|] fs].
  - unfold _enqueue.
    change (full (set_futures (futures p ++ [Pending]) p)) with (full p).
    destruct (full p); intros [= <- <-].
    + apply (no_orphan_grow p _ (mkJob k s d (length (futures p)))); [done|done|reflexivity| |]; unfold tracked, in_flight; simpl.
      * rewrite !elem_of_app. right. right. right. apply list_elem_of_here.
      * intros job'. rewrite !elem_of_app. tauto.
    + apply (no_orphan_grow p _ (mkJob k s d (length (futures p)))); [done|done|reflexivity| |]; unfold tracked, in_flight; simpl.
      * rewrite !elem_of_app. right. left. right. apply list_elem_of_here.
      * intros job'. rewrite !elem_of_app. tauto.
  - unfold putter_resume. destruct (putters p !! i) as [job|] eqn:Hi; [|done].
    destruct (full p); [done|]. intros [= <- <-].
    apply (no_orphan_frame p); [done|done|].
    unfold tracked, in_flight; simpl. intros job'.
    rewrite (delete_Permutation (putters p) i job Hi) at 1.
    rewrite !elem_of_app, elem_of_cons, list_elem_of_singleton. tauto.
  - unfold worker_step.
    assert (forall j rest, queue p = j :: rest -> in_flight p = [] ->
              take j (set_queue rest p) = (p', acts) -> no_orphan p') as Htake.
    { intros j rest Hq Hfl. unfold take. destruct (known_kind (kind j)).
      - intros [= <- <-]. apply (no_orphan_frame p); [done|done|].
        unfold tracked, in_flight in *. simpl. rewrite Hfl, Hq. by intros job'.
      - assert (futures p !! future j = Some Pending) as Hp.
        { apply (inv_pending _ _ HI). unfold tracked. rewrite Hq.
          rewrite !elem_of_app. right. left. apply list_elem_of_here. }
        rewrite (settle_pending j _ (set_queue rest p)) by done.
        intros [= <- <-]. eapply (no_orphan_settle p); [done|exact Hp|done|].
        unfold tracked, in_flight in *. simpl. rewrite Hfl, Hq. simpl.
        intros job'. rewrite elem_of_cons. intros [->|Hin] Hne; done. }
    destruct (_worker_task p) as [[[| |j]|]|] eqn:Hw; try done.
    + destruct (_shutdown p).
      { intros [= <- <-]. apply (no_orphan_frame p); [done|done|].
        unfold tracked, in_flight. simpl. by rewrite Hw. }
      destruct (queue p) as [|j rest] eqn:Hq.
      { intros [= <- <-]. apply (no_orphan_frame p); [done|done|].
        unfold tracked, in_flight. simpl. by rewrite Hw, Hq. }
      intros [= Ht]. eapply Htake; [done| |done]. unfold in_flight. by rewrite Hw.
    + destruct (queue p) as [|j rest] eqn:Hq; [done|].
      intros [= Ht]. eapply Htake; [done| |done]. unfold in_flight. by rewrite Hw.
  - unfold worker_finish.
    destruct (_worker_task p) as [[[| |j]|]|] eqn:Hw; try done.
    assert (futures p !! future j = Some Pending) as Hp.
    { apply (inv_pending _ _ HI). unfold tracked, in_flight. rewrite Hw.
      apply list_elem_of_here. }
    rewrite (settle_pending j out p) by done.
    intros [= <- <-]. eapply (no_orphan_settle p); [done|exact Hp|done|].
    unfold tracked, in_flight. simpl. rewrite Hw. simpl.
    intros job'. rewrite elem_of_cons. intros [->|Hin] Hne; done.
Qed.

(** X3.  As long as [stop()] is not called no job is lost: in every state such
    a run reaches, a future is pending exactly when its job is in flight, in
    the queue or with a producer suspended in [put], and it is finished
    exactly when the worker has settled it. *)
Theorem pending_future_has_its_job cap evs p tr :
  Forall (fun ev => is_stop ev = false) evs ->
  run (init cap) evs = Some (p, tr) ->
  forall fid,
    (futures p !! fid = Some Pending <->
     exists job, job ∈ in_flight p ++ queue p ++ putters p /\ future job = fid) /\
    (fid < length (futures p) ->
     (exists job, job ∈ in_flight p ++ queue p ++ putters p /\ future job = fid) \/
     (exists r, Settled fid r ∈ tr)).
Proof.
  intros Hevs Hrun.
  assert (Inv p tr /\ no_orphan p) as [HI Hno].
  { apply (run_from_keeps (fun p tr => Inv p tr /\ no_orphan p)
             (fun ev => negb (is_stop ev))) with (evs := evs) (p := init cap) (tr := []).
    - intros p0 tr0 ev p1 acts Hev [HI0 Hno0] Hstep. apply negb_true_iff in Hev.
      split; [by eapply inv_step|by eapply no_orphan_step].
    - eapply Forall_impl; [exact Hevs|]. simpl. by intros ev ->.
    - split; [apply inv_init|]. intros fid Hfid. simpl in Hfid. by rewrite lookup_nil in Hfid.
    - exact Hrun. }
  intros fid. split.
  - split; [apply Hno|]. intros (job & Hin & <-). by apply (inv_pending _ _ HI).
  - intros Hlt. apply lookup_lt_is_Some in Hlt as [[|r] Hf].
    + left. by apply Hno.
    + right. exists r. by apply (inv_only _ _ HI).
Qed.

Lemma pending_future_has_its_job_witness :
  exists p tr, run (init 3) crowded = Some (p, tr) /\
    exists job, job ∈ in_flight p ++ queue p ++ putters p /\ future job = 4.
Proof.
  eexists _, _. split; [vm_compute; reflexivity|].
  edestruct (pending_future_has_its_job 3 crowded) as [[H _] _];
    [repeat constructor|vm_compute; reflexivity|].
  apply H. vm_compute. reflexivity.
Defined.
End NoOrphan.

Section Idempotent.
Implicit Types (p : MediaProcessor).

(** X4.  [start()] and [stop()] can be repeated: a second [start()] makes no
    second worker and a second [stop()] changes nothing; neither touches the
    queue, the suspended producers or a future. *)
Theorem start_stop_idempotent p :
  start (start p) = start p /\ stop (stop p) = stop p /\
  queue (start p) = queue p /\ putters (start p) = putters p /\
  futures (start p) = futures p /\
  (_worker_task p <> None -> _worker_task (start p) = _worker_task p).
Proof.
  destruct p as [m q w u [[[| |j]|]|] [|] fs]; by repeat split.
Qed.
End Idempotent.

Section Suffix.

Lemma rfind_dot_dotless s : forall i last,
  dotless s = true -> rfind_dot s i last = last.
Proof.
  induction s as [|c s IH]; intros i last; simpl; [done|].
  intros [Hc Hs]%andb_prop. apply negb_true_iff in Hc. rewrite Hc. by apply IH.
Qed.

Lemma rfind_dot_last pre t : forall i last,
  dotless t = true ->
  rfind_dot (pre +:+ String "." t) i last = Some (i + String.length pre)%nat.
Proof.
  induction pre as [|c pre IH]; intros i last Ht; simpl.
  - rewrite rfind_dot_dotless by done. f_equal. lia.
  - rewrite IH by done. f_equal. lia.
Qed.

Lemma substring_all s : String.substring 0 (String.length s) s = s.
Proof. induction s as [|c s IH]; simpl; [done|]. by rewrite IH. Qed.

Lemma substring_skip pre s n :
  String.substring (String.length pre) n (pre +:+ s) = String.substring 0 n s.
Proof. induction pre as [|c pre IH]; simpl; [done|]. apply IH. Qed.

(** [rfind] finds the last dot: what stands before it and the dotless part
    that follows. *)
Lemma rfind_dot_split s : forall i last j,
  rfind_dot s i last = Some j ->
  last = Some j /\ dotless s = true \/
  exists pre t, s = pre +:+ String "." t /\ j = (i + String.length pre)%nat /\
                dotless t = true.
Proof.
  induction s as [|c s IH]; intros i last j; simpl.
  - intros ->. by left.
  - intros H. destruct (IH _ _ _ H) as [[Hl Hs]|(pre & t & -> & -> & Ht)].
    + destruct (Ascii.eqb c ".") eqn:Hc.
      * right. exists EmptyString, s. apply Ascii.eqb_eq in Hc as ->.
        injection Hl as <-. simpl. split; [done|]. split; [lia|done].
      * left. simpl. by rewrite Hs.
    + right. exists (String c pre), t. simpl. split; [done|]. split; [lia|done].
Qed.

(** The suffix of a path is empty or has the shape of a suffix. *)
Lemma suffix_shape p : suffix p = EmptyString \/ is_suffix (suffix p).
Proof.
  unfold suffix. set (name := default EmptyString (head p)).
  destruct (rfind_dot name 0 None) as [j|] eqn:Hr; [|by left].
  destruct (_ && _) eqn:Hc; [|by left]. right.
  apply andb_prop in Hc as [Hj Hlen].
  apply Nat.ltb_lt in Hj. apply Nat.ltb_lt in Hlen.
  destruct (rfind_dot_split _ _ _ _ Hr) as [[? _]|(pre & t & Hn & -> & Ht)]; [done|].
  rewrite Hn in *. rewrite length_app_string in *. simpl in *.
  exists t. rewrite substring_skip.
  replace (String.length pre + S (String.length t) - String.length pre)%nat
    with (String.length (String "." t)) by (simpl; lia).
  rewrite substring_all. split; [done|]. split; [|done].
  intros ->. simpl in Hlen. lia.
Qed.

(** A name made of a stem and a suffix has that suffix. *)
Lemma suffix_of_name stem s dir :
  stem <> EmptyString -> is_suffix s -> suffix ((stem +:+ s) :: dir) = s.
Proof.
  intros Hstem (t & -> & Ht & Hd). unfold suffix. simpl.
  rewrite rfind_dot_last by done. simpl.
  rewrite length_app_string. simpl.
  assert (0 < String.length stem)%nat as Hpos by (destruct stem; [done|simpl; lia]).
  assert (0 < String.length t)%nat as Hpos' by (destruct t; [done|simpl; lia]).
  replace (0 <? String.length stem)%nat with true by (symmetry; apply Nat.ltb_lt; lia).
  replace (String.length stem <? String.length stem + S (String.length t) - 1)%nat
    with true by (symmetry; apply Nat.ltb_lt; lia).
  simpl. rewrite substring_skip.
  replace (String.length stem + S (String.length t) - String.length stem)%nat
    with (String.length (String "." t)) by (simpl; lia).
  apply substring_all.
Qed.

Lemma lower_ascii_dot a : Ascii.eqb (lower_ascii a) "." = Ascii.eqb a ".".
Proof. destruct a as [[] [] [] [] [] [] [] []]; vm_compute; reflexivity. Qed.

Lemma dotless_lower s : dotless (lower s) = dotless s.
Proof. induction s as [|c s IH]; simpl; [done|]. by rewrite lower_ascii_dot, IH. Qed.

Lemma is_suffix_lower s : is_suffix s -> is_suffix (lower s).
Proof.
  intros (t & -> & Ht & Hd). exists (lower t). split; [done|].
  split; [by destruct t|]. by rewrite dotless_lower.
Qed.

Lemma lower_ascii_idemp a : lower_ascii (lower_ascii a) = lower_ascii a.
Proof. destruct a as [[] [] [] [] [] [] [] []]; vm_compute; reflexivity. Qed.

Lemma lower_idemp s : lower (lower s) = lower s.
Proof. induction s as [|c s IH]; simpl; [done|]. by rewrite lower_ascii_idemp, IH. Qed.

End Suffix.

Section Outcomes.
Variable exec : list arg -> result Completed.
Variable int_of_text : str -> option Z.

Lemma bind_at {A B} (m : M A) (k : A -> M B) w r w1 :
  m w = (r, w1) ->
  bind m k w = match r with Ok a => k a w1 | Raise e => (Raise e, w1) end.
Proof. unfold bind. by intros ->. Qed.

Lemma run_subprocess_at cmd w :
  _run_subprocess exec cmd w
  = (fst (_run_subprocess exec cmd nowhere), mkWorld (fs w) (log w ++ [Spawn cmd])).
Proof.
  unfold _run_subprocess, bind, spawn, lift, raise, ret.
  destruct (exec cmd) as [process|e]; simpl; [|done].
  destruct (_ =? _)%Z; simpl; [done|].
  destruct (decode (stderr process)) as [err|e]; simpl; [|done].
  destruct (strip err); simpl; [|done].
  by destruct (decode (stdout process)).
Qed.

Lemma probe_bitrate_at path w :
  _probe_bitrate exec int_of_text path w
  = (fst (_probe_bitrate exec int_of_text path nowhere),
     mkWorld (fs w) (log w ++ [Spawn (bitrate_probe path)])).
Proof.
  unfold _probe_bitrate, bind, spawn, lift, raise, ret, bitrate_probe.
  destruct (exec _) as [process|e]; simpl; [|done].
  destruct (_ =? _)%Z; simpl; [|done].
  destruct (decode (stdout process)) as [text|e]; simpl.
  - by destruct (int_of_text (strip text)).
  - by destruct (is_ValueError e).
Qed.

Lemma probe_has_audio_at path w :
  _probe_has_audio exec path w
  = (fst (_probe_has_audio exec path nowhere),
     mkWorld (fs w) (log w ++ [Spawn (audio_probe path)])).
Proof.
  unfold _probe_has_audio, bind, spawn, lift, raise, ret, audio_probe.
  destruct (exec _) as [process|e]; simpl; [|done].
  destruct (stdout process); simpl; [done|].
  by destruct (decode _).
Qed.

Lemma run_subprocess_zero cmd w :
  fst (_run_subprocess exec cmd w) = Ok tt <-> succeeded exec cmd.
Proof.
  rewrite run_subprocess_at. simpl.
  unfold succeeded, _run_subprocess, bind, spawn, lift, raise, ret. simpl.
  destruct (exec cmd) as [process|e]; simpl.
  - destruct (Z.eqb_spec (returncode process) 0) as [H0|H0]; simpl.
    + split; [|done]. intros _. by exists process.
    + split.
      * destruct (decode (stderr process)) as [err|e]; simpl; [|done].
        destruct (strip err); simpl; [|done].
        by destruct (decode (stdout process)).
      * intros (process' & [= <-] & Hrc). done.
  - split; [done|]. by intros (process' & ? & _).
Qed.

(** X5.  [_run_subprocess] returns exactly when the tool ran and exited with 0;
    what the tool printed is not even decoded then.  After any other exit
    it raises: a [MediaProcessingError] that carries the exit code and the
    stripped text of [stderr], or of [stdout] when [stderr] is blank, or a
    [UnicodeDecodeError] when the text it needs is not UTF-8. *)
Theorem run_subprocess_raises_unless_zero cmd w :
  (fst (_run_subprocess exec cmd w) = Ok tt <-> succeeded exec cmd) /\
  (forall process, exec cmd = Ok process -> returncode process <> 0%Z ->
     match decode (stderr process) with
     | Raise _ => fst (_run_subprocess exec cmd w) = Raise UnicodeDecodeError
     | Ok err =>
         if decide (strip err = []) then
           match decode (stdout process) with
           | Raise _ => fst (_run_subprocess exec cmd w) = Raise UnicodeDecodeError
           | Ok out =>
               fst (_run_subprocess exec cmd w)
               = Raise (MediaProcessingError
                          (ToolExited (returncode process) (strip out)))
           end
         else fst (_run_subprocess exec cmd w)
              = Raise (MediaProcessingError
                         (ToolExited (returncode process) (strip err)))
     end) /\
  (forall e, exec cmd = Raise e -> fst (_run_subprocess exec cmd w) = Raise e) /\
  snd (_run_subprocess exec cmd w) = mkWorld (fs w) (log w ++ [Spawn cmd]).
Proof.
  split; [apply run_subprocess_zero|].
  rewrite run_subprocess_at. simpl.
  unfold _run_subprocess, bind, spawn, lift, raise, ret. simpl.
  split; [|split].
  - intros process -> Hrc. simpl.
    destruct (Z.eqb_spec (returncode process) 0) as [H0|H0]; [done|]. simpl.
    destruct (decode (stderr process)) as [err|e] eqn:Herr; simpl.
    + destruct (decide (strip err = [])) as [->|Hne]; simpl.
      * destruct (decode (stdout process)) as [out|e] eqn:Hout; simpl; [done|].
        unfold decode in Hout. destruct (utf8 _); [done|]. by injection Hout as <-.
      * by destruct (strip err).
    + unfold decode in Herr. destruct (utf8 _); [done|]. by injection Herr as <-.
  - by intros e ->.
  - done.
Qed.

Example run_subprocess_reports_stderr :
  fst (_run_subprocess (ends_with (mkCompleted 1 EmptyString "Invalid data"))
         [Lit "ffmpeg"] nowhere)
  = Raise (MediaProcessingError
             (ToolExited 1 [73; 110; 118; 97; 108; 105; 100; 32; 100; 97; 116; 97]%N)).
Proof. vm_compute. reflexivity. Qed.
End Outcomes.

Section Commands.
Variable exec : list arg -> result Completed.
Variable int_of_text : str -> option Z.

Lemma ltb_leb (x y : float) : (x <? y)%float = true -> (x <=? y)%float = true.
Proof.
  rewrite ltb_spec, leb_spec. unfold SFltb, SFleb.
  by destruct (SFcompare _ _) as [[| |]|].
Qed.

(** The speed factor is clamped: whatever [random()] returns, a number or
    not, it lies between 0.98 and 1.02. *)
Lemma speed_factor_clamped d :
  (0.98 <=? speed_factor d)%float = true /\ (speed_factor d <=? 1.02)%float = true.
Proof.
  unfold speed_factor, fmax, fmin.
  destruct (_ <? 1.02)%float eqn:Hhi.
  - destruct (0.98 <? _)%float eqn:Hlo.
    + split; by apply ltb_leb.
    + split; vm_compute; reflexivity.
  - destruct (0.98 <? 1.02)%float; split; vm_compute; reflexivity.
Qed.

Lemma video_suffix_cases src :
  video_suffix src ∈ [".mp4"; ".mov"; ".mkv"] /\
  (lower (suffix src) ∈ [".mp4"; ".mov"; ".mkv"] ->
   video_suffix src = lower (suffix src)) /\
  (lower (suffix src) ∉ [".mp4"; ".mov"; ".mkv"] -> video_suffix src = ".mp4").
Proof.
  unfold video_suffix. rewrite !elem_of_cons.
  destruct (lower (suffix src)) as [|c s] eqn:Hs.
  - simpl. split; [by left|]. split; [|done].
    intros [H|[H|[H|H%elem_of_nil]]]; done.
  - remember (String c s) as x eqn:Hx. clear Hx.
    destruct (String.eqb x ".mp4") eqn:H1; cbn [orb].
    { apply String.eqb_eq in H1. rewrite H1. split; [by left|]. split; [done|].
      intros H. exfalso. apply H. by left. }
    destruct (String.eqb x ".mov") eqn:H2; cbn [orb].
    { apply String.eqb_eq in H2. rewrite H2. split; [right; by left|]. split; [done|].
      intros H. exfalso. apply H. right. by left. }
    destruct (String.eqb x ".mkv") eqn:H3; cbn [orb].
    { apply String.eqb_eq in H3. rewrite H3. split; [right; right; by left|].
      split; [done|]. intros H. exfalso. apply H. right. right. by left. }
    apply String.eqb_neq in H1, H2, H3.
    split; [by left|]. split; [|done].
    intros [H|[H|[H|H%elem_of_nil]]]; done.
Qed.

Lemma is_suffix_slashless_video src : slashless (video_suffix src) = true.
Proof.
  destruct (video_suffix_cases src) as [H _].
  rewrite !elem_of_cons in H.
  destruct H as [->|[->|[->|H%elem_of_nil]]]; done.
Qed.

Lemma is_suffix_video src : is_suffix (video_suffix src).
Proof.
  destruct (video_suffix_cases src) as [H _].
  rewrite !elem_of_cons in H.
  destruct H as [->|[->|[->|H%elem_of_nil]]]; [| | |done];
    eexists; (split; [reflexivity|]); by split.
Qed.

Lemma is_suffix_photo src : is_suffix (photo_suffix src).
Proof.
  unfold photo_suffix. destruct (suffix_shape src) as [->|Hs].
  - simpl. exists "jpg". by split.
  - apply is_suffix_lower in Hs. destruct Hs as (t & Ht & Hne & Hd).
    rewrite Ht. exists t. by split.
Qed.

Lemma hex_nonempty u : hex 32 u <> EmptyString.
Proof.
  intros H. pose proof (length_hex 32 u) as Hl. rewrite H in Hl. simpl in Hl. lia.
Qed.

(** What [process_video] does once the destination is there:
    the two probes, then one run of ffmpeg. *)
Lemma process_video_run d src dst fs0 fs1 :
  mkdir_parents dst fs0 = Ok fs1 ->
  process_video exec int_of_text d src dst (mkWorld fs0 [])
  = match fst (_probe_bitrate exec int_of_text src nowhere) with
    | Raise e => (Raise e, mkWorld fs1 [Mkdir dst; Spawn (bitrate_probe src)])
    | Ok bitrate =>
        match target_bitrate bitrate (uniform (-0.05) 0.05 (bitrate_random d)) with
        | Raise e => (Raise e, mkWorld fs1 [Mkdir dst; Spawn (bitrate_probe src)])
        | Ok target =>
            match fst (_probe_has_audio exec src nowhere) with
            | Raise e =>
                (Raise e, mkWorld fs1 [Mkdir dst; Spawn (bitrate_probe src);
                                       Spawn (audio_probe src)])
            | Ok has_audio =>
                let cmd := video_command d src dst target has_audio in
                (match fst (_run_subprocess exec cmd nowhere) with
                 | Ok _ => Ok (joinpath dst (hex 32 (video_uuid d) +:+ video_suffix src))
                 | Raise e => Raise e
                 end,
                 mkWorld fs1 [Mkdir dst; Spawn (bitrate_probe src);
                              Spawn (audio_probe src); Spawn cmd])
            end
        end
    end.
Proof.
  intros Hmk. unfold process_video.
  rewrite (bind_ok _ _ _ _ _ (mkdir_ok dst (mkWorld fs0 []) fs1 Hmk)).
  cbv zeta. rewrite (bind_at _ _ _ _ _ (probe_bitrate_at exec int_of_text src _)).
  destruct (fst (_probe_bitrate exec int_of_text src nowhere)) as [bitrate|e]; [|done].
  unfold lift at 1.
  rewrite (bind_at _ _ (mkWorld _ _) _ _ eq_refl).
  destruct (target_bitrate bitrate _) as [target|e]; [|done].
  rewrite (bind_at _ _ _ _ _ (probe_has_audio_at exec src _)).
  destruct (fst (_probe_has_audio exec src nowhere)) as [has_audio|e]; [|done].
  rewrite (bind_at _ _ _ _ _ (run_subprocess_at exec _ _)).
  fold (speed_factor d). fold (video_suffix src).
  change ([Lit "ffmpeg"; Lit "-y"; Lit "-hide_banner"; Lit "-loglevel"; Lit "error";
           Lit "-i"; OfPath src; Lit "-map_metadata"; Lit "-1"; Lit "-vf";
           Filters [Setpts (1 / speed_factor d);
                    Gamma (1 + uniform (-0.01) 0.01 (gamma_random d))];
           Lit "-c:v"; Lit "libx264"; Lit "-preset"; Lit "medium";
           Lit "-b:v"; OfInt target; Lit "-movflags"; Lit "+faststart"]
          ++ (if has_audio
              then [Lit "-c:a"; Lit "aac"; Lit "-b:a"; Lit "192k";
                    Lit "-af"; Atempo (speed_factor d)]
              else [Lit "-an"])
          ++ [OfPath (joinpath dst (hex 32 (video_uuid d) +:+ video_suffix src))])
    with (video_command d src dst target has_audio).
  cbv zeta.
  by destruct (fst (_run_subprocess exec (video_command d src dst target has_audio) nowhere)).
Qed.

(** The same for [process_photo]: one run of ffmpeg. *)
Lemma process_photo_run d src dst fs0 fs1 rotation :
  mkdir_parents dst fs0 = Ok fs1 ->
  choice rotations (rotation_index d) = Ok rotation ->
  process_photo exec d src dst (mkWorld fs0 [])
  = let cmd := photo_command d src dst rotation in
    (match fst (_run_subprocess exec cmd nowhere) with
     | Ok _ => Ok (joinpath dst (hex 32 (photo_uuid d) +:+ photo_suffix src))
     | Raise e => Raise e
     end, mkWorld fs1 [Mkdir dst; Spawn cmd]).
Proof.
  intros Hmk Hrot. unfold process_photo.
  rewrite (bind_ok _ _ _ _ _ (mkdir_ok dst (mkWorld fs0 []) fs1 Hmk)).
  cbv zeta. unfold lift at 1.
  rewrite (bind_at _ _ (mkWorld _ _) _ _ eq_refl). rewrite Hrot.
  rewrite (bind_at _ _ _ _ _ (run_subprocess_at exec _ _)).
  fold (photo_suffix src). unfold photo_command. fold (photo_suffix src). cbv zeta.
  by destruct (fst (_run_subprocess exec _ nowhere)).
Qed.
End Commands.

Ltac no_such_arg :=
  repeat match goal with
         | H : _ \/ _ |- _ => destruct H as [H|H]
         | H : _ ∈ _ ++ _ |- _ => apply elem_of_app in H
         | H : _ ∈ _ :: _ |- _ => apply elem_of_cons in H
         | H : _ ∈ [] |- _ => by apply elem_of_nil in H
         | H : @eq arg _ _ |- _ => discriminate H
         | H : @eq effect _ _ |- _ => discriminate H
         end.

Ltac find_arg :=
  first [ apply list_elem_of_here
        | apply list_elem_of_further; find_arg
        | apply elem_of_app; left; find_arg
        | apply elem_of_app; right; find_arg ].

Section ToolRuns.
Variable exec : list arg -> result Completed.
Variable int_of_text : str -> option Z.

Lemma run_subprocess_succeeded cmd (path out : Path) :
  (match fst (_run_subprocess exec cmd nowhere) with
   | Ok _ => Ok path
   | Raise e => Raise e
   end = Ok out) -> succeeded exec cmd.
Proof.
  destruct (fst (_run_subprocess exec cmd nowhere)) as [[]|e] eqn:Hr; [|done].
  intros _. by apply (run_subprocess_zero exec cmd nowhere).
Qed.

Lemma process_photo_failed_choice d src dst fs0 fs1 e :
  mkdir_parents dst fs0 = Ok fs1 ->
  choice rotations (rotation_index d) = Raise e ->
  process_photo exec d src dst (mkWorld fs0 []) = (Raise e, mkWorld fs1 [Mkdir dst]).
Proof.
  intros Hmk Hrot. unfold process_photo.
  rewrite (bind_ok _ _ _ _ _ (mkdir_ok dst (mkWorld fs0 []) fs1 Hmk)).
  cbv zeta. unfold lift at 1.
  rewrite (bind_at _ _ (mkWorld _ _) _ _ eq_refl). by rewrite Hrot.
Qed.

Lemma process_video_failed_mkdir d src dst fs0 e :
  mkdir_parents dst fs0 = Raise e ->
  process_video exec int_of_text d src dst (mkWorld fs0 [])
  = (Raise e, mkWorld fs0 [Mkdir dst]).
Proof.
  intros Hmk. unfold process_video.
  by rewrite (bind_raise _ _ _ _ _ (mkdir_raise dst (mkWorld fs0 []) e Hmk)).
Qed.

Lemma plain_substring s : forall n m,
  plain s = true -> plain (String.substring n m s) = true.
Proof.
  induction s as [|c s IH]; intros n m; simpl.
  - by destruct n, m.
  - intros [Hc Hs]%andb_prop. destruct n as [|n].
    + destruct m as [|m]; [done|]. simpl. by rewrite Hc, IH.
    + by apply IH.
Qed.

Lemma plain_lower_ascii a :
  (N_of_ascii (lower_ascii a) <? 128)%N = (N_of_ascii a <? 128)%N.
Proof. destruct a as [[] [] [] [] [] [] [] []]; vm_compute; reflexivity. Qed.

Lemma plain_lower s : plain (lower s) = plain s.
Proof. induction s as [|c s IH]; simpl; [done|]. by rewrite plain_lower_ascii, IH. Qed.

Lemma plain_suffix p :
  plain (default EmptyString (head p)) = true -> plain (suffix p) = true.
Proof.
  intros H. unfold suffix. destruct (rfind_dot _ _ _); [|done].
  destruct (_ && _); [|done]. by apply plain_substring.
Qed.

(** The suffix [process_photo] writes is ASCII when the name of the source
    is. *)
Lemma plain_photo_suffix src :
  plain (default EmptyString (head src)) = true -> plain (photo_suffix src) = true.
Proof.
  intros H. apply plain_suffix in H. rewrite <-plain_lower in H.
  unfold photo_suffix. by destruct (lower (suffix src)).
Qed.

(** What stands behind a path returned by [process_photo]. *)
Lemma process_photo_output d src dst fs0 out :
  fst (process_photo exec d src dst (mkWorld fs0 [])) = Ok out ->
  exists fs1 rotation,
    mkdir_parents dst fs0 = Ok fs1 /\
    choice rotations (rotation_index d) = Ok rotation /\
    succeeded exec (photo_command d src dst rotation) /\
    out = joinpath dst (hex 32 (photo_uuid d) +:+ photo_suffix src).
Proof.
  intros Hout.
  destruct (mkdir_parents dst fs0) as [fs1|e] eqn:Hmk;
    [|by rewrite (process_photo_log_failed exec d src dst fs0 e Hmk) in Hout].
  destruct (choice rotations (rotation_index d)) as [rotation|e] eqn:Hrot;
    [|by rewrite (process_photo_failed_choice d src dst fs0 fs1 e Hmk Hrot) in Hout].
  exists fs1, rotation. do 2 (split; [done|]).
  rewrite (process_photo_run exec d src dst fs0 fs1 rotation Hmk Hrot) in Hout.
  cbv zeta in Hout. cbn [fst] in Hout.
  split; [by eapply run_subprocess_succeeded|].
  destruct (fst (_run_subprocess exec _ nowhere)); congruence.
Qed.

(** X6.  For a source whose name is ASCII: [process_photo] returns a path
    only after ffmpeg ran on it and exited with 0, and the one tool it
    started is ffmpeg with that path as its last argument.  The file stands
    in the destination directory under the UUID's 32 hex digits and the
    lower-cased suffix of the source ([.jpg] when the source has none),
    which is ASCII again, and the codec is [png] exactly when that suffix
    is [.png]. *)
Theorem process_photo_returns_after_success d src dst fs0 out :
  plain (default EmptyString (head src)) = true ->
  fst (process_photo exec d src dst (mkWorld fs0 [])) = Ok out ->
  exists rotation,
    let cmd := photo_command d src dst rotation in
    log (snd (process_photo exec d src dst (mkWorld fs0 []))) = [Mkdir dst; Spawn cmd] /\
    succeeded exec cmd /\
    last cmd = Some (OfPath out) /\
    out = joinpath dst (hex 32 (photo_uuid d) +:+ photo_suffix src) /\
    (Lit "png" ∈ cmd <-> photo_suffix src = ".png") /\
    (Lit "mjpeg" ∈ cmd <-> photo_suffix src <> ".png") /\
    (slashless (default EmptyString (head src)) = true ->
     out = (hex 32 (photo_uuid d) +:+ photo_suffix src) :: dst /\
     suffix out = photo_suffix src /\
     plain (suffix out) = true).
Proof.
  intros Hplain Hout.
  destruct (process_photo_output d src dst fs0 out Hout)
    as (fs1 & rotation & Hmk & Hrot & Hok & ->).
  exists rotation. intros cmd.
  rewrite (process_photo_run exec d src dst fs0 fs1 rotation Hmk Hrot).
  cbv zeta. cbn [fst snd log]. fold cmd.
  split; [reflexivity|]. split; [done|].
  split; [reflexivity|]. split; [reflexivity|].
  subst cmd. unfold photo_command. fold (photo_suffix src).
  split; [|split].
  - rewrite !elem_of_cons. destruct (String.eqb_spec (photo_suffix src) ".png") as [Hp|Hp].
    + split; [done|]. intros _. do 12 right. by left.
    + split; [|done]. destruct (_ || _);
        intros H; repeat (destruct H as [H|H]; [discriminate H|]);
        by apply elem_of_nil in H.
  - rewrite !elem_of_cons. destruct (String.eqb_spec (photo_suffix src) ".png") as [Hp|Hp].
    + split; [|done]. intros H. repeat (destruct H as [H|H]; [discriminate H|]).
      by apply elem_of_nil in H.
    + split; [done|]. intros _. do 12 right. left. by destruct (_ || _).
  - intros Hsrc.
    destruct (output_name_inside dst (photo_uuid d) (photo_suffix src)) as [Hj _].
    { apply (photo_suffix_slashless src Hsrc). }
    rewrite Hj. split; [done|].
    assert (suffix ((hex 32 (photo_uuid d) +:+ photo_suffix src) :: dst)
            = photo_suffix src) as ->
      by (apply suffix_of_name; [apply hex_nonempty|apply is_suffix_photo]).
    split; [done|]. by apply plain_photo_suffix.
Qed.

Lemma last_video_command d src dst target has_audio :
  last (video_command d src dst target has_audio)
  = Some (OfPath (joinpath dst (hex 32 (video_uuid d) +:+ video_suffix src))).
Proof. unfold video_command. by rewrite app_assoc, last_snoc. Qed.

Lemma target_bitrate_at_least bitrate delta target :
  target_bitrate bitrate delta = Ok target -> (300000 <= target)%Z.
Proof.
  intros H. destruct (target_bitrate_floor bitrate delta) as [Hm _].
  by rewrite H in Hm.
Qed.

(** What stands behind a path returned by [process_video]. *)
Lemma process_video_output d src dst fs0 out :
  fst (process_video exec int_of_text d src dst (mkWorld fs0 [])) = Ok out ->
  exists fs1 bitrate target has_audio,
    mkdir_parents dst fs0 = Ok fs1 /\
    fst (_probe_bitrate exec int_of_text src nowhere) = Ok bitrate /\
    target_bitrate bitrate (uniform (-0.05) 0.05 (bitrate_random d)) = Ok target /\
    fst (_probe_has_audio exec src nowhere) = Ok has_audio /\
    succeeded exec (video_command d src dst target has_audio) /\
    out = (hex 32 (video_uuid d) +:+ video_suffix src) :: dst /\
    suffix out = video_suffix src.
Proof.
  intros Hout.
  destruct (mkdir_parents dst fs0) as [fs1|e] eqn:Hmk;
    [|by rewrite (process_video_failed_mkdir d src dst fs0 e Hmk) in Hout].
  rewrite (process_video_run exec int_of_text d src dst fs0 fs1 Hmk) in Hout.
  destruct (fst (_probe_bitrate exec int_of_text src nowhere)) as [bitrate|e]; [|done].
  destruct (target_bitrate bitrate _) as [target|e] eqn:Ht; [|done].
  destruct (fst (_probe_has_audio exec src nowhere)) as [has_audio|e]; [|done].
  exists fs1, bitrate, target, has_audio. do 4 (split; [done|]).
  cbv zeta in Hout. cbn [fst] in Hout.
  split; [by eapply run_subprocess_succeeded|].
  destruct (output_name_inside dst (video_uuid d) (video_suffix src)
              (is_suffix_slashless_video src)) as [Hj _].
  assert (out = (hex 32 (video_uuid d) +:+ video_suffix src) :: dst) as ->.
  { rewrite <-Hj. destruct (fst (_run_subprocess exec _ nowhere)); congruence. }
  split; [done|]. apply suffix_of_name; [apply hex_nonempty|apply is_suffix_video].
Qed.

(** X7.  For a source whose name is ASCII: [process_video] returns a path
    only after ffmpeg ran on it and exited with 0.  By then it has started exactly three tools, in this order: the
    bitrate probe, the audio probe and ffmpeg, whose last argument is the
    path returned and whose bitrate is at least 300000.  The file stands in
    the destination directory under the UUID's 32 hex digits with the
    suffix [.mp4], [.mov] or [.mkv]: that of the source when it is one of
    these, in any case of letters, and [.mp4] otherwise. *)
Theorem process_video_returns_after_success d src dst fs0 out :
  plain (default EmptyString (head src)) = true ->
  fst (process_video exec int_of_text d src dst (mkWorld fs0 [])) = Ok out ->
  exists target has_audio,
    let cmd := video_command d src dst target has_audio in
    log (snd (process_video exec int_of_text d src dst (mkWorld fs0 [])))
    = [Mkdir dst; Spawn (bitrate_probe src); Spawn (audio_probe src); Spawn cmd] /\
    succeeded exec cmd /\
    last cmd = Some (OfPath out) /\
    OfInt target ∈ cmd /\ (300000 <= target)%Z /\
    out = (hex 32 (video_uuid d) +:+ video_suffix src) :: dst /\
    suffix out = video_suffix src /\
    suffix out ∈ [".mp4"; ".mov"; ".mkv"] /\
    (lower (suffix src) ∈ [".mp4"; ".mov"; ".mkv"] -> suffix out = lower (suffix src)) /\
    plain (lower (suffix src)) = true.
Proof.
  intros Hplain Hout.
  destruct (process_video_output d src dst fs0 out Hout)
    as (fs1 & bitrate & target & has_audio & Hmk & Hb & Ht & Ha & Hok & -> & Hsfx).
  exists target, has_audio. intros cmd.
  rewrite (process_video_run exec int_of_text d src dst fs0 fs1 Hmk), Hb, Ht, Ha.
  cbv zeta. cbn [fst snd log]. fold cmd.
  split; [reflexivity|]. split; [done|].
  destruct (output_name_inside dst (video_uuid d) (video_suffix src)
              (is_suffix_slashless_video src)) as [Hj _].
  split; [subst cmd; by rewrite last_video_command, Hj|].
  split.
  { subst cmd. unfold video_command. rewrite elem_of_app. left.
    do 16 apply list_elem_of_further. apply list_elem_of_here. }
  split; [by eapply target_bitrate_at_least|]. split; [done|].
  rewrite Hsfx. split; [done|].
  destruct (video_suffix_cases src) as (Hin & Hkeep & _).
  split; [done|]. split; [done|]. rewrite plain_lower. by apply plain_suffix.
Qed.

(** The one ffmpeg command [process_video] can start. *)
Lemma video_ffmpeg_in_log d src dst fs0 cmd :
  Spawn cmd ∈ log (snd (process_video exec int_of_text d src dst (mkWorld fs0 []))) ->
  Lit "ffmpeg" ∈ cmd ->
  exists target has_audio,
    cmd = video_command d src dst target has_audio /\
    fst (_probe_has_audio exec src nowhere) = Ok has_audio.
Proof.
  intros Hin Hff.
  assert (forall path, cmd <> bitrate_probe path /\ cmd <> audio_probe path) as Hne.
  { intros path. split; intros ->; revert Hff; unfold bitrate_probe, audio_probe;
      intros Hff; no_such_arg. }
  destruct (mkdir_parents dst fs0) as [fs1|e] eqn:Hmk.
  2:{ rewrite (process_video_failed_mkdir d src dst fs0 e Hmk) in Hin.
      cbn [snd log] in Hin. no_such_arg. }
  rewrite (process_video_run exec int_of_text d src dst fs0 fs1 Hmk) in Hin.
  destruct (fst (_probe_bitrate exec int_of_text src nowhere)) as [bitrate|e].
  2:{ cbn [snd log] in Hin. no_such_arg. injection Hin as ->. by destruct (Hne src). }
  destruct (target_bitrate bitrate _) as [target|e].
  2:{ cbn [snd log] in Hin. no_such_arg. injection Hin as ->. by destruct (Hne src). }
  destruct (fst (_probe_has_audio exec src nowhere)) as [has_audio|e].
  2:{ cbn [snd log] in Hin. no_such_arg; injection Hin as ->; by destruct (Hne src). }
  exists target, has_audio. split; [|done].
  cbv zeta in Hin. cbn [snd log] in Hin.
  no_such_arg; injection Hin as ->; try done; by destruct (Hne src).
Qed.

(** X9.  The ffmpeg command of [process_video], whenever it is started: it has
    [-an] exactly when the audio probe found nothing and [-c:a aac] with
    [atempo] exactly when it found something; the [atempo] factor and the
    factor whose inverse goes to [setpts] are the same number, which lies
    between 0.98 and 1.02 whatever [random()] returned. *)
Theorem process_video_audio_and_speed d src dst fs0 cmd :
  Spawn cmd ∈ log (snd (process_video exec int_of_text d src dst (mkWorld fs0 []))) ->
  Lit "ffmpeg" ∈ cmd ->
  exists has_audio speed gamma,
    fst (_probe_has_audio exec src nowhere) = Ok has_audio /\
    (Lit "-an" ∈ cmd <-> has_audio = false) /\
    (Lit "aac" ∈ cmd <-> has_audio = true) /\
    (Atempo speed ∈ cmd <-> has_audio = true) /\
    (forall f, Atempo f ∈ cmd -> f = speed) /\
    Filters [Setpts (1 / speed); Gamma gamma] ∈ cmd /\
    (0.98 <=? speed)%float = true /\ (speed <=? 1.02)%float = true.
Proof.
  intros Hin Hff.
  destruct (video_ffmpeg_in_log d src dst fs0 cmd Hin Hff)
    as (target & has_audio & -> & Haudio).
  clear Hin Hff.
  exists has_audio, (speed_factor d), (1 + uniform (-0.01) 0.01 (gamma_random d))%float.
  split; [done|].
  destruct (speed_factor_clamped d) as [Hlo Hhi].
  unfold video_command. destruct has_audio.
  - split; [|split; [|split; [|split; [|split]]]]; try done.
    + split; [|done]. intros H. no_such_arg.
    + split; [done|]. intros _. find_arg.
    + split; [done|]. intros _. find_arg.
    + intros f H. no_such_arg. by injection H.
    + find_arg.
  - split; [|split; [|split; [|split; [|split]]]]; try done.
    + split; [done|]. intros _. find_arg.
    + split; [|done]. intros H. no_such_arg.
    + split; [|done]. intros H. no_such_arg.
    + intros f H. no_such_arg.
    + find_arg.
Qed.
End ToolRuns.

Section ToolRunExamples.

Lemma process_photo_returns_after_success_witness :
  let d := mkPhotoDraws 2 0.25 0x1234 in
  exists out,
    fst (process_photo tools_ok d photo_in processed (mkWorld ∅ [])) = Ok out /\
    suffix out = ".jpg".
Proof.
  intros d. eexists. split; [vm_compute; reflexivity|].
  edestruct (process_photo_returns_after_success tools_ok d photo_in processed ∅)
    as (rotation & _ & _ & _ & _ & _ & _ & H);
    [vm_compute; reflexivity|vm_compute; reflexivity|].
  destruct H as (_ & H & _); [vm_compute; reflexivity|]. rewrite H. vm_compute. reflexivity.
Defined.

Lemma process_video_returns_after_success_witness :
  let d := mkVideoDraws 0.5 0.5 0.5 0x5678 in
  exists out,
    fst (process_video tools_ok int_decimal d video_in processed (mkWorld ∅ [])) = Ok out /\
    suffix out = ".mp4".
Proof.
  intros d. eexists. split; [vm_compute; reflexivity|].
  edestruct (process_video_returns_after_success tools_ok int_decimal d video_in processed ∅)
    as (target & has_audio & _ & _ & _ & _ & _ & _ & H & _);
    [vm_compute; reflexivity|vm_compute; reflexivity|].
  rewrite H. vm_compute. reflexivity.
Defined.

Lemma process_video_audio_and_speed_witness :
  let d := mkVideoDraws 0.5 0.5 0.5 0x5678 in
  exists cmd,
    Spawn cmd ∈ log (snd (process_video tools_ok int_decimal d video_in processed
                            (mkWorld ∅ []))) /\
    Lit "ffmpeg" ∈ cmd /\ Lit "aac" ∈ cmd.
Proof.
  intros d.
  exists (video_command d video_in processed 1500000 true).
  assert (Spawn (video_command d video_in processed 1500000 true)
          ∈ log (snd (process_video tools_ok int_decimal d video_in processed
                        (mkWorld ∅ [])))) as Hin.
  { vm_compute. do 3 apply list_elem_of_further. apply list_elem_of_here. }
  assert (Lit "ffmpeg" ∈ video_command d video_in processed 1500000 true) as Hff.
  { vm_compute. apply list_elem_of_here. }
  split; [exact Hin|]. split; [exact Hff|].
  destruct (process_video_audio_and_speed tools_ok int_decimal d video_in processed ∅ _
              Hin Hff) as (has_audio & speed & gamma & Ha & _ & Haac & _).
  apply Haac.
  assert (fst (_probe_has_audio tools_ok video_in nowhere) = Ok true) as Ht
    by (vm_compute; reflexivity).
  rewrite Ht in Ha. by injection Ha.
Defined.
End ToolRunExamples.

Section BitrateInTransform.
Variable exec : list arg -> result Completed.
Variable int_of_text : str -> option Z.



Lemma video_command_bitrate d src dst target has_audio :
  head (video_command d src dst target has_audio) = Some (Lit "ffmpeg") /\
  OfInt target ∈ video_command d src dst target has_audio /\
  forall n, OfInt n ∈ video_command d src dst target has_audio -> n = target.
Proof.
  unfold video_command. split; [done|]. split; [find_arg|].
  intros n Hin. destruct has_audio; no_such_arg; by injection Hin.
Qed.



(** X8.  [process_video] starts its tools in one order and none twice: after
    [mkdir], the bitrate probe, the audio probe, ffmpeg.  Each is started
    exactly when all that stands before it in the code has returned: the
    bitrate probe when [mkdir] did, the audio probe when the bitrate probe
    returned a bitrate and the target bitrate was computed from it, ffmpeg
    when the audio probe returned as well, and then with that target
    bitrate.  Once ffmpeg was started the transform returns the path that
    is the last argument of ffmpeg, after ffmpeg exited with 0, or raises
    the error of [_run_subprocess]. *)
Theorem process_video_tool_order d src dst fs0 :
  let r := process_video exec int_of_text d src dst (mkWorld fs0 []) in
  let delta := uniform (-0.05) 0.05 (bitrate_random d) in
  let made := exists fs1, mkdir_parents dst fs0 = Ok fs1 in
  let probed target :=
    exists bitrate, fst (_probe_bitrate exec int_of_text src nowhere) = Ok bitrate /\
                    target_bitrate bitrate delta = Ok target in
  let heard := exists has_audio, fst (_probe_has_audio exec src nowhere) = Ok has_audio in
  let ffmpeg cmd := head cmd = Some (Lit "ffmpeg") in
  (exists tools,
     log (snd r) = Mkdir dst :: (Spawn <$> tools) /\
     (tools = [] \/ tools = [bitrate_probe src] \/
      tools = [bitrate_probe src; audio_probe src] \/
      exists cmd, ffmpeg cmd /\ tools = [bitrate_probe src; audio_probe src; cmd])) /\
  (Spawn (bitrate_probe src) ∈ log (snd r) <-> made) /\
  (Spawn (audio_probe src) ∈ log (snd r) <-> made /\ exists target, probed target) /\
  (forall cmd,
     Spawn cmd ∈ log (snd r) -> ffmpeg cmd ->
     made /\ heard /\
     (exists target, probed target /\ OfInt target ∈ cmd) /\
     (forall out, fst r = Ok out -> succeeded exec cmd /\ last cmd = Some (OfPath out)) /\
     (forall e, fst r = Raise e -> fst (_run_subprocess exec cmd nowhere) = Raise e)) /\
  (made -> (exists target, probed target) -> heard ->
   exists cmd, Spawn cmd ∈ log (snd r) /\ ffmpeg cmd).
Proof.
  intros r delta made probed heard ffmpeg. subst r made probed heard ffmpeg.
  assert (Spawn (bitrate_probe src) <> Spawn (audio_probe src)) as Hba by done.
  destruct (mkdir_parents dst fs0) as [fs1|e] eqn:Hmk.
  2:{ rewrite (process_video_failed_mkdir exec int_of_text d src dst fs0 e Hmk).
      cbn [fst snd log]. split; [exists []; split; [done|by left]|].
      split; [split; [intros H; no_such_arg|by intros [? [=]]]|].
      split; [split; [intros H; no_such_arg|by intros [[? [=]] _]]|].
      split; [intros cmd H; no_such_arg|]. by intros [? [=]]. }
  rewrite (process_video_run exec int_of_text d src dst fs0 fs1 Hmk).
  destruct (fst (_probe_bitrate exec int_of_text src nowhere)) as [bitrate|e].
  2:{ cbn [fst snd log]. split; [exists [bitrate_probe src]; split; [done|right; by left]|].
      split; [split; [by exists fs1|intros _; find_arg]|].
      split; [split; [intros H; no_such_arg|by intros [_ (? & ? & [=] & _)]]|].
      split; [intros cmd H Hff; no_such_arg; injection H as ->; discriminate Hff|].
      by intros _ (? & ? & [=] & _). }
  fold delta. destruct (target_bitrate bitrate delta) as [target|e] eqn:Ht.
  2:{ cbn [fst snd log]. split; [exists [bitrate_probe src]; split; [done|right; by left]|].
      split; [split; [by exists fs1|intros _; find_arg]|].
      split; [split; [intros H; no_such_arg|
                      intros [_ (t & b & [= <-] & Hb)]; congruence]|].
      split; [intros cmd H Hff; no_such_arg; injection H as ->; discriminate Hff|].
      intros _ (t & b & [= <-] & Hb). congruence. }
  destruct (fst (_probe_has_audio exec src nowhere)) as [has_audio|e].
  2:{ cbn [fst snd log].
      split; [exists [bitrate_probe src; audio_probe src]; split; [done|right; right; by left]|].
      split; [split; [by exists fs1|intros _; find_arg]|].
      split; [split; [intros _; split; [by exists fs1|by exists target, bitrate]|
                      intros _; find_arg]|].
      split; [intros cmd H Hff; no_such_arg; injection H as ->; discriminate Hff|].
      by intros _ _ [? [=]]. }
  cbv zeta. cbn [fst snd log].
  destruct (video_command_bitrate d src dst target has_audio) as (Hhead & Hint & _).
  split.
  { exists [bitrate_probe src; audio_probe src; video_command d src dst target has_audio].
    split; [done|]. do 3 right. by eexists. }
  split; [split; [by exists fs1|intros _; find_arg]|].
  split; [split; [intros _; split; [by exists fs1|by exists target, bitrate]|
                  intros _; find_arg]|].
  split.
  - intros cmd H Hff.
    assert (cmd = video_command d src dst target has_audio) as ->.
    { no_such_arg; injection H as ->; done. }
    split; [by exists fs1|]. split; [by exists has_audio|].
    split; [exists target; split; [by exists bitrate|done]|].
    split.
    + intros out Hout. split; [by eapply run_subprocess_succeeded|].
      rewrite last_video_command.
      destruct (fst (_run_subprocess exec _ nowhere)); congruence.
    + intros e He. destruct (fst (_run_subprocess exec _ nowhere)); congruence.
  - intros _ _ _. eexists. split; [|exact Hhead]. find_arg.
Qed.

End BitrateInTransform.



Import Files Config.

Section Cleanup.
Implicit Types (fs : filesystem) (p q : Path).

Lemma stat_delete fs p q :
  stat (delete p fs) q = if decide (p = q) then
                           match q with [] => Some Dir | _ => None end
                         else stat fs q.
Proof.
  destruct q as [|name parent]; simpl.
  - by destruct (decide (p = [])).
  - destruct (decide (p = name :: parent)) as [->|Hne].
    + apply lookup_delete_eq.
    + by apply lookup_delete_ne.
Qed.

(** One round of the loop: a file at the path goes, nothing else changes. *)
Lemma cleanup_path_stat fs path q :
  stat (cleanup_path fs path) q
  = if decide (path = Some q /\ stat fs q = Some File) then None else stat fs q.
Proof.
  unfold cleanup_path, exists_, unlink. destruct path as [p|].
  2:{ destruct (decide _) as [[? _]|]; done. }
  destruct (stat fs p) as [[|]|] eqn:Hp.
  - destruct (decide _) as [[[= ->] Hq]|]; [congruence|done].
  - rewrite stat_delete. destruct (decide (p = q)) as [->|Hne].
    + destruct q; [done|]. by rewrite decide_True.
    + rewrite decide_False; [done|]. intros [[= ->] _]. done.
  - destruct (decide _) as [[[= ->] Hq]|]; [congruence|done].
Qed.

(** X10.  [_cleanup_paths] removes the files among the paths it is given and
    nothing else: afterwards none of these paths is a file, a [None] and a
    path that is not there are passed over, a directory is left standing
    (its [OSError] is swallowed), and every other path is what it was. *)
Theorem cleanup_paths_removes_files paths : forall fs,
  let fs' := _cleanup_paths paths fs in
  (forall p, Some p ∈ paths -> stat fs' p <> Some File) /\
  (forall p, Some p ∈ paths -> stat fs p = Some File -> stat fs' p = None) /\
  (forall p, Some p ∉ paths -> stat fs' p = stat fs p) /\
  (forall p, stat fs p = Some Dir -> stat fs' p = Some Dir) /\
  (forall p, stat fs p = None -> stat fs' p = None).
Proof.
  unfold _cleanup_paths.
  induction paths as [|path paths IH]; intros fs; simpl.
  - repeat split; try done; intros p H; by apply elem_of_nil in H.
  - destruct (IH (cleanup_path fs path)) as (H1 & H2 & H3 & H4 & H5).
    cbv zeta in *. split; [|split; [|split; [|split]]].
    + intros p Hin Hfile. apply elem_of_cons in Hin as [<-|Hin]; [|by eapply H1].
      destruct (stat (cleanup_path fs (Some p)) p) as [[|]|] eqn:Hs.
      * rewrite (H4 _ Hs) in Hfile. done.
      * rewrite cleanup_path_stat in Hs. destruct (decide _) as [|Hn]; [done|].
        apply Hn. done.
      * rewrite (H5 _ Hs) in Hfile. done.
    + intros p Hin Hfile. destruct (decide (path = Some p)) as [->|Hne].
      * apply H5. rewrite cleanup_path_stat. by rewrite decide_True.
      * apply elem_of_cons in Hin as [?|Hin]; [congruence|].
        apply H2; [done|]. rewrite cleanup_path_stat.
        rewrite decide_False; [done|]. intros [? _]. done.
    + intros p Hin. apply not_elem_of_cons in Hin as [Hne Hin].
      rewrite (H3 _ Hin), cleanup_path_stat. by rewrite decide_False by (intros [? _]; done).
    + intros p Hdir. apply H4. rewrite cleanup_path_stat.
      rewrite decide_False; [done|]. intros [_ ?]. congruence.
    + intros p Hnone. apply H5. rewrite cleanup_path_stat. by destruct (decide _).
Qed.
End Cleanup.

Section ProcessFile.
Variable temp_dir : Path.
Implicit Types (w : Awaited) (user_status : SubscriptionStatus).

(** [_process_file] past the gates, outcome by outcome of what it awaits. *)
Lemma process_file_admitted w user_id file_id extension is_video size uuid user_status :
  admitted w is_video size user_status ->
  let source := input_path temp_dir uuid extension in
  let fetch := [CheckSub user_id; Download file_id source] in
  let enqueue := enqueue_call temp_dir is_video source in
  _process_file temp_dir w user_id file_id extension is_video size uuid
  = match downloaded w with
    | Some name =>
        (fetch ++ [CleanupPaths [Some source; None]], Raised (LibraryError name))
    | None =>
        match enqueue_result w with
        | Raise (MediaProcessingError why) =>
            (fetch ++ [enqueue; Answer (ProcessingFailed why);
                       CleanupPaths [Some source; None]],
             match answered w (ProcessingFailed why) with
             | None => Returned tt
             | Some name => Raised (LibraryError name)
             end)
        | Raise e =>
            (fetch ++ [enqueue; CleanupPaths [Some source; None]], Raised (JobError e))
        | Ok output =>
            let clean := CleanupPaths [Some source; Some output] in
            let send :=
              ([answer_call is_video output; clean],
               match sent w with
               | None => Returned tt
               | Some name => Raised (LibraryError name)
               end) in
            if on_credits user_status then
              match credit_consumed w with
              | None => (fetch ++ enqueue :: ConsumeCredit user_id :: fst send, snd send)
              | Some name =>
                  (fetch ++ [enqueue; ConsumeCredit user_id; clean],
                   Raised (LibraryError name))
              end
            else (fetch ++ enqueue :: fst send, snd send)
        end
    end.
Proof.
  intros (Hover & Hsub & Hact) source fetch enqueue.
  unfold _process_file, process_body. rewrite Hover, Hsub, Hact. cbn [negb].
  fold source. fold enqueue. unfold await.
  destruct (downloaded w) as [name|]; [done|].
  destruct (enqueue_result w) as [output|e].
  - destruct (on_credits user_status).
    + destruct (credit_consumed w) as [name|]; [done|]. by destruct (sent w).
    + by destruct (sent w).
  - destruct e as [why| | | | | | |]; try done. by destruct (answered w _).
Qed.

(** Whatever works on a file is done past the gates only. *)
Lemma works_on_file_admitted w user_id file_id extension is_video size uuid call :
  call ∈ fst (_process_file temp_dir w user_id file_id extension is_video size uuid) ->
  works_on_file call = true ->
  exists user_status, admitted w is_video size user_status.
Proof.
  intros Hin Hwork. unfold admitted. unfold _process_file in Hin.
  destruct (over_limit is_video size) eqn:Hover.
  { unfold await in Hin. destruct (answered w TooLarge); simpl in Hin;
      apply list_elem_of_singleton in Hin as ->; discriminate Hwork. }
  destruct (subscription w) as [name|user_status] eqn:Hsub.
  { simpl in Hin. apply list_elem_of_singleton in Hin as ->. discriminate Hwork. }
  exists user_status. split; [done|]. split; [done|].
  destruct (is_active user_status); [done|]. exfalso.
  unfold await in Hin. cbv zeta in Hin. cbn [negb] in Hin.
  destruct (answered w NoCredits), (state_cleared w); simpl in Hin;
    repeat (apply elem_of_cons in Hin as [->|Hin]; [discriminate Hwork|]);
    by apply elem_of_nil in Hin.
Qed.

(** X11.  The two gates of [_process_file].  A video over 50 MB is answered and
    nothing else happens, not even a look at the subscription; a user
    without an active plan or a free processing left is answered and the
    state is cleared.  Nothing is downloaded, enqueued, charged, sent back
    or removed unless the upload passes both; and only a video can be over
    the limit: a photo or another document of any size is let through. *)
Theorem process_file_gates w user_id file_id extension is_video size uuid :
  let r := _process_file temp_dir w user_id file_id extension is_video size uuid in
  (over_limit is_video size = true ->
   fst r = [Answer TooLarge] /\
   (answered w TooLarge = None -> snd r = Returned tt)) /\
  (forall user_status,
     over_limit is_video size = false ->
     subscription w = inr user_status -> is_active user_status = false ->
     fst r `prefix_of` [CheckSub user_id; Answer NoCredits; ClearState] /\
     (answered w NoCredits = None -> state_cleared w = None ->
      fst r = [CheckSub user_id; Answer NoCredits; ClearState] /\ snd r = Returned tt)) /\
  (forall call, call ∈ fst r -> works_on_file call = true ->
     exists user_status, admitted w is_video size user_status) /\
  (is_video = false -> over_limit is_video size = false).
Proof.
  intros r. subst r. split; [|split; [|split]].
  - intros Hover. unfold _process_file, await. rewrite Hover.
    destruct (answered w TooLarge) eqn:Ha; simpl; [done|]. split; [done|]. by intros _.
  - intros user_status Hover Hsub Hact. unfold _process_file, await.
    rewrite Hover, Hsub, Hact. cbv zeta. cbn [negb].
    destruct (answered w NoCredits) eqn:Ha; simpl.
    { split; [by exists [ClearState]|done]. }
    destruct (state_cleared w) eqn:Hc; simpl.
    { split; [by exists []|done]. }
    split; [done|]. by intros _ _.
  - intros call. apply works_on_file_admitted.
  - by intros ->.
Qed.

Ltac in_log H :=
  repeat match type of H with
         | _ ∈ _ ++ _ => apply elem_of_app in H as [H|H]
         | _ ∈ _ :: _ => apply elem_of_cons in H as [H|H]
         | _ ∈ [] => by apply elem_of_nil in H
         end.

(** X12.  A free processing is consumed exactly when the job came back with a
    path and the user has no plan or a trial: never for an upload that was
    turned away, that could not be downloaded or whose processing failed.
    It is consumed once, after the job and before the result is sent, so a
    result that could not be sent is charged all the same. *)
Theorem credit_consumed_iff_job_returned w user_id file_id extension is_video size uuid :
  let r := _process_file temp_dir w user_id file_id extension is_video size uuid in
  let source := input_path temp_dir uuid extension in
  (forall u, ConsumeCredit u ∈ fst r <->
     u = user_id /\
     exists user_status output,
       admitted w is_video size user_status /\ on_credits user_status = true /\
       downloaded w = None /\ enqueue_result w = Ok output) /\
  (forall u, ConsumeCredit u ∈ fst r ->
     exists output rest,
       enqueue_result w = Ok output /\
       fst r = CheckSub user_id :: Download file_id source
               :: enqueue_call temp_dir is_video source
               :: ConsumeCredit user_id :: rest /\
       (ConsumeCredit u ∉ rest) /\
       rest = match credit_consumed w with
              | None => [answer_call is_video output;
                         CleanupPaths [Some source; Some output]]
              | Some _ => [CleanupPaths [Some source; Some output]]
              end).
Proof.
  intros r source.
  assert (forall u, ConsumeCredit u ∈ fst r ->
            exists user_status, admitted w is_video size user_status) as Hgate.
  { intros u Hin.
    by apply (works_on_file_admitted w user_id file_id extension is_video size uuid
                (ConsumeCredit u)). }
  assert (forall u user_status, admitted w is_video size user_status ->
            ConsumeCredit u ∈ fst r ->
            u = user_id /\ on_credits user_status = true /\ downloaded w = None /\
            exists output, enqueue_result w = Ok output /\
              fst r = CheckSub user_id :: Download file_id source
                      :: enqueue_call temp_dir is_video source
                      :: ConsumeCredit user_id
                      :: match credit_consumed w with
                         | None => [answer_call is_video output;
                                    CleanupPaths [Some source; Some output]]
                         | Some _ => [CleanupPaths [Some source; Some output]]
                         end) as Hin_.
  { intros u user_status Hadm. subst r.
    rewrite (process_file_admitted _ _ _ _ _ _ _ _ Hadm). cbv zeta. fold source.
    destruct (downloaded w) as [name|]; cbn [fst].
    { intros H. in_log H; done. }
    destruct (enqueue_result w) as [output|e].
    2:{ destruct e as [why| | | | | | |]; cbn [fst]; intros H; in_log H;
          try done; by destruct is_video. }
    destruct (on_credits user_status).
    2:{ cbn [fst]. intros H. in_log H; try done; by destruct is_video. }
    destruct (credit_consumed w) as [name|]; cbn [fst]; intros H.
    - assert (u = user_id) as ->.
      { in_log H; try done; try (by destruct is_video). by injection H. }
      do 3 (split; [done|]). by exists output.
    - assert (u = user_id) as ->.
      { in_log H; try done; try (by destruct is_video). by injection H. }
      do 3 (split; [done|]). by exists output. }
  split.
  - intros u. split.
    + intros Hin. destruct (Hgate _ Hin) as [user_status Hadm].
      destruct (Hin_ _ _ Hadm Hin) as (-> & Hcr & Hdl & output & Hpr & _).
      split; [done|]. by exists user_status, output.
    + intros (-> & user_status & output & Hadm & Hcr & Hdl & Hpr). subst r.
      rewrite (process_file_admitted _ _ _ _ _ _ _ _ Hadm). cbv zeta.
      rewrite Hdl, Hpr, Hcr.
      destruct (credit_consumed w); cbn [fst app];
        do 3 apply list_elem_of_further; apply list_elem_of_here.
  - intros u Hin. destruct (Hgate _ Hin) as [user_status Hadm].
    destruct (Hin_ _ _ Hadm Hin) as (-> & Hcr & Hdl & output & Hpr & Hlog).
    exists output. eexists. split; [done|]. split; [exact Hlog|]. split; [|done].
    destruct (credit_consumed w); intros H; in_log H; try done; by destruct is_video.
Qed.

(** X13.  Where the outcome of the job goes, for an upload past the gates that
    was downloaded.  A [MediaProcessingError] is caught: its text is
    answered to the user and the handler returns.  Any other exception the
    job was settled with is not caught: nothing is answered and it leaves
    the handler.  In both cases no free processing is consumed, nothing is
    sent back, and the input is removed last, with no output to remove. *)
Theorem job_error_is_answered_or_raised w user_id file_id extension is_video size uuid
        user_status e :
  admitted w is_video size user_status ->
  downloaded w = None -> enqueue_result w = Raise e ->
  let r := _process_file temp_dir w user_id file_id extension is_video size uuid in
  let source := input_path temp_dir uuid extension in
  let before := [CheckSub user_id; Download file_id source;
                 enqueue_call temp_dir is_video source] in
  match e with
  | MediaProcessingError why =>
      fst r = before ++ [Answer (ProcessingFailed why); CleanupPaths [Some source; None]] /\
      (answered w (ProcessingFailed why) = None -> snd r = Returned tt)
  | _ =>
      fst r = before ++ [CleanupPaths [Some source; None]] /\
      snd r = Raised (JobError e)
  end.
Proof.
  intros Hadm Hdl Hpr r source before. subst r.
  rewrite (process_file_admitted _ _ _ _ _ _ _ _ Hadm). cbv zeta.
  rewrite Hdl, Hpr. fold source.
  destruct e as [why| | | | | | |]; try done.
  split; [done|]. by intros ->.
Qed.

(** X14.  Past the gates the handler always ends with [_cleanup_paths], once:
    whether the download, the job, the charge or the sending failed or
    not, the last thing done is the removal of the input and, when the job
    returned one, of the output. *)
Theorem cleanup_runs_last w user_id file_id extension is_video size uuid user_status :
  admitted w is_video size user_status ->
  let r := _process_file temp_dir w user_id file_id extension is_video size uuid in
  let source := input_path temp_dir uuid extension in
  let output := match downloaded w, enqueue_result w with
                | None, Ok output => Some output
                | _, _ => None
                end in
  exists before,
    fst r = CheckSub user_id :: Download file_id source :: before
            ++ [CleanupPaths [Some source; output]] /\
    (forall paths, CleanupPaths paths ∉ before).
Proof.
  intros Hadm r source output. subst r output.
  rewrite (process_file_admitted _ _ _ _ _ _ _ _ Hadm). cbv zeta. fold source.
  destruct (downloaded w) as [name|].
  { exists []. split; [done|]. intros ? H; by apply elem_of_nil in H. }
  destruct (enqueue_result w) as [out|e].
  - destruct (on_credits user_status).
    + destruct (credit_consumed w) as [name|]; cbn [fst].
      * exists [enqueue_call temp_dir is_video source; ConsumeCredit user_id].
        split; [done|]. intros paths H. in_log H; try done; by destruct is_video.
      * exists [enqueue_call temp_dir is_video source; ConsumeCredit user_id;
                answer_call is_video out].
        split; [done|]. intros paths H. in_log H; try done; by destruct is_video.
    + exists [enqueue_call temp_dir is_video source; answer_call is_video out].
      split; [done|]. intros paths H. in_log H; try done; by destruct is_video.
  - destruct e as [why| | | | | | |];
      try (exists [enqueue_call temp_dir is_video source]; split; [done|];
           intros paths H; in_log H; try done; by destruct is_video).
    exists [enqueue_call temp_dir is_video source; Answer (ProcessingFailed why)].
    split; [done|]. intros paths H. in_log H; try done; by destruct is_video.
Qed.
End ProcessFile.

Lemma process_file_gates_witness :
  let w := mkAwaited (fun _ => None) (inr (mkStatus None false)) None None
                     (Ok ["out.mp4"]) None None in
  over_limit true (Some 60000000%Z) = true /\
  fst (_process_file ["tmp"] w 7 "id" ".mp4" true (Some 60000000%Z) 1)
  = [Answer TooLarge].
Proof.
  intros w. split; [vm_compute; reflexivity|].
  edestruct (process_file_gates ["tmp"] w 7 "id" ".mp4" true (Some 60000000%Z) 1)
    as [H _]. destruct H as [H _]; [vm_compute; reflexivity|exact H].
Defined.

Lemma credit_consumed_iff_job_returned_witness :
  let w := mkAwaited (fun _ => None) (inr (mkStatus (Some "trial") true)) None None
                     (Ok ["out.jpg"; "processed"; "tmp"]) None (Some "TelegramNetworkError") in
  ConsumeCredit 7 ∈ fst (_process_file ["tmp"] w 7 "id" ".jpg" false None 1) /\
  snd (_process_file ["tmp"] w 7 "id" ".jpg" false None 1)
  = Raised (LibraryError "TelegramNetworkError").
Proof.
  intros w. split; [|vm_compute; reflexivity].
  apply (credit_consumed_iff_job_returned ["tmp"] w 7 "id" ".jpg" false None 1).
  split; [done|]. exists (mkStatus (Some "trial") true), ["out.jpg"; "processed"; "tmp"].
  repeat split.
Defined.

Lemma job_error_is_answered_or_raised_witness :
  let w := mkAwaited (fun _ => None) (inr (mkStatus None true)) None None
                     (Raise UnicodeDecodeError) None None in
  snd (_process_file ["tmp"] w 7 "id" ".mp4" true (Some 1000%Z) 1)
  = Raised (JobError UnicodeDecodeError).
Proof.
  intros w.
  pose proof (job_error_is_answered_or_raised ["tmp"] w 7 "id" ".mp4" true (Some 1000%Z) 1
                (mkStatus None true) UnicodeDecodeError) as H.
  destruct H as [_ H]; [repeat split|reflexivity|reflexivity|exact H].
Defined.

Lemma cleanup_runs_last_witness :
  let w := mkAwaited (fun _ => None) (inr (mkStatus None true)) None
                     (Some "TelegramBadRequest") (Ok ["out.jpg"]) None None in
  fst (_process_file ["tmp"] w 7 "id" ".jpg" false None 1)
  = [CheckSub 7; Download "id" (input_path ["tmp"] 1 ".jpg");
     CleanupPaths [Some (input_path ["tmp"] 1 ".jpg"); None]].
Proof.
  intros w.
  destruct (cleanup_runs_last ["tmp"] w 7 "id" ".jpg" false None 1 (mkStatus None true))
    as (before & Hlog & _); [repeat split|].
  vm_compute. reflexivity.
Defined.

Section Extension.

Lemma split_slash_parts s : Forall (fun seg => slashless seg = true) (split_slash s).
Proof.
  induction s as [|c s IH]; simpl; [by repeat constructor|].
  destruct (Ascii.eqb c "/") eqn:Hc; [by constructor|].
  destruct (split_slash s) as [|seg segs]; [repeat constructor; simpl; by rewrite Hc|].
  apply Forall_cons in IH as [Hseg Hsegs]. constructor; [|done].
  simpl. by rewrite Hc, Hseg.
Qed.

(** Every component of [Path(text)] is a name without ["/"]. *)
Lemma path_of_parts text : Forall (fun seg => slashless seg = true) (path_of text).
Proof.
  unfold path_of, joinpath.
  assert (Forall (fun seg => slashless seg = true)
            (reverse (filter (fun seg => seg <> EmptyString /\ seg <> ".")
                             (split_slash text)))) as H.
  { apply Forall_reverse. apply Forall_forall. intros seg [_ Hin]%list_elem_of_filter.
    pose proof (split_slash_parts text) as Hall. rewrite Forall_forall in Hall. auto. }
  destruct text as [|c rest]; [by rewrite app_nil_r|].
  destruct (Ascii.eqb c "/") eqn:Hc.
  - apply Ascii.eqb_eq in Hc as ->. done.
  - destruct c as [[] [] [] [] [] [] [] []]; try discriminate Hc; by rewrite app_nil_r.
Qed.

Lemma is_suffix_dot_lower s : is_suffix s -> slashless s = true ->
  is_suffix (lower s) /\ slashless (lower s) = true /\ lower (lower s) = lower s.
Proof.
  intros Hs Hsl. split; [by apply is_suffix_lower|]. split; [by apply slashless_lower|].
  apply lower_idemp.
Qed.

(** The extension [handle_document] settles on is a lower-case suffix. *)
Lemma document_extension file_name mime_type :
  let extension := fst (document_kind file_name mime_type) in
  is_suffix extension /\ slashless extension = true /\ lower extension = extension.
Proof.
  unfold document_kind. cbn [fst].
  set (p := path_of (default EmptyString file_name)).
  assert (slashless (default EmptyString (head p)) = true) as Hhead.
  { pose proof (path_of_parts (default EmptyString file_name)) as Hp. fold p in Hp.
    destruct p as [|name rest]; [done|]. by apply Forall_cons in Hp as [? _]. }
  destruct (suffix_shape p) as [Hnone|Hs].
  - rewrite Hnone. simpl.
    destruct (match mime_type with Some (String _ _ as mime) => _ | _ => false end).
    + split; [exists "mp4"; by split|]. by split.
    + split; [exists "jpg"; by split|]. by split.
  - pose proof (slashless_suffix p Hhead) as Hsl.
    destruct (is_suffix_dot_lower _ Hs Hsl) as (H1 & H2 & H3).
    destruct H1 as (t & Ht & Hne & Hd). rewrite Ht in *. by split; [exists t|].
Qed.

Lemma split_slash_plain s :
  plain s = true -> Forall (fun seg => plain seg = true) (split_slash s).
Proof.
  induction s as [|c s IH]; simpl; [by repeat constructor|].
  intros [Hc Hs]%andb_prop. specialize (IH Hs).
  destruct (Ascii.eqb c "/"); [by constructor|].
  destruct (split_slash s) as [|seg segs]; [repeat constructor; simpl; by rewrite Hc|].
  apply Forall_cons in IH as [Hseg Hsegs]. constructor; [|done].
  simpl. by rewrite Hc, Hseg.
Qed.

(** The name of [Path(text)] is ASCII when [text] is. *)
Lemma path_of_plain text :
  plain text = true -> plain (default EmptyString (head (path_of text))) = true.
Proof.
  intros Hp. unfold path_of, joinpath.
  assert (Forall (fun seg => plain seg = true)
            (reverse (filter (fun seg => seg <> EmptyString /\ seg <> ".")
                             (split_slash text)))) as H.
  { apply Forall_reverse. apply Forall_forall. intros seg [_ Hin]%list_elem_of_filter.
    pose proof (split_slash_plain text Hp) as Hall. rewrite Forall_forall in Hall. auto. }
  assert (forall l : list string, Forall (fun seg => plain seg = true) l ->
            plain (default EmptyString (head l)) = true) as Hhead.
  { intros [|seg l] Hl; [done|]. by apply Forall_cons in Hl as [? _]. }
  destruct text as [|c rest]; [rewrite app_nil_r; by apply Hhead|].
  destruct (Ascii.eqb c "/") eqn:Hc.
  - apply Ascii.eqb_eq in Hc as ->. by apply Hhead.
  - destruct c as [[] [] [] [] [] [] [] []]; try discriminate Hc;
      rewrite app_nil_r; by apply Hhead.
Qed.

(** The extension [handle_document] settles on for an ASCII file name is
    ASCII. *)
Lemma document_extension_plain file_name mime_type :
  plain (default EmptyString file_name) = true ->
  plain (fst (document_kind file_name mime_type)) = true.
Proof.
  intros Hp. apply path_of_plain, plain_suffix in Hp. rewrite <-plain_lower in Hp.
  unfold document_kind. cbn [fst].
  destruct (lower (suffix (path_of (default EmptyString file_name)))); [|done].
  by destruct (match mime_type with Some (String _ _ as mime) => _ | _ => false end).
Qed.

Lemma input_name_nonempty uuid : "input_" +:+ hex 32 uuid <> EmptyString.
Proof. done. Qed.

(** The name [_process_file] gives the downloaded file ends in the
    extension it was called with, and [Path.suffix] reads it back. *)
Lemma input_path_suffix temp_dir uuid extension :
  is_suffix extension -> slashless extension = true ->
  input_path temp_dir uuid extension
  = ("input_" +:+ hex 32 uuid +:+ extension) :: temp_dir /\
  suffix (input_path temp_dir uuid extension) = extension.
Proof.
  intros Hs Hsl. unfold input_path.
  assert (joinpath temp_dir ("input_" +:+ hex 32 uuid +:+ extension)
          = ("input_" +:+ hex 32 uuid +:+ extension) :: temp_dir) as ->.
  { apply joinpath_name.
    - change ("input_" +:+ hex 32 uuid +:+ extension)
        with ("input_" +:+ (hex 32 uuid +:+ extension)).
      by rewrite !slashless_app, slashless_hex, Hsl.
    - simpl. lia. }
  split; [done|].
  change ("input_" +:+ hex 32 uuid +:+ extension)
    with (("input_" +:+ hex 32 uuid) +:+ extension).
  by apply suffix_of_name.
Qed.
End Extension.

Section RoundTrip.
Variable exec : list arg -> result Completed.
Variable int_of_text : str -> option Z.

(** X15.  The extension a handler picks comes back on the processed file.  The
    downloaded file is named after it, [Path.suffix] of that name is the
    extension again, so the photo a user gets back has the extension the
    handler chose ([.jpg] for a photo; for a document with an ASCII file
    name its own suffix in lower case, [.jpg] or [.mp4] when it has none),
    and a video has it when it is [.mp4], [.mov] or [.mkv] and [.mp4]
    otherwise; the extension is ASCII. *)
Theorem upload_extension_survives temp_dir uuid extension is_video :
  handler_extension extension is_video ->
  let source := input_path temp_dir uuid extension in
  source = ("input_" +:+ hex 32 uuid +:+ extension) :: temp_dir /\
  suffix source = extension /\
  (forall d dst fs0 out,
     fst (process_photo exec d source dst (mkWorld fs0 [])) = Ok out ->
     suffix out = extension) /\
  (forall d dst fs0 out,
     fst (process_video exec int_of_text d source dst (mkWorld fs0 [])) = Ok out ->
     suffix out = if decide (extension ∈ [".mp4"; ".mov"; ".mkv"])
                  then extension else ".mp4") /\
  plain extension = true.
Proof.
  intros Hext source.
  assert (is_suffix extension /\ slashless extension = true /\ lower extension = extension)
    as (Hs & Hsl & Hlow).
  { destruct Hext as [[-> _]|[[-> _]|(file_name & mime_type & _ & Hk)]].
    - split; [exists "jpg"; by split|]. by split.
    - split; [exists "mp4"; by split|]. by split.
    - pose proof (document_extension file_name mime_type) as H. by rewrite Hk in H. }
  destruct (input_path_suffix temp_dir uuid extension Hs Hsl) as [Hname Hsfx].
  fold source in Hname, Hsfx. split; [done|]. split; [done|].
  assert (lower (suffix source) = extension) as Hl by (by rewrite Hsfx).
  split; [|split].
  - intros d dst fs0 out Hout.
    destruct (process_photo_output exec d source dst fs0 out Hout)
      as (fs1 & rotation & _ & _ & _ & ->).
    assert (photo_suffix source = extension) as Hp.
    { unfold photo_suffix. rewrite Hl. by destruct Hs as (t & -> & _). }
    rewrite Hp.
    destruct (output_name_inside dst (photo_uuid d) extension Hsl) as [-> _].
    apply suffix_of_name; [apply hex_nonempty|done].
  - intros d dst fs0 out Hout.
    destruct (process_video_output exec int_of_text d source dst fs0 out Hout)
      as (fs1 & bitrate & target & has_audio & _ & _ & _ & _ & _ & _ & ->).
    destruct (video_suffix_cases source) as (_ & Hkeep & Hdrop). rewrite Hl in *.
    destruct (decide _) as [Hin|Hout']; auto.
  - destruct Hext as [[-> _]|[[-> _]|(file_name & mime_type & Hplain & Hk)]]; [done..|].
    pose proof (document_extension_plain file_name mime_type Hplain) as H.
    by rewrite Hk in H.
Qed.
End RoundTrip.

Lemma upload_extension_survives_witness :
  let extension := fst (document_kind (Some "Holiday.Clip.MOV") (Some "video/quicktime")) in
  extension = ".mov" /\
  suffix (input_path ["tmp"; "data"] 0x5678 extension) = ".mov".
Proof.
  intros extension. split; [vm_compute; reflexivity|].
  destruct (upload_extension_survives tools_ok int_decimal ["tmp"; "data"] 0x5678
              extension true) as (_ & H & _).
  { right. right. exists (Some "Holiday.Clip.MOV"), (Some "video/quicktime").
    split; vm_compute; reflexivity. }
  rewrite H. vm_compute. reflexivity.
Defined.

Section Strip.

Lemma lstrip_split s :
  exists pre, s = pre ++ lstrip s /\ blank pre /\
    forall c, head (lstrip s) = Some c -> isspace c = false.
Proof.
  induction s as [|c s (pre & Hs & Hpre & Hhead)]; simpl.
  - exists []. split; [done|]. split; [constructor|done].
  - destruct (isspace c) eqn:Hc.
    + exists (c :: pre). split; [by rewrite Hs at 1|]. split; [by constructor|done].
    + exists []. split; [done|]. split; [constructor|]. simpl. by intros ? [= <-].
Qed.

Lemma strip_trimmed s : trimmed_of (strip s) s.
Proof.
  unfold strip.
  destruct (lstrip_split s) as (pre & Hs & Hpre & Hhead).
  destruct (lstrip_split (reverse (lstrip s))) as (rpost & Hr & Hrpost & Hlast).
  set (a := lstrip s) in *. set (b := lstrip (reverse a)) in *.
  assert (a = reverse b ++ reverse rpost) as Ha.
  { rewrite <-reverse_app, <-Hr. by rewrite reverse_involutive. }
  split; [|split].
  - exists pre, (reverse rpost). split; [by rewrite <-Ha|]. split; [done|].
    by apply Forall_reverse.
  - intros c Hc. apply Hhead. rewrite Ha.
    destruct (reverse b); [done|]. simpl in *. done.
  - intros c Hc. apply Hlast. rewrite last_reverse in Hc. done.
Qed.

Lemma lstrip_blank s : blank s -> lstrip s = [].
Proof.
  induction 1 as [|c s Hc _ IH]; simpl; [done|]. by rewrite Hc.
Qed.

Lemma strip_blank s : strip s = [] <-> blank s.
Proof.
  split.
  - intros He. destruct (strip_trimmed s) as [(pre & post & Hs & Hpre & Hpost) _].
    rewrite He in Hs. rewrite Hs. simpl. by apply Forall_app.
  - intros Hs. unfold strip. by rewrite (lstrip_blank _ Hs).
Qed.
End Strip.

Section LoadSettings.
Variable int_of_text : str -> option Z.
Variable resolve : str -> Path.

(** [load_settings] step by step. *)
Lemma load_settings_run env w :
  let sqlite := resolve (getenv env "SQLITE_PATH" (literal "./data/helvetia_meta.db")) in
  let temp := resolve (getenv env "TEMP_DIR" (literal "./data/tmp")) in
  load_settings int_of_text resolve env w
  = match mkdir_parents (parent sqlite) (fs w) with
    | Raise e => (Raise e, mkWorld (fs w) (log w ++ [Mkdir (parent sqlite)]))
    | Ok fs1 =>
        match mkdir_parents temp fs1 with
        | Raise e =>
            (Raise e, mkWorld fs1 (log w ++ [Mkdir (parent sqlite); Mkdir temp]))
        | Ok fs2 =>
            let w2 := mkWorld fs2 (log w ++ [Mkdir (parent sqlite); Mkdir temp]) in
            match int_of_text (getenv env "PAYMENT_WEBHOOK_PORT" (literal "8080")),
                  int_of_text (getenv env "QUEUE_MAXSIZE" (literal "3")) with
            | Some port, Some maxsize =>
                (Ok (mkSettings
                       (strip (getenv env "BOT_TOKEN" []))
                       (strip (getenv env "CRYPTOMUS_MERCHANT" []))
                       (strip (getenv env "CRYPTOMUS_API_KEY" []))
                       (strip (getenv env "CRYPTOMUS_CALLBACK_SECRET" []))
                       (getenv env "PAYMENT_WEBHOOK_HOST" (literal "0.0.0.0"))
                       port
                       (strip (getenv env "BASE_URL" []))
                       (strip (getenv env "BANNER_URL" []))
                       (getenv env "LOG_LEVEL" (literal "INFO"))
                       sqlite maxsize temp), w2)
            | _, _ => (Raise ValueError, w2)
            end
        end
    end.
Proof.
  intros sqlite temp. unfold load_settings, _ensure_directory, int.
  fold sqlite. fold temp. unfold bind at 1. unfold bind at 1. unfold mkdir at 1.
  destruct (mkdir_parents (parent sqlite) (fs w)) as [fs1|e]; cbn [fs log]; [|done].
  unfold ret at 1. unfold bind at 1. unfold mkdir at 1. cbn [fs log].
  rewrite <-app_assoc. cbn [app].
  destruct (mkdir_parents temp fs1) as [fs2|e]; [|done].
  unfold bind at 1.
  destruct (int_of_text (getenv env "PAYMENT_WEBHOOK_PORT" _)) as [port|]; [|done].
  unfold ret at 1. unfold bind at 1.
  by destruct (int_of_text (getenv env "QUEUE_MAXSIZE" _)) as [maxsize|].
Qed.

(** X16.  When [load_settings] returns, the directory for temporary files and
    the directory of the database are there, made in this order before
    anything else; the size of the queue is whatever integer
    [QUEUE_MAXSIZE] holds, 3 when it is not set, with no check of its sign;
    and the port is read in the same way, 8080 when it is not set. *)
Theorem load_settings_makes_directories env w s w' :
  load_settings int_of_text resolve env w = (Ok s, w') ->
  is_dir (fs w') (temp_dir s) = true /\
  is_dir (fs w') (parent (sqlite_path s)) = true /\
  log w' = log w ++ [Mkdir (parent (sqlite_path s)); Mkdir (temp_dir s)] /\
  sqlite_path s = resolve (getenv env "SQLITE_PATH" (literal "./data/helvetia_meta.db")) /\
  temp_dir s = resolve (getenv env "TEMP_DIR" (literal "./data/tmp")) /\
  int_of_text (getenv env "QUEUE_MAXSIZE" (literal "3")) = Some (queue_maxsize s) /\
  int_of_text (getenv env "PAYMENT_WEBHOOK_PORT" (literal "8080"))
  = Some (payment_webhook_port s).
Proof.
  rewrite load_settings_run. cbv zeta.
  destruct (mkdir_parents _ (fs w)) as [fs1|e] eqn:H1; [|done].
  destruct (mkdir_parents _ fs1) as [fs2|e] eqn:H2; [|done].
  destruct (int_of_text (getenv env "PAYMENT_WEBHOOK_PORT" _)) as [port|]; [|done].
  destruct (int_of_text (getenv env "QUEUE_MAXSIZE" _)) as [maxsize|]; [|done].
  intros [= <- <-]. cbn [fs log temp_dir sqlite_path queue_maxsize payment_webhook_port].
  split; [by eapply mkdir_parents_dir|]. split; [|done].
  apply mkdir_parents_dir in H1. unfold is_dir in *.
  set (dir := parent _) in *.
  destruct (mkdir_parents_frame _ _ _ dir H2) as [Hq|Hq]; rewrite Hq; done.
Qed.

(** X17.  A [PAYMENT_WEBHOOK_PORT] or a [QUEUE_MAXSIZE] that is no integer makes
    [load_settings] raise [ValueError], and nothing else does; by then both
    directories have been made. *)
Theorem load_settings_rejects_bad_number env w fs1 fs2 :
  let sqlite := resolve (getenv env "SQLITE_PATH" (literal "./data/helvetia_meta.db")) in
  let temp := resolve (getenv env "TEMP_DIR" (literal "./data/tmp")) in
  mkdir_parents (parent sqlite) (fs w) = Ok fs1 ->
  mkdir_parents temp fs1 = Ok fs2 ->
  (fst (load_settings int_of_text resolve env w) = Raise ValueError <->
   int_of_text (getenv env "PAYMENT_WEBHOOK_PORT" (literal "8080")) = None \/
   int_of_text (getenv env "QUEUE_MAXSIZE" (literal "3")) = None) /\
  ((exists s, fst (load_settings int_of_text resolve env w) = Ok s) \/ fst (load_settings int_of_text resolve env w) = Raise ValueError) /\
  fs (snd (load_settings int_of_text resolve env w)) = fs2 /\ is_dir fs2 temp = true.
Proof.
  intros sqlite temp H1 H2. rewrite load_settings_run. cbv zeta.
  fold sqlite. fold temp. rewrite H1, H2.
  destruct (int_of_text (getenv env "PAYMENT_WEBHOOK_PORT" _)) as [port|];
    [destruct (int_of_text (getenv env "QUEUE_MAXSIZE" _)) as [maxsize|]|];
    cbn [fst snd fs].
  - split; [split; [done|by intros [|]]|]. split; [left; by eexists|].
    split; [done|]. by eapply mkdir_parents_dir.
  - split; [split; [by right|done]|]. split; [by right|].
    split; [done|]. by eapply mkdir_parents_dir.
  - split; [split; [by left|done]|]. split; [by right|].
    split; [done|]. by eapply mkdir_parents_dir.
Qed.

(** X18.  The token and the other secrets come out trimmed: each is the value
    of its variable without the white space at its two ends, and it is
    empty exactly when the variable is not set or holds white space only.
    The host and the log level are taken as they are. *)
Theorem load_settings_trims_secrets env w s w' :
  load_settings int_of_text resolve env w = (Ok s, w') ->
  trimmed_of (bot_token s) (getenv env "BOT_TOKEN" []) /\
  trimmed_of (cryptomus_merchant s) (getenv env "CRYPTOMUS_MERCHANT" []) /\
  trimmed_of (cryptomus_api_key s) (getenv env "CRYPTOMUS_API_KEY" []) /\
  trimmed_of (cryptomus_callback_secret s) (getenv env "CRYPTOMUS_CALLBACK_SECRET" []) /\
  trimmed_of (base_url s) (getenv env "BASE_URL" []) /\
  trimmed_of (banner_url s) (getenv env "BANNER_URL" []) /\
  (bot_token s = [] <->
   env !! "BOT_TOKEN" = None \/ exists v, env !! "BOT_TOKEN" = Some v /\ blank v) /\
  payment_webhook_host s = default (literal "0.0.0.0") (env !! "PAYMENT_WEBHOOK_HOST") /\
  log_level s = default (literal "INFO") (env !! "LOG_LEVEL").
Proof.
  rewrite load_settings_run. cbv zeta.
  destruct (mkdir_parents _ (fs w)) as [fs1|e]; [|done].
  destruct (mkdir_parents _ fs1) as [fs2|e]; [|done].
  destruct (int_of_text (getenv env "PAYMENT_WEBHOOK_PORT" _)) as [port|]; [|done].
  destruct (int_of_text (getenv env "QUEUE_MAXSIZE" _)) as [maxsize|]; [|done].
  intros [= <- <-]. cbn.
  do 6 (split; [apply strip_trimmed|]). split; [|done].
  rewrite strip_blank. unfold getenv. destruct (env !! "BOT_TOKEN") as [v|]; simpl.
  - split; [intros Hb; right; by exists v|]. by intros [|(v' & [= <-] & Hb)].
  - split; [by left|]. intros _. constructor.
Qed.
End LoadSettings.

Lemma load_settings_makes_directories_witness :
  exists s w',
    load_settings int_decimal resolve_in_srv ∅ nowhere = (Ok s, w') /\
    queue_maxsize s = 3%Z /\ is_dir (fs w') ["tmp"; "data"; "srv"] = true.
Proof.
  eexists _, _. split; [vm_compute; reflexivity|].
  edestruct (load_settings_makes_directories int_decimal resolve_in_srv ∅ nowhere)
    as (Hd & _); [vm_compute; reflexivity|].
  split; [vm_compute; reflexivity|exact Hd].
Defined.

Lemma load_settings_rejects_bad_number_witness :
  fst (load_settings int_decimal resolve_in_srv env_bad nowhere) = Raise ValueError.
Proof.
  pose proof (load_settings_rejects_bad_number int_decimal resolve_in_srv env_bad nowhere
    (<[ ["data"; "srv"] := Dir ]> (<[ ["srv"] := Dir ]> ∅))
    (<[ ["tmp"; "data"; "srv"] := Dir ]>
       (<[ ["data"; "srv"] := Dir ]> (<[ ["srv"] := Dir ]> ∅)))) as H.
  cbv zeta in H. destruct H as (Hv & _); [vm_compute; reflexivity..|].
  apply Hv. right. vm_compute. reflexivity.
Defined.

Lemma load_settings_trims_secrets_witness :
  let env : environ := {[ "BOT_TOKEN" := literal " 123:abc " ]} in
  exists s w',
    load_settings int_decimal resolve_in_srv env nowhere = (Ok s, w') /\
    trimmed_of (bot_token s) (getenv env "BOT_TOKEN" []).
Proof.
  intros env. eexists _, _. split; [vm_compute; reflexivity|].
  edestruct (load_settings_trims_secrets int_decimal resolve_in_srv env nowhere)
    as (Ht & _); [vm_compute; reflexivity|exact Ht].
Defined.

Section Public.
Implicit Types (p : MediaProcessor) (tr acts : list action) (job : MediaJob).

Lemma settle_dequeues_nothing job r p : dequeued (snd (settle job r p)) = [].
Proof. unfold settle. by destruct (done p (future job)). Qed.

Lemma public_step p tr ev p' acts :
  public ev = true ->
  all_known (in_flight p ++ queue p ++ putters p) /\ all_known (dequeued tr) ->
  step p ev = Some (p', acts) ->
  all_known (in_flight p' ++ queue p' ++ putters p') /\ all_known (dequeued (tr ++ acts)).
Proof.
  unfold all_known. intros Hev [Hk Hd]. rewrite dequeued_app, (Forall_app _ (dequeued tr)).
  destruct ev as [| |k s d|i| |out]; simpl.
  - intros [= <- <-]. split; [|split; [done|constructor]].
    by destruct p as [m q w u [[[| |j]|]|] [|] fs].
  - intros [= <- <-]. split; [|split; [done|constructor]].
    destruct p as [m q w u [[[| |j]|]|] sd fs]; unfold in_flight in *; simpl in *; try done.
    by apply Forall_cons in Hk as [_ ?].
  - unfold _enqueue.
    change (full (set_futures (futures p ++ [Pending]) p)) with (full p).
    destruct (full p); intros [= <- <-]; (split; [|split; [done|constructor]]);
      unfold in_flight in *; simpl in *; rewrite !Forall_app in *;
      destruct Hk as (H1 & H2 & H3); repeat split; try done;
      by repeat constructor.
  - unfold putter_resume. destruct (putters p !! i) as [job|] eqn:Hi; [|done].
    destruct (full p); [done|]. intros [= <- <-]. split; [|split; [done|constructor]].
    unfold in_flight in *. simpl in *. rewrite !Forall_app in *.
    destruct Hk as (H1 & H2 & H3). rewrite Forall_forall in H3.
    repeat split; try done.
    + repeat constructor. apply H3. by eapply list_elem_of_lookup_2.
    + apply Forall_forall. intros job' Hin. apply H3.
      eapply elem_of_submseteq; [done|]. apply submseteq_delete.
  - unfold worker_step.
    assert (forall j rest, queue p = j :: rest -> in_flight p = [] ->
              take j (set_queue rest p) = (p', acts) ->
              Forall (fun job => known_kind (kind job) = true)
                (in_flight p' ++ queue p' ++ putters p') /\
              Forall (fun job => known_kind (kind job) = true) (dequeued tr) /\
              Forall (fun job => known_kind (kind job) = true) (dequeued acts)) as Htake.
    { intros j rest Hq Hfl. rewrite Hq, Hfl in Hk. simpl in Hk.
      apply Forall_cons in Hk as [Hj Hk]. unfold take. rewrite Hj.
      intros [= <- <-]. unfold in_flight. simpl. split; [by constructor|].
      split; [done|]. by repeat constructor. }
    destruct (_worker_task p) as [[[| |j]|]|] eqn:Hw; try done.
    + destruct (_shutdown p).
      { intros [= <- <-]. unfold in_flight in *. rewrite Hw in Hk. simpl in *.
        split; [done|]. split; [done|constructor]. }
      destruct (queue p) as [|j rest] eqn:Hq.
      { intros [= <- <-]. unfold in_flight in *. rewrite Hw in Hk. simpl in *.
        rewrite Hq. split; [done|]. split; [done|constructor]. }
      intros [= Ht]. eapply Htake; [done| |done]. unfold in_flight. by rewrite Hw.
    + destruct (queue p) as [|j rest] eqn:Hq; [done|].
      intros [= Ht]. eapply Htake; [done| |done]. unfold in_flight. by rewrite Hw.
  - unfold worker_finish.
    destruct (_worker_task p) as [[[| |j]|]|] eqn:Hw; try done.
    pose proof (settle_frame j out p) as (Hq1 & Hp1 & _).
    pose proof (settle_dequeues_nothing j out p) as Hd1.
    destruct (settle j out p) as [p1 acts1]. simpl in *.
    intros [= <- <-]. unfold in_flight in *. rewrite Hw in Hk. simpl in *.
    rewrite Hq1, Hp1, Hd1. apply Forall_cons in Hk as [_ Hk].
    split; [done|]. split; [done|constructor].
Qed.

(** X19.  The error of an unknown job type cannot be reached through
    [enqueue_photo] and [enqueue_video]: when these are the only callers of
    [_enqueue], every job that is queued, waiting to be queued, in flight or
    was ever taken by the worker is a photo or a video, and whenever the
    worker takes a job it goes into its transform without settling
    anything. *)
Theorem public_jobs_are_known cap evs p tr :
  Forall (fun ev => public ev = true) evs ->
  run (init cap) evs = Some (p, tr) ->
  (forall job, job ∈ in_flight p ++ queue p ++ putters p ++ dequeued tr ->
     kind job = "photo" \/ kind job = "video") /\
  (forall p' acts, worker_step p = Some (p', acts) ->
     settled acts = [] /\
     forall job, Dequeued job ∈ acts -> in_flight p' = [job]).
Proof.
  intros Hevs Hrun.
  assert (all_known (in_flight p ++ queue p ++ putters p) /\ all_known (dequeued tr))
    as [Hk Hd].
  { apply (run_from_keeps
             (fun p tr => all_known (in_flight p ++ queue p ++ putters p) /\
                          all_known (dequeued tr)) public
             public_step evs (init cap) [] p tr); [done| |done].
    split; constructor. }
  split.
  - intros job Hin.
    assert (known_kind (kind job) = true) as Hkn.
    { unfold all_known in *. rewrite Forall_forall in Hk, Hd.
      rewrite !app_assoc in Hin. apply elem_of_app in Hin as [Hin|Hin]; [|by apply Hd].
      apply Hk. by rewrite !app_assoc. }
    unfold known_kind in Hkn. apply orb_prop in Hkn as [H|H]; apply String.eqb_eq in H; auto.
  - intros p' acts. unfold worker_step.
    assert (forall j rest, queue p = j :: rest ->
              take j (set_queue rest p) = (p', acts) ->
              settled acts = [] /\ forall job, Dequeued job ∈ acts -> in_flight p' = [job])
      as Htake.
    { intros j rest Hq. unfold all_known in Hk. rewrite !Forall_app, Hq in Hk.
      destruct Hk as (_ & [Hj _]%Forall_cons & _). unfold take. rewrite Hj.
      intros [= <- <-]. split; [done|]. intros job [= ->]%list_elem_of_singleton. done. }
    destruct (_worker_task p) as [[[| |j]|]|]; try done.
    + destruct (_shutdown p);
        [intros [= <- <-]; split; [done|]; by intros job H%elem_of_nil|].
      destruct (queue p) as [|j rest] eqn:Hq;
        [intros [= <- <-]; split; [done|]; by intros job H%elem_of_nil|].
      intros [= Ht]. by eapply Htake.
    + destruct (queue p) as [|j rest] eqn:Hq; [done|]. intros [= Ht]. by eapply Htake.
Qed.

End Public.

Lemma public_jobs_are_known_witness :
  exists p tr, run (init 3) crowded = Some (p, tr) /\
    forall job, job ∈ queue p -> kind job = "photo" \/ kind job = "video".
Proof.
  eexists _, _. split; [vm_compute; reflexivity|].
  edestruct (public_jobs_are_known 3 crowded) as [H _];
    [repeat constructor|vm_compute; reflexivity|].
  intros job Hin. apply H. rewrite !elem_of_app. auto.
Defined.

Import Payments.

Section OrderIds.
Implicit Types (s : str) (d : Decimal.uint).

Lemma split_nonempty sep s : split sep s <> [].
Proof. destruct s as [|c r]; simpl; [done|]. destruct (c =? sep)%N; [done|]. by destruct (split sep r). Qed.

Lemma split_without sep s : sep ∉ s -> split sep s = [s].
Proof.
  induction s as [|c r IH]; [done|]. intros Hno. simpl.
  apply not_elem_of_cons in Hno as [Hc Hr].
  destruct (N.eqb_spec c sep) as [->|_]; [done|]. by rewrite IH.
Qed.

Lemma split_app sep s rest :
  sep ∉ s -> split sep (s ++ sep :: rest) = s :: split sep rest.
Proof.
  induction s as [|c r IH]; intros Hno; simpl.
  - by rewrite N.eqb_refl.
  - apply not_elem_of_cons in Hno as [Hc Hr].
    destruct (N.eqb_spec c sep) as [->|_]; [done|]. by rewrite IH.
Qed.


Lemma numerals_dashless d : dash ∉ numerals d.
Proof.
  induction d; simpl; [apply not_elem_of_nil|..];
    (apply not_elem_of_cons; split; [by unfold dash|done]).
Qed.

Lemma str_of_int_dashless n : (0 <= n)%Z -> dash ∉ str_of_int n.
Proof.
  intros Hn. unfold str_of_int. destruct n as [|p|p]; [..|lia];
    cbn [Z.to_int]; apply numerals_dashless.
Qed.

Lemma str_of_int_negative n :
  (n < 0)%Z -> exists d, str_of_int n = dash :: numerals d.
Proof. intros Hn. destruct n as [|p|p]; try lia. by eexists. Qed.

Lemma split_str_of_int n :
  exists seg segs, split dash (str_of_int n) = seg :: segs.
Proof.
  pose proof (split_nonempty dash (str_of_int n)).
  destruct (split dash (str_of_int n)) as [|seg segs]; [done|]. by eexists _, _.
Qed.

(** X20.  The order id made by [_initiate_invoice] is read back by the
    payment webhook: for a plan without a dash and a user id that is not
    negative, the webhook finds the plan and the user id the invoice was
    made for, whatever the timestamp; under a negative user id the second
    segment is empty and [int] raises [ValueError]. *)
Theorem order_id_round_trip (int_of_text : str -> option Z)
    (plan : string) (user_id timestamp : Z) :
  dash ∉ literal plan ->
  ((0 <= user_id)%Z ->
   int_of_text (str_of_int user_id) = Some user_id ->
   webhook_order int_of_text (order_id plan user_id timestamp)
   = Ok (Some (literal plan, user_id))) /\
  ((user_id < 0)%Z ->
   int_of_text [] = None ->
   webhook_order int_of_text (order_id plan user_id timestamp)
   = Raise ValueError).
Proof.
  intros Hplan. unfold webhook_order, order_id. cbv zeta.
  rewrite (split_app dash _ _ Hplan).
  destruct (split_str_of_int timestamp) as (seg & segs & Hts).
  split.
  - intros Hpos Hint.
    rewrite (split_app dash _ _ (str_of_int_dashless _ Hpos)), Hts.
    simpl. by rewrite Hint.
  - intros Hneg Hint. destruct (str_of_int_negative _ Hneg) as [d ->].
    change ((dash :: numerals d) ++ dash :: str_of_int timestamp)
      with ([] ++ dash :: numerals d ++ dash :: str_of_int timestamp).
    rewrite (split_app dash [] _ (not_elem_of_nil _)).
    rewrite (split_app dash _ _ (numerals_dashless d)), Hts.
    simpl. by rewrite Hint.
Qed.


End OrderIds.

Lemma order_id_round_trip_witness :
  Forall (fun plan => dash ∉ literal plan) plans /\
  webhook_order int_decimal (order_id "pro_month" 7001 1700000000)
  = Ok (Some (literal "pro_month", 7001%Z)) /\
  webhook_order int_decimal (order_id "pro_lifetime" (-5) 1700000000)
  = Raise ValueError.
Proof.
  assert (Forall (fun plan => dash ∉ literal plan) plans) as Hplans.
  { repeat (apply Forall_cons_2; [|]); [..|apply Forall_nil_2];
      vm_compute; intros H; repeat (apply elem_of_cons in H as [H|H]; [discriminate H|]);
      by apply elem_of_nil in H. }
  split; [done|]. split.
  - apply (order_id_round_trip int_decimal "pro_month" 7001 1700000000);
      [|lia|vm_compute; reflexivity].
    by apply (Forall_inv Hplans).
  - apply (order_id_round_trip int_decimal "pro_lifetime" (-5) 1700000000);
      [|lia|reflexivity].
    by apply (Forall_inv (Forall_inv_tail Hplans)).
Defined.
